(** * Lunie API: Polkadot reducers and the Cosmos REST data source

    A shallow embedding of
    - [api/lib/reducers/polkadotV0-reducers.js]: [identityReducer],
      [aggregateLunieStaking], [dbRewardsReducer], [tallyReducer];
    - the Cosmos data source [CosmosV0API]: [getRetry], [loadPaginatedTxs],
      [getSelfStake], [getValidatorSigningInfo],
      [getDelegationsForDelegatorAddress].

    Conventions of the embedding.
    - A JavaScript number is a binary64 value: a rational when finite, an
      infinity or [NaN]; a result is rounded to the nearest binary64 value,
      ties to even ([JS.b64]).  A [BigNumber] stands for its mathematical
      value, a canonical rational [Qc].
    - A JavaScript object used as a dictionary whose iteration order is
      observed ([Object.entries]) is an association list in the order of
      its own property keys: array indices in ascending order, then the
      other names in order of creation.  Its keys are addresses and
      denominations, never names inherited from [Object.prototype].  A
      dictionary that is only looked up is a [gmap].
    - An [async] method is a function from the state of the data source to a
      completion ([Return] or [Throw]) and the next state. *)

From Stdlib Require Import ZArith QArith Qcanon Qround Qabs Qpower.
From Stdlib Require Import String Ascii List Sorted Lia Lqa.
From stdpp Require Import gmap strings list pretty.
From Equations Require Import Equations.

Local Open Scope Z_scope.

(** ** JavaScript values *)

Module JS.

(** A JavaScript number: a binary64 value, given by its mathematical value
    when it is finite.  Negative zero is not told apart from zero: none of
    [+], [||] and [toFixed] on the numbers of these functions does. *)
Inductive Number :=
| Finite (q : Q)
| Infinity (negative : bool)
| NaN.

Definition num (z : Z) : Number := Finite (inject_Z z).

Definition pow2 (e : Z) : Q := Qpower 2 e.

(** The exponent of the binary64 value nearest to a positive [x]: the [e]
    with [2^(e+52) <= x < 2^(e+53)], and [-1074] for the subnormal
    numbers below. *)
Definition exponent (x : Q) : Z :=
  let e := Z.log2 (Qnum x) - Z.log2 (Z.pos (Qden x)) - 52 in
  let e := if Qle_bool (pow2 (e + 52)) x then e else e - 1 in
  Z.max e (-1074).

(** The integer nearest to [s]; of two equally near, the even one. *)
Definition round_half_even (s : Q) : Z :=
  let f := Qfloor s in
  match Qcompare (s - inject_Z f) (1 # 2) with
  | Lt => f
  | Gt => f + 1
  | Eq => if Z.even f then f else f + 1
  end.

(** The multiple of [2^e] nearest to a positive [x], [e] its exponent:
    a significand of at most 53 bits. *)
Definition nearest (x : Q) : Q :=
  let e := exponent x in
  inject_Z (round_half_even (x / pow2 e)) * pow2 e.

(** The binary64 value of a real number (IEEE 754 [roundTiesToEven]):
    what a numeric literal and the exact result of an operation become. *)
Definition b64 (q : Q) : Number :=
  let q := Qred q in
  match Qcompare q 0 with
  | Eq => Finite 0
  | Gt => let y := nearest q in
          if Qle_bool (pow2 1024) y then Infinity false else Finite (Qred y)
  | Lt => let y := nearest (- q) in
          if Qle_bool (pow2 1024) y then Infinity true else Finite (Qred (- y))
  end.

(** [x + y] on numbers. *)
Definition add (x y : Number) : Number :=
  match x, y with
  | NaN, _ | _, NaN => NaN
  | Infinity s, Infinity s' => if Bool.eqb s s' then Infinity s else NaN
  | Infinity s, Finite _ | Finite _, Infinity s => Infinity s
  | Finite a, Finite b => b64 (a + b)
  end.

(** [x || 0] on a number: [undefined], [0] and [NaN] are falsy. *)
Definition or_zero (x : option Number) : Number :=
  match x with
  | Some (Finite q) => if Qeq_bool q 0 then num 0 else Finite q
  | Some (Infinity s) => Infinity s
  | Some NaN => num 0
  | None => num 0
  end.

(** Truthiness of a string-valued property: [undefined] and [''] are
    falsy. *)
Definition truthy (s : option string) : bool :=
  match s with
  | Some s => negb (String.eqb s "")
  | None => false
  end.

(** [s !== ``] *)
Definition not_empty (s : option string) : bool :=
  match s with
  | Some s => negb (String.eqb s "")
  | None => true
  end.

(** Template-literal interpolation of a string-valued property. *)
Definition interpolate (s : option string) : string :=
  match s with
  | Some s => s
  | None => "undefined"
  end.

(** The integer nearest to [|q| * 10^digits]; of two equally near, the
    larger one (ECMAScript [Number.prototype.toFixed], step "let n be an
    integer for which n / 10^f - x is as close to zero as possible; if
    there are two such n, pick the larger n"). *)
Definition nearest_scaled (digits : nat) (q : Q) : Z :=
  let d := Z.pos (Qden q) in
  (2 * Z.abs (Qnum q) * 10 ^ Z.of_nat digits + d) / (2 * d).

Fixpoint zeros (n : nat) : string :=
  match n with
  | O => ""
  | S n => String "0" (zeros n)
  end.

(** The digits of [n] with a decimal point before the last [digits] of
    them, zero-padded on the left to [digits + 1] characters. *)
Definition fixed_notation (digits : nat) (n : Z) : string :=
  let m := pretty (Z.to_N n) in
  match digits with
  | O => m
  | _ =>
    let k := String.length m in
    let m := if (k <=? digits)%nat then zeros (digits + 1 - k) +:+ m else m in
    let k := String.length m in
    substring 0 (k - digits) m +:+ "." +:+ substring (k - digits) digits m
  end.

(** [x.toFixed(digits)].  A number that is not finite is written by
    name; from [10^21] on ECMAScript answers in exponential notation,
    with the shortest digits that tell the value apart: [None]. *)
Definition toFixed (digits : nat) (x : Number) : option string :=
  match x with
  | Finite q =>
    if 10 ^ 21 * Z.pos (Qden q) <=? Z.abs (Qnum q) then None
    else
      Some ((if Qnum q <? 0 then "-" else "") +:+
            fixed_notation digits (nearest_scaled digits q))
  | Infinity false => Some "Infinity"
  | Infinity true => Some "-Infinity"
  | NaN => Some "NaN"
  end.

(** The value of a decimal digit. *)
Definition digit (c : ascii) : option N :=
  let n := N_of_ascii c in
  if (48 <=? n)%N && (n <=? 57)%N then Some (n - 48)%N else None.

(** The number a string of decimal digits writes, after [acc]. *)
Fixpoint read_digits (acc : N) (s : string) : option N :=
  match s with
  | "" => Some acc
  | String c s =>
    match digit c with
    | Some d => read_digits (10 * acc + d) s
    | None => None
    end
  end.

(** A property name that is an array index: the canonical decimal
    writing of an integer from [0] to [2^32 - 2]. *)
Definition array_index (k : string) : option N :=
  match k with
  | "" => None
  | String c rest =>
    match read_digits 0 k with
    | Some i =>
      if (negb (Ascii.eqb c "0") || String.eqb rest "") && (i <=? 4294967294)%N
      then Some i else None
    | None => None
    end
  end.

End JS.

(** ** bignumber.js *)

Module BigNumber.

(** A [BigNumber], by its mathematical value. *)
Abbreviation t := Qc (only parsing).

Definition of_Z (z : Z) : t := Q2Qc (inject_Z z).

Definition plus (x y : t) : t := (x + y)%Qc.

(** The library's defaults: [DECIMAL_PLACES = 20] and
    [ROUNDING_MODE = ROUND_HALF_UP] (to the nearest, ties away from
    zero). *)
Definition DECIMAL_PLACES : nat := 20.

Definition round_dp (dp : nat) (q : Q) : Q :=
  Qmake (Z.sgn (Qnum q) * JS.nearest_scaled dp q)
        (Z.to_pos (10 ^ Z.of_nat dp)).

(** [x.div(y)], for [y] other than zero. *)
Definition div (x y : t) : t := Q2Qc (round_dp DECIMAL_PLACES (this (x / y)%Qc)).

(** [x.toNumber()]: the binary64 value nearest to [x]. *)
Definition toNumber (x : t) : JS.Number := JS.b64 (this x).

(** [x.isGreaterThanOrEqualTo(y)] *)
Definition isGreaterThanOrEqualTo (x y : t) : bool := Qle_bool (this y) (this x).

End BigNumber.


(** ** Polkadot reducers ([polkadotV0-reducers.js]) *)

Module PolkadotV0.

Import JS.

(** *** [identityReducer] *)

(** The identity record of an account, as far as the reducer reads it. *)
Record Identity := {
  displayParent : option string;
  display : option string
}.

Definition identityReducer (address : string) (identity : Identity) : string :=
  if truthy (displayParent identity) &&
     not_empty (displayParent identity) &&
     truthy (display identity) &&
     not_empty (display identity)
  then interpolate (displayParent identity) +:+ "/" +:+ interpolate (display identity)
  else
    if truthy (display identity) && not_empty (display identity)
    then interpolate (display identity)
    else address.

(** *** [aggregateLunieStaking] *)

(** The arguments of a call, as far as the aggregation reads them:
    [args.value] of a bond, [args.max_additional] of a bondExtra, both as
    they are written, and [args[0].toHuman()] of a nominate. *)
Record Args := {
  value : Q;
  max_additional : Q;
  targets : list string
}.

(** A raw primitive [current]; [section] and [method] are those of
    [current.toHuman()]. *)
Record Call := {
  section : string;
  method : string;
  args : Args
}.

(** The record [{ method: 'staking', section: 'lunie', validators, amount }]. *)
Record LunieStaking := {
  staking_method : string;
  staking_section : string;
  validators : list string;
  amount : Number
}.

(** An element of the list returned: a primitive pushed to
    [reducedMessages], or the aggregated staking message. *)
Inductive Message :=
| Reduced (m_section m_method : string) (m_args : Args)
| Staking (s : LunieStaking).

(** The variables the [forEach] callback updates. *)
Record Aggregation := {
  aggregatedLunieStaking : LunieStaking;
  hasBond : bool;
  hasNominate : bool;
  reducedMessages : list Message
}.

Definition is_call (sec meth : string) (current : Call) : bool :=
  String.eqb (section current) sec && String.eqb (method current) meth.

Definition add_amount (x : Number) (s : Aggregation) : Aggregation :=
  let a := aggregatedLunieStaking s in
  {| aggregatedLunieStaking :=
       {| staking_method := staking_method a;
          staking_section := staking_section a;
          validators := validators a;
          amount := add (amount a) x |};
     hasBond := true;
     hasNominate := hasNominate s;
     reducedMessages := reducedMessages s |}.

Definition add_validators (vs : list string) (s : Aggregation) : Aggregation :=
  let a := aggregatedLunieStaking s in
  {| aggregatedLunieStaking :=
       {| staking_method := staking_method a;
          staking_section := staking_section a;
          validators := validators a ++ vs;
          amount := amount a |};
     hasBond := hasBond s;
     hasNominate := true;
     reducedMessages := reducedMessages s |}.

Definition push (m : Message) (s : Aggregation) : Aggregation :=
  {| aggregatedLunieStaking := aggregatedLunieStaking s;
     hasBond := hasBond s;
     hasNominate := hasNominate s;
     reducedMessages := reducedMessages s ++ [m] |}.

(** The body of [messages.forEach((current) => ...)]. *)
Definition forEach_body (s : Aggregation) (current : Call) : Aggregation :=
  let s := if is_call "staking" "bond" current
           then add_amount (b64 (value (args current))) s else s in
  let s := if is_call "staking" "bondExtra" current
           then add_amount (b64 (max_additional (args current))) s else s in
  let s := if is_call "staking" "nominate" current
           then add_validators (targets (args current)) s else s in
  push (Reduced (section current) (method current) (args current)) s.

Definition aggregateLunieStaking (messages : list Call) : list Message :=
  let init :=
    {| aggregatedLunieStaking :=
         {| staking_method := "staking";
            staking_section := "lunie";
            validators := [];
            amount := num 0 |};
       hasBond := false;
       hasNominate := false;
       reducedMessages := [] |} in
  let s := fold_left forEach_body messages init in
  if hasBond s && hasNominate s
  then reducedMessages s ++ [Staking (aggregatedLunieStaking s)]
  else reducedMessages s.

(** *** [dbRewardsReducer] *)

(** A validator of the dictionary, as far as these functions read it. *)
Record Validator := {
  operatorAddress : string;
  name : string
}.

(** A JavaScript object whose own properties are enumerated: the
    properties in the order of their keys ([OrdinaryOwnPropertyKeys]),
    array indices first, in ascending order, then the other names in
    order of creation. *)
Definition Obj (V : Type) : Type := list (string * V).

(** [o[k]], for a name [k] that [Object.prototype] does not have: the
    own property of that name. *)
Fixpoint obj_get {V} (o : Obj V) (k : string) : option V :=
  match o with
  | [] => None
  | (k', v) :: o => if String.eqb k' k then Some v else obj_get o k
  end.

(** A new value for the property [k], which keeps its place. *)
Fixpoint obj_replace {V} (o : Obj V) (k : string) (v : V) : Obj V :=
  match o with
  | [] => []
  | (k', v') :: o =>
    if String.eqb k' k then (k', v) :: o else (k', v') :: obj_replace o k v
  end.

(** A new property whose name is the array index [i]: before the first
    property that is a greater index or no index. *)
Fixpoint obj_insert_index {V} (o : Obj V) (i : N) (k : string) (v : V) : Obj V :=
  match o with
  | [] => [(k, v)]
  | (k', v') :: o' =>
    match array_index k' with
    | Some j =>
      if (i <? j)%N then (k, v) :: o else (k', v') :: obj_insert_index o' i k v
    | None => (k, v) :: o
    end
  end.

(** [o[k] = v]: an existing property keeps its place; a new one goes
    among the array indices if it is one, last otherwise. *)
Definition obj_set {V} (o : Obj V) (k : string) (v : V) : Obj V :=
  match obj_get o k with
  | Some _ => obj_replace o k v
  | None =>
    match array_index k with
    | Some i => obj_insert_index o i k v
    | None => o ++ [(k, v)]
    end
  end.

(** A reward row of the database; the amount as it is written. *)
Record DbReward := {
  reward_validator : string;
  reward_denom : string;
  reward_amount : Q
}.

(** An element of [flattenedAggregatedRewards]. *)
Record FlatReward := {
  flat_validator : string;
  flat_denom : string;
  flat_amount : option string
}.

(** An element of the list returned: [validator] is the entry of the
    dictionary, [undefined] when it has none. *)
Record Reward := {
  validator : option Validator;
  denom : string;
  rendered_amount : option string
}.

(** The callback of [dbRewards.reduce((sum, reward) => ..., {})]. *)
Definition sum_reward (sum : Obj (Obj Number)) (reward : DbReward) : Obj (Obj Number) :=
  (* sum[reward.validator] = sum[reward.validator] || {} *)
  let of_validator := default [] (obj_get sum (reward_validator reward)) in
  let sum := obj_set sum (reward_validator reward) of_validator in
  (* sum[reward.validator][reward.denom] =
       (sum[reward.validator][reward.denom] || 0) + reward.amount *)
  let of_validator := default [] (obj_get sum (reward_validator reward)) in
  obj_set sum (reward_validator reward)
    (obj_set of_validator (reward_denom reward)
       (add (or_zero (obj_get of_validator (reward_denom reward)))
            (b64 (reward_amount reward)))).

(** The callback of [Object.entries(aggregatedRewards).reduce(..., [])]. *)
Definition flatten_reward (sum : list FlatReward) (entry : string * Obj Number) : list FlatReward :=
  let '(validator, reward) := entry in
  sum ++ map (fun '(denom, amount) =>
                {| flat_validator := validator;
                   flat_denom := denom;
                   flat_amount := toFixed 6 amount |}) reward.

Definition dbRewardsReducer (validatorsDictionary : gmap string Validator)
    (dbRewards : list DbReward) : list Reward :=
  let aggregatedRewards := fold_left sum_reward dbRewards [] in
  let flattenedAggregatedRewards := fold_left flatten_reward aggregatedRewards [] in
  map (fun reward =>
         {| validator := validatorsDictionary !! flat_validator reward;
            denom := flat_denom reward;
            rendered_amount := flat_amount reward |})
      flattenedAggregatedRewards.

(** *** [tallyReducer] *)

(** The tally of a referendum; the chain gives the three amounts as
    hexadecimal integers, which [BigNumber] reads. *)
Record Tally := {
  ayes : N;
  nays : N;
  turnout : N
}.

Record ReducedTally (ViewDenom : Type) := {
  yes : ViewDenom;
  no : ViewDenom;
  abstain : Number;
  veto : Number;
  total : ViewDenom;
  totalVotedPercentage : option string
}.
Arguments yes {ViewDenom}.
Arguments no {ViewDenom}.
Arguments abstain {ViewDenom}.
Arguments veto {ViewDenom}.
Arguments total {ViewDenom}.
Arguments totalVotedPercentage {ViewDenom}.

Section TallyReducer.

(** [toViewDenom] of [common/numbers.js] and the network
    configuration it reads. *)
Context {Network ViewDenom : Type}.
Variable toViewDenom : Network -> BigNumber.t -> ViewDenom.

Definition tallyReducer (network : Network) (tally : Tally) (totalIssuance : Z)
  : ReducedTally ViewDenom :=
  let turnout := BigNumber.of_Z (Z.of_N (turnout tally)) in
  let totalVoted :=
    BigNumber.plus (BigNumber.of_Z (Z.of_N (ayes tally)))
                   (BigNumber.of_Z (Z.of_N (nays tally))) in
  let total := toViewDenom network totalVoted in
  let yes := toViewDenom network (BigNumber.of_Z (Z.of_N (ayes tally))) in
  let no := toViewDenom network (BigNumber.of_Z (Z.of_N (nays tally))) in
  let totalVotedPercentage :=
    toFixed 4 (BigNumber.toNumber (BigNumber.div turnout (BigNumber.of_Z totalIssuance))) in
  {| yes := yes;
     no := no;
     abstain := num 0;
     veto := num 0;
     total := total;
     totalVotedPercentage := totalVotedPercentage |}.

End TallyReducer.

End PolkadotV0.

(** ** The Cosmos REST data source ([CosmosV0API]) *)

Module CosmosV0.

(** *** Errors and completions *)

(** [error.extensions.response], as [apollo-datasource-rest] fills it
    from the answer: the URL asked, the status and its text, and the
    body, of which [body.error] is read. *)
Record ErrorResponse := {
  response_url : string;
  status : Z;
  statusText : string;
  body_error : string
}.

(** An error [this.get] rejects with.  A non-2xx answer carries the
    response under [extensions]; a transport failure carries none. *)
Record RequestError := {
  error_message : string;
  extensions_response : option ErrorResponse
}.

Inductive Thrown :=
| RequestFailed (error : RequestError)
| PlainError
| TypeError
| SyntaxError
| UserInputError (message : string).

Inductive Completion (A : Type) :=
| Return (a : A)
| Throw (e : Thrown).
Arguments Return {A}.
Arguments Throw {A}.

(** *** The state of the data source *)

Inductive Reply (B : Type) :=
| Ok (body : B)
| Fail (error : RequestError).
Arguments Ok {B}.
Arguments Fail {B}.

(** What one call of [this.get] meets: the reply, and by how much the
    HTTP cache of [apollo-datasource-rest] grows on it. *)
Record Exchange (B : Type) := {
  outcome : Reply B;
  cached : Z
}.
Arguments outcome {B}.
Arguments cached {B}.

(** The data source and its upstream, for an endpoint whose bodies have
    type [B].  [upstream n url] is what the [n]-th call of [this.get]
    meets when it asks for [url]. *)
Record World (B : Type) := {
  upstream : nat -> string -> Exchange B;
  requests : nat;
  cacheTotalSize : Z;
  memoizedResults : list string;
  timers : list Z;
  console : list string
}.
Arguments upstream {B}.
Arguments requests {B}.
Arguments cacheTotalSize {B}.
Arguments memoizedResults {B}.
Arguments timers {B}.
Arguments console {B}.

Definition Async (B A : Type) : Type := World B -> Completion A * World B.

Definition ret {B A} (a : A) : Async B A := fun w => (Return a, w).

Definition throw {B A} (e : Thrown) : Async B A := fun w => (Throw e, w).

(** [await] *)
Definition bind {B A C} (m : Async B A) (k : A -> Async B C) : Async B C :=
  fun w =>
    match m w with
    | (Return a, w') => k a w'
    | (Throw e, w') => (Throw e, w')
    end.

(** [try { m } catch (error) { handler }] *)
Definition try_catch {B A} (m : Async B A) (handler : Thrown -> Async B A) : Async B A :=
  fun w =>
    match m w with
    | (Return a, w') => (Return a, w')
    | (Throw e, w') => handler e w'
    end.

Declare Scope async_scope.
Delimit Scope async_scope with async.
Notation "x <- m ;; k" := (bind m (fun x => k))
  (at level 100, m at next level, right associativity) : async_scope.

(** [this.cache.flush()] *)
Definition cache_flush {B} (w : World B) : World B :=
  {| upstream := upstream w;
     requests := requests w;
     cacheTotalSize := 0;
     memoizedResults := memoizedResults w;
     timers := timers w;
     console := console w |}.

(** [this.memoizedResults.clear()] *)
Definition memoizedResults_clear {B} (w : World B) : World B :=
  {| upstream := upstream w;
     requests := requests w;
     cacheTotalSize := cacheTotalSize w;
     memoizedResults := [];
     timers := timers w;
     console := console w |}.

(** [await new Promise((resolve) => setTimeout(() => resolve(), ms))] *)
Definition setTimeout {B} (ms : Z) (w : World B) : World B :=
  {| upstream := upstream w;
     requests := requests w;
     cacheTotalSize := cacheTotalSize w;
     memoizedResults := memoizedResults w;
     timers := ms :: timers w;
     console := console w |}.

(** [console.error(line)] *)
Definition console_error {B} (line : string) (w : World B) : World B :=
  {| upstream := upstream w;
     requests := requests w;
     cacheTotalSize := cacheTotalSize w;
     memoizedResults := memoizedResults w;
     timers := timers w;
     console := line :: console w |}.

(** [this.get(url, null, { cacheOptions: { ttl: 1 } })] *)
Definition get {B} (url : string) : Async B B :=
  fun w =>
    let x := upstream w (requests w) url in
    let w' :=
      {| upstream := upstream w;
         requests := S (requests w);
         cacheTotalSize := cacheTotalSize w + cached x;
         memoizedResults := url :: memoizedResults w;
         timers := timers w;
         console := console w |} in
    match outcome x with
    | Ok body => (Return body, w')
    | Fail error => (Throw (RequestFailed error), w')
    end.

(** *** The instance *)

Record Validator := {
  operatorAddress : string;
  name : string
}.

(** [this]: the fields the methods below read. *)
Record DataSource := {
  networkId : string;
  network_title : string;
  delegatorBech32Prefix : string;
  validatorConsensusBech32Prefix : string;
  store_validators : gmap string Validator
}.

(** *** [getRetry] *)

Definition getRetry_message (url networkId : string) : string :=
  "Error for query " +:+ url +:+ " in network " +:+ networkId +:+ " (tried 3 times)".

(** The statements of [getRetry] before its [try]. *)
Definition getRetry_prepare {B} (w : World B) : World B :=
  let w := if 100000 <? cacheTotalSize w then cache_flush w else w in
  memoizedResults_clear w.

Equations? getRetry {B} (this : DataSource) (url : string) (intent : nat)
    (w : World B) : Completion B * World B by wf (3 - intent)%nat lt :=
  getRetry this url intent w with get url (getRetry_prepare w) => {
    | (Return body, w1) => (Return body, w1);
    | (Throw error, w1) with le_lt_dec 3 intent => {
      | left _ =>
        (Throw error, console_error (getRetry_message url (networkId this)) w1);
      | right _ =>
        getRetry this url (S intent) (setTimeout 1000 w1) } }.
Proof. lia. Qed.

(** [query(url)] *)
Definition query {B} (this : DataSource) (url : string) : Async B B :=
  getRetry this url 0.

(** *** [loadPaginatedTxs] *)

(** A transaction of the chain; the accumulation does not look into it. *)
Record Tx := {
  txhash : string;
  height : string
}.

(** The body of a [/txs] page; [total_count] is [Number(total_count)]. *)
Record TxsPage := {
  txs : list Tx;
  total_count : nat
}.

(** A promise observed for a bounded number of recursive calls: settled,
    or still pending when the bound is reached. *)
Inductive Run (B A : Type) :=
| Settled (c : Completion A) (w : World B)
| Pending (w : World B).
Arguments Settled {B A}.
Arguments Pending {B A}.

Definition pagination (page : nat) : string :=
  "&limit=1000000000&page=" +:+ pretty page.

(** [fuel] bounds the depth of the recursion that is observed; the code
    itself has no such bound. *)
Fixpoint loadPaginatedTxs (fuel : nat) (this : DataSource) (url : string)
    (page totalAmount : nat) (w : World TxsPage) : Run TxsPage (list Tx) :=
  match fuel with
  | O => Pending w
  | S fuel =>
    let allTxs : list Tx := [] in
    match getRetry this (url +:+ pagination page) 0 w with
    | (Throw e, w1) => Settled (Throw e) w1
    | (Return body, w1) =>
      let allTxs := allTxs ++ txs body in
      if (length allTxs + totalAmount <? total_count body)%nat then
        match loadPaginatedTxs fuel this url (page + 1)
                (totalAmount + length allTxs) w1 with
        | Settled (Return rest) w2 => Settled (Return (allTxs ++ rest)) w2
        | Settled (Throw e) w2 => Settled (Throw e) w2
        | Pending w2 => Pending w2
        end
      else Settled (Return allTxs) w1
    end
  end.

(** *** [checkAddress] *)

Definition checkAddress {B} (this : DataSource) (address : string) : Async B unit :=
  if negb (String.prefix (delegatorBech32Prefix this) address)
  then throw (UserInputError
                ("The address you entered doesn't belong to the " +:+
                 network_title this +:+ " network"))
  else ret tt.

(** *** Raw delegations *)

Inductive delegationEnum := ACTIVE | INACTIVE.

(** A delegation as the chain reports it; [balance] is the value
    [BigNumber] reads from the field. *)
Record RawDelegation := {
  delegator_address : string;
  validator_address : string;
  shares : string;
  balance : BigNumber.t
}.

(** What [JSON.parse(text)] does, as far as [getSelfStake] observes it: it
    throws a [SyntaxError], or it returns a value whose [message] is a
    string or is not. *)
Inductive Parsed :=
| ParseSyntaxError
| ParsedValue (message : option string).

(** The value [getSelfStake] resolves to: the number [0], or the amount of
    the reduced delegation. *)
Inductive SelfStake (Amount : Type) :=
| Zero
| AmountOf (a : Amount).
Arguments Zero {Amount}.
Arguments AmountOf {Amount}.

Section Methods.

(** Collaborators that live in other files: [JSON.parse], the reducers
    of [../reducers/cosmosV0-reducers] and the address helpers of
    [../tools]. *)
Context {Delegation Amount : Type}.
Variable JSON_parse : string -> Parsed.
Variable delegationReducer :
  RawDelegation -> option Validator -> delegationEnum -> Delegation.
Variable amount : Delegation -> Amount.
Variable decodeB32 : string -> string.
Variable encodeB32 : string -> string -> string.
Variable pubkeyToAddress : string -> string -> string.

(** *** [getSelfStake] *)

Definition selfStake_url (this : DataSource) (validator : Validator) : string :=
  let hexDelegatorAddressFromOperator := decodeB32 (operatorAddress validator) in
  let delegatorAddressFromOperator :=
    encodeB32 hexDelegatorAddressFromOperator (delegatorBech32Prefix this) in
  "staking/delegators/" +:+ delegatorAddressFromOperator +:+
  "/delegations/" +:+ operatorAddress validator.

(** The [catch (error)] block of [getSelfStake]. *)
Definition getSelfStake_catch (error : Thrown) : Async RawDelegation (SelfStake Amount) :=
  match error with
  | RequestFailed e =>
    match extensions_response e with
    | None => throw TypeError   (* error.extensions is undefined *)
    | Some response =>
      if status response =? 500 then
        match JSON_parse (body_error response) with
        | ParseSyntaxError => throw SyntaxError
        | ParsedValue None => throw TypeError
        | ParsedValue (Some message) =>
          if String.prefix "no delegation for this" message
          then ret Zero
          else throw error
        end
      else throw error
    end
  | _ => throw TypeError   (* no [extensions] on any other error *)
  end.

Definition getSelfStake (this : DataSource) (validator : Validator)
  : Async RawDelegation (SelfStake Amount) :=
  fun w =>
    match query this (selfStake_url this validator) w with
    | (Throw error, w1) => getSelfStake_catch error w1
    | (Return selfDelegation, w1) =>
      (Return (AmountOf (amount (delegationReducer selfDelegation (Some validator) ACTIVE))),
       w1)
    end.

(** *** [getValidatorSigningInfo] *)

Definition exceptions : list string :=
  ["cosmosvalconspub1zcjduepqx38v580cmd9em3n7mcgzj22jwdwks5lr3lfxl8g87vzjp7jyyszsr4xvzv";
   "cosmosvalconspub1zcjduepqlzmd0spn9m0m3eq9zp93d4w6e5tugamv44yqjzyacelnvra634fqnfec0r"].

(** [exceptions.indexOf(key) !== -1] *)
Definition is_exception (key : string) : bool :=
  existsb (String.eqb key) exceptions.

(** [{ ...object, ...spread }]: the properties of [spread] come after
    those of [object] and replace the ones of the same name. *)
Definition spread_over (object spread : gmap string string) : gmap string string :=
  spread ∪ object.

Definition signing_info_url (validatorConsensusPubKey : string) : string :=
  "slashing/validators/" +:+ validatorConsensusPubKey +:+ "/signing_info".

Definition default_signing_info (this : DataSource)
    (validatorConsensusPubKey : string) : gmap string string :=
  <[ "address" :=
       pubkeyToAddress validatorConsensusPubKey (validatorConsensusBech32Prefix this) ]>
  (<[ "missed_blocks_counter" := "0" ]> (<[ "start_height" := "0" ]> ∅)).

(** The signing info is a JSON object: its properties, by name. *)
Definition getValidatorSigningInfo (this : DataSource)
    (validatorConsensusPubKey : string)
  : Async (gmap string string) (gmap string string) :=
  try_catch
    (_ <- (if is_exception validatorConsensusPubKey
           then throw PlainError else ret tt) ;;
     response <- query this (signing_info_url validatorConsensusPubKey) ;;
     ret (spread_over
            {[ "address" :=
                 pubkeyToAddress validatorConsensusPubKey
                   (validatorConsensusBech32Prefix this) ]}
            response))%async
    (fun e => ret (default_signing_info this validatorConsensusPubKey)).

(** *** [getDelegationsForDelegatorAddress] *)

Definition delegations_url (address : string) : string :=
  "staking/delegators/" +:+ address +:+ "/delegations".

(** The body is [null] or the array of the delegations. *)
Definition getDelegationsForDelegatorAddress (this : DataSource) (address : string)
  : Async (option (list RawDelegation)) (list Delegation) :=
  (_ <- checkAddress this address ;;
   response <- query this (delegations_url address) ;;
   let delegations := default [] response in
   ret (map (fun delegation =>
               delegationReducer delegation
                 (store_validators this !! validator_address delegation)
                 ACTIVE)
            (List.filter
               (fun delegation =>
                  BigNumber.isGreaterThanOrEqualTo (balance delegation) (BigNumber.of_Z 1))
               delegations)))%async.

End Methods.

End CosmosV0.

(** ** Polkadot reducers: transactions *)

Module PolkadotV0Transactions.

Import JS PolkadotV0.

(** Modelled from the spec: the constants [lunieMessageTypes.SEND],
    [lunieMessageTypes.STAKE] and [lunieMessageTypes.UNKNOWN] of
    [lib/message-types], which the spec names as the types of a
    transaction; three distinct values. *)
Inductive lunieMessageType := SEND | STAKE | UNKNOWN.

(** *** [getMessageType] *)

Definition getMessageType (section method : string) : lunieMessageType :=
  let key := section +:+ "." +:+ method in
  if String.eqb key "balances.transfer" then SEND
  else if String.eqb key "lunie.staking" then STAKE
  else UNKNOWN.

(** [message.section] and [message.method] of an element of the list
    [aggregateLunieStaking] returns. *)
Definition message_section (message : Message) : string :=
  match message with
  | Reduced m_section _ _ => m_section
  | Staking s => staking_section s
  end.

Definition message_method (message : Message) : string :=
  match message with
  | Reduced _ m_method _ => m_method
  | Staking s => staking_method s
  end.

(** *** [getExtrinsicSuccess] *)

(** An event of the block, as far as it is read: [applyExtrinsic] is
    [parseInt(phase.toHuman().ApplyExtrinsic)], with [None] for [NaN] (the
    phase is not the application of an extrinsic). *)
Record BlockEvent := {
  applyExtrinsic : option nat;
  event_section : string;
  event_method : string
}.

(** [!!events.find(p)] *)
Definition found {A} (p : A -> bool) (events : list A) : bool :=
  match List.find p events with
  | Some _ => true
  | None => false
  end.

Definition getExtrinsicSuccess (extrinsicIndex : nat) (blockEvents : list BlockEvent)
    (isBatch : bool) : bool :=
  let events :=
    List.filter
      (fun e => match applyExtrinsic e with
                | Some index => Nat.eqb index extrinsicIndex
                | None => false
                end)
      blockEvents in
  if isBatch then
    found (fun e => String.eqb (event_section e) "utility" &&
                    String.eqb (event_method e) "BatchCompleted") events
  else
    found (fun e => String.eqb (event_section e) "system" &&
                    String.eqb (event_method e) "ExtrinsicSuccess") events.

(** *** [extractInvolvedAddresses] *)

(** [_.uniq(array)]: the first occurrence of each value, in order. *)
Definition uniq (array : list string) : list string :=
  fold_left (fun seen x => if existsb (String.eqb x) seen then seen else seen ++ [x])
            array [].

(** A message, as far as [extractInvolvedAddresses] reads it: [args[0]] of
    a transfer and [validators] of the aggregated staking message. *)
Record InvolvedMessage := {
  args_0 : string;
  message_validators : list string
}.

Definition extractInvolvedAddresses (lunieTransactionType : lunieMessageType)
    (signer : string) (message : InvolvedMessage) : list string :=
  let involvedAddresses : list string := [] in
  let involvedAddresses :=
    match lunieTransactionType with
    | SEND => involvedAddresses ++ [signer; args_0 message]
    | STAKE => involvedAddresses ++ [signer] ++ message_validators message
    | UNKNOWN => involvedAddresses ++ [signer]
    end in
  uniq involvedAddresses.

End PolkadotV0Transactions.

(** ** Polkadot reducers: council tally *)

Module PolkadotV0Council.

Import JS PolkadotV0.

(** The votes of a council motion: the accounts in favour and against. *)
Record CouncilVotes := {
  council_ayes : list string;
  council_nays : list string
}.

(** [electionInfo.members]: each member's account ([member[0].toHuman()])
    and backing ([member[1]]). *)
Definition Members : Type := list (string * Z).

(** The callback of [electionInfo.members.reduce(..., 0)]. *)
Definition add_backing (votingPowerAggregator : BigNumber.t) (member : string * Z)
  : BigNumber.t :=
  BigNumber.plus votingPowerAggregator (BigNumber.of_Z (snd member)).

(** The callback of [councilMembers.reduce(..., 0)]. *)
Definition add_voted (members : Members) (totalVotedAggregator : BigNumber.t)
    (member : string) : BigNumber.t :=
  match List.find (fun memberElectionInfo => String.eqb (fst memberElectionInfo) member)
                  members with
  | Some memberElectionInfo =>
    BigNumber.plus totalVotedAggregator (BigNumber.of_Z (snd memberElectionInfo))
  | None => totalVotedAggregator
  end.

Definition councilTallyReducer (votes : CouncilVotes) (councilMembers : list string)
    (members : Members) : ReducedTally nat :=
  let total := (length (council_ayes votes) + length (council_nays votes))%nat in
  let totalCouncilVotingPower := fold_left add_backing members (BigNumber.of_Z 0) in
  let totalVoted := fold_left (add_voted members) councilMembers (BigNumber.of_Z 0) in
  {| yes := length (council_ayes votes);
     no := length (council_nays votes);
     abstain := num 0;
     veto := num 0;
     total := total;
     totalVotedPercentage :=
       toFixed 4 (BigNumber.toNumber (BigNumber.div totalCouncilVotingPower totalVoted)) |}.

End PolkadotV0Council.

(** ** Polkadot reducers: rewards of an era *)

Module PolkadotV0Rewards.

Import JS PolkadotV0.

(** [_.keyBy(validators, 'operatorAddress')]: of two validators with the
    same address the later one stays. *)
Definition keyBy (validators : list Validator) : gmap string Validator :=
  fold_left (fun dict v => <[ operatorAddress v := v ]> dict) validators ∅.

Section Rewards.

(** The network configuration, the amount of an entry (as
    [validatorReward[1].toString(10)] gives it) and [reducers.coinReducer],
    which the caller passes in. *)
Context {Network Amount Coin : Type}.
Variable coinReducer : Network -> Amount -> Coin.

(** The rewards of an address for an era; [era_validators] is
    [reward.validators], by validator address. *)
Record EraReward := {
  era : nat;
  reward_address : string;
  era_validators : Obj Amount
}.

Record LunieReward := {
  id : string;
  coin : Coin;
  height : nat;
  address : string;
  rewarding_validator : Validator;
  validatorAddress : string
}.

(** The callback of [Object.entries(reward.validators).forEach(...)]. *)
Definition push_reward (network : Network) (validators : gmap string Validator)
    (reward : EraReward) (parsedRewards : list LunieReward)
    (validatorReward : string * Amount) : list LunieReward :=
  match validators !! fst validatorReward with
  | None => parsedRewards
  | Some validator =>
    parsedRewards ++
    [ {| id := fst validatorReward;
         coin := coinReducer network (snd validatorReward);
         height := era reward;
         address := reward_address reward;
         rewarding_validator := validator;
         validatorAddress := fst validatorReward |} ]
  end.

Definition rewardReducer (network : Network) (validators : gmap string Validator)
    (reward : EraReward) : list LunieReward :=
  fold_left (push_reward network validators reward) (era_validators reward) [].

(** [reducers_rewardReducer] is [reducers.rewardReducer]. *)
Definition rewardsReducer
    (reducers_rewardReducer :
       Network -> gmap string Validator -> EraReward -> list LunieReward)
    (network : Network) (validators : list Validator) (rewards : list EraReward)
  : list LunieReward :=
  let validatorsDict := keyBy validators in
  fold_left (fun allRewards reward =>
               allRewards ++ reducers_rewardReducer network validatorsDict reward)
            rewards [].

End Rewards.

End PolkadotV0Rewards.

(** ** The Cosmos REST data source: further methods *)

Module CosmosV0Queries.

Import CosmosV0.

(** *** [getDelegatorVote] *)

(** A vote of a proposal, as the chain reports it. *)
Record Vote := {
  voter : string;
  vote_option : string
}.

Definition votes_url (proposalId : string) : string :=
  "gov/proposals/" +:+ proposalId +:+ "/votes".

(** The body is [null] or the array of the votes; the value returned is
    the [option] property of the record, [None] for [undefined]. *)
Definition getDelegatorVote (this : DataSource) (proposalId address : string)
  : Async (option (list Vote)) (option string) :=
  (_ <- checkAddress this address ;;
   response <- query this (votes_url proposalId) ;;
   let votes := default [] response in
   let vote := List.find (fun v => String.eqb (voter v) address) votes in
   ret (match vote with
        | Some vote => Some (vote_option vote)
        | None => None   (* [{}.option] *)
        end))%async.

(** *** [getUndelegationsForDelegatorAddress] *)

Record UnbondingEntry := {
  entry_balance : string;
  entry_completion_time : string;
  entry_creation_height : string;
  entry_initial_balance : string
}.

(** An unbonding delegation in the nested format of the chain. *)
Record RawUndelegation := {
  undelegation_validator_address : string;
  undelegation_delegator_address : string;
  entries : list UnbondingEntry
}.

(** An element of [flattenedUndelegations]. *)
Record FlatUndelegation := {
  flat_validator_address : string;
  flat_delegator_address : string;
  flat_balance : string;
  flat_completion_time : string;
  flat_creation_height : string;
  flat_initial_balance : string
}.

(** The object built for an entry of an undelegation. *)
Definition flat_entry (undelegation : RawUndelegation) (entry : UnbondingEntry)
  : FlatUndelegation :=
  {| flat_validator_address := undelegation_validator_address undelegation;
     flat_delegator_address := undelegation_delegator_address undelegation;
     flat_balance := entry_balance entry;
     flat_completion_time := entry_completion_time entry;
     flat_creation_height := entry_creation_height entry;
     flat_initial_balance := entry_initial_balance entry |}.

Definition unbonding_url (address : string) : string :=
  "staking/delegators/" +:+ address +:+ "/unbonding_delegations".

Section Undelegations.

(** [undelegationReducer] of [../reducers/cosmosV0-reducers]. *)
Context {Undelegation : Type}.
Variable undelegationReducer : FlatUndelegation -> option Validator -> Undelegation.

Definition getUndelegationsForDelegatorAddress (this : DataSource) (address : string)
  : Async (option (list RawUndelegation)) (list Undelegation) :=
  (_ <- checkAddress this address ;;
   response <- query this (unbonding_url address) ;;
   let undelegations := default [] response in
   let flattenedUndelegations :=
     fold_left (fun list undelegation =>
                  list ++ map (flat_entry undelegation) (entries undelegation))
               undelegations [] in
   ret (map (fun undelegation =>
               undelegationReducer undelegation
                 (store_validators this !! flat_validator_address undelegation))
            flattenedUndelegations))%async.

End Undelegations.

(** *** [getProposalById] *)

Definition proposal_url (proposalId : string) : string :=
  "gov/proposals/" +:+ proposalId.

Definition no_proposal (proposalId : string) : string :=
  "There is no proposal in the network with ID '" +:+ proposalId +:+ "'".

Section Proposal.

(** The statements of [getProposalById] after its first [await]: the four
    parallel queries and the call of [proposalReducer], as a function of
    the proposal found. *)
Context {B Proposal : Type}.
Variable and_then : B -> Async B Proposal.

Definition getProposalById (this : DataSource) (proposalId : string)
  : Async B Proposal :=
  (proposal <- try_catch (query this (proposal_url proposalId))
                 (fun _ => throw (UserInputError (no_proposal proposalId))) ;;
   and_then proposal)%async.

End Proposal.

End CosmosV0Queries.

(** * Vocabulary of the properties *)

(** ** Numbers and their notation *)
Module NumberSpec.

Import JS.

(** A text at its first decimal point. *)
Fixpoint split_point (s : string) : option (string * string) :=
  match s with
  | "" => None
  | String c s =>
    if Ascii.eqb c "." then Some ("", s)
    else
      match split_point s with
      | Some (int, frac) => Some (String c int, frac)
      | None => None
      end
  end.

(** What a text in fixed notation writes: with [n] the number its digits
    write without the point and [k] the count of its decimals, [n / 10^k]. *)
Definition read_unsigned (s : string) : option (Z * nat) :=
  match split_point s with
  | Some (String c int, frac) =>
    match read_digits 0 (String c int +:+ frac) with
    | Some n => Some (Z.of_N n, String.length frac)
    | None => None
    end
  | _ => None
  end.

Definition read_fixed (s : string) : option (Z * nat) :=
  match s with
  | String c s' =>
    if Ascii.eqb c "-"
    then match read_unsigned s' with
         | Some (n, k) => Some (- n, k)
         | None => None
         end
    else read_unsigned s
  | "" => None
  end.

(** The number is finite, of value [q]. *)
Definition has_value (x : Number) (q : Q) : bool :=
  match x with
  | Finite y => Qeq_bool y q
  | _ => false
  end.

(** An amount without decimals that is not negative. *)
Definition whole (a : Q) : bool :=
  Qeq_bool a (inject_Z (Qfloor a)) && Qle_bool 0 a.

(** The sum of the amounts, as a real number. *)
Definition exact_sum (amounts : list Q) : Q := fold_right Qplus 0%Q amounts.

(** The limit of the integers that binary64 holds one by one. *)
Definition MAX_EXACT : Q := inject_Z (2 ^ 53).

End NumberSpec.

(** ** Identity resolution *)
Module IdentitySpec.

Import JS PolkadotV0.

(** "set and non-empty" *)
Definition set_to (field : option string) (s : string) : Prop :=
  field = Some s /\ s <> "".

Definition unset (field : option string) : Prop :=
  forall s, ~ set_to field s.

End IdentitySpec.

(** ** Staking aggregation *)

Module StakingSpec.

Import JS PolkadotV0 NumberSpec.

(** A bond or bond-extra primitive, and the amount it carries. *)
Definition is_bond (m : Call) : bool :=
  is_call "staking" "bond" m || is_call "staking" "bondExtra" m.

Definition bond_amount (m : Call) : Q :=
  if is_call "staking" "bond" m then value (args m) else max_additional (args m).

Definition is_nominate (m : Call) : bool := is_call "staking" "nominate" m.

(** The amounts of all bond and bond-extra primitives, in order. *)
Definition bond_amounts (messages : list Call) : list Q :=
  map bond_amount (List.filter is_bond messages).

(** Their sum as JavaScript adds numbers: from [0], one amount after the
    other, each result rounded to binary64. *)
Definition bonded (messages : list Call) : Number :=
  fold_left (fun sum a => add sum (b64 a)) (bond_amounts messages) (num 0).

(** The target lists of all nominate primitives, one after the other. *)
Definition nominated (messages : list Call) : list string :=
  concat (map (fun m => targets (args m)) (List.filter is_nominate messages)).

(** An input primitive as it appears in the output. *)
Definition preserved (m : Call) : Message :=
  Reduced (section m) (method m) (args m).

Definition stake_record (messages : list Call) : LunieStaking :=
  {| staking_method := "staking";
     staking_section := "lunie";
     validators := nominated messages;
     amount := bonded messages |}.

Definition bond_of (a : Q) : Call :=
  {| section := "staking"; method := "bond";
     args := {| value := a; max_additional := 0; targets := [] |} |}.

Definition bondExtra_of (a : Q) : Call :=
  {| section := "staking"; method := "bondExtra";
     args := {| value := 0; max_additional := a; targets := [] |} |}.

Definition bond_100 : Call := bond_of 100.

Definition nominate_V1_V2 : Call :=
  {| section := "staking"; method := "nominate";
     args := {| value := 0; max_additional := 0; targets := ["V1"; "V2"] |} |}.

(** The amounts of the aggregated records of a list returned. *)
Definition staked_amounts (out : list Message) : list Number :=
  flat_map (fun m => match m with
                     | Staking s => [amount s]
                     | Reduced _ _ _ => []
                     end) out.

End StakingSpec.

(** ** Reward aggregation *)

Module RewardsSpec.

Import JS PolkadotV0 NumberSpec.

(** The names of the properties, in order. *)
Definition keys {V : Type} (o : Obj V) : list string := map fst o.

(** [sum[validator][denom]] *)
Definition lookup2 (sum : Obj (Obj Number)) (validator denom : string) : option Number :=
  match obj_get sum validator with
  | Some of_validator => obj_get of_validator denom
  | None => None
  end.

(** No property is listed twice, at either level. *)
Definition well_formed (sum : Obj (Obj Number)) : Prop :=
  List.NoDup (keys sum) /\ Forall (fun entry => List.NoDup (keys (snd entry))) sum.

Definition concerns (validator denom : string) (reward : DbReward) : bool :=
  String.eqb (reward_validator reward) validator &&
  String.eqb (reward_denom reward) denom.

(** The amounts of the entries with that validator and denom, in order. *)
Definition amounts_of (validator denom : string) (dbRewards : list DbReward) : list Q :=
  map reward_amount (List.filter (concerns validator denom) dbRewards).

(** Their sum as the reducer adds them: from [0], one amount after the
    other by [(sum || 0) + amount], each result rounded to binary64. *)
Definition summed (validator denom : string) (dbRewards : list DbReward) : Number :=
  fold_left (fun sum a => add (or_zero (Some sum)) (b64 a))
            (amounts_of validator denom dbRewards) (num 0).

(** The properties of the aggregate, level by level. *)
Definition entries2 (sum : Obj (Obj Number)) : list (string * string * Number) :=
  flat_map (fun entry => map (fun property => (fst entry, fst property, snd property))
                             (snd entry)) sum.

Definition render (e : string * string * Number) : FlatReward :=
  {| flat_validator := fst (fst e);
     flat_denom := snd (fst e);
     flat_amount := toFixed 6 (snd e) |}.

Definition reward_row (validator denom : string) (amount : Q) : DbReward :=
  {| reward_validator := validator;
     reward_denom := denom;
     reward_amount := amount |}.

(** The record surfaced for a pair, given all the entries. *)
Definition record_of (validatorsDictionary : gmap string Validator)
    (dbRewards : list DbReward) (pair : string * string) : Reward :=
  {| validator := validatorsDictionary !! fst pair;
     denom := snd pair;
     rendered_amount := toFixed 6 (summed (fst pair) (snd pair) dbRewards) |}.

(** The amounts rendered, record by record. *)
Definition rendered (records : list Reward) : list (option string) :=
  map rendered_amount records.

End RewardsSpec.

(** ** Token-weighted tally *)

Module TallySpec.

Import JS PolkadotV0 NumberSpec.

(** [turnout / totalIssuance], as a real number. *)
Definition quotient (t T : Z) : Q := inject_Z t / inject_Z T.

(** [turnout / totalIssuance] in units of [10^-20], as [BigNumber.div]
    rounds it. *)
Definition quotient_20dp (t T : Z) : Z := (2 * t * 10 ^ 20 + T) / (2 * T).

(** The greatest quotient the properties are stated for: its binary64
    value is below [10^21], where [toFixed] leaves fixed notation. *)
Definition MAX_QUOTIENT : Z := 10 ^ 21 - 10 ^ 6.

Definition tally_of (t : N) : Tally := {| ayes := 0; nays := 0; turnout := t |}.

Definition tally_200_100_300 : Tally := {| ayes := 200; nays := 100; turnout := 300 |}.

End TallySpec.

(** ** Retrieval with retries *)

Module RetrySpec.

Import CosmosV0.

(** The reply the [k]-th attempt from [w] on meets. *)
Definition attempt {B : Type} (url : string) (w : World B) (k : nat) : Reply B :=
  outcome (upstream w (requests w + k) url).

Definition fails {B : Type} (url : string) (w : World B) (k : nat) : Prop :=
  exists error, attempt url w k = Fail error.

Definition cosmos : DataSource :=
  {| networkId := "cosmos-hub-mainnet";
     network_title := "Cosmos Hub";
     delegatorBech32Prefix := "cosmos";
     validatorConsensusBech32Prefix := "cosmosvalcons";
     store_validators := ∅ |}.

(** A data source that has not asked anything yet. *)
Definition fresh {B} (up : nat -> string -> Exchange B) : World B :=
  {| upstream := up;
     requests := 0;
     cacheTotalSize := 0;
     memoizedResults := [];
     timers := [];
     console := [] |}.

(** The error of a gateway timeout on [blocks/latest]. *)
Definition gateway_timeout : RequestError :=
  {| error_message := "504: Gateway Timeout";
     extensions_response :=
       Some {| response_url := "https://lcd.cosmos.example/blocks/latest";
               status := 504;
               statusText := "Gateway Timeout";
               body_error := "upstream timed out" |} |}.

Definition always_failing : World string :=
  fresh (fun _ _ => {| outcome := Fail gateway_timeout; cached := 0 |}).

Definition failing_twice : World string :=
  fresh (fun n _ =>
           {| outcome := if (n <? 2)%nat then Fail gateway_timeout else Ok "block 42";
              cached := 0 |}).

(** All the text an error carries. *)
Definition error_text (e : Thrown) : string :=
  match e with
  | RequestFailed error =>
    error_message error +:+ " " +:+
    match extensions_response error with
    | Some response =>
      response_url response +:+ " " +:+ pretty (status response) +:+ " " +:+
      statusText response +:+ " " +:+ body_error response
    | None => ""
    end
  | UserInputError message => message
  | _ => ""
  end.

(** [needle] occurs in [text]. *)
Definition mentions (text needle : string) : bool :=
  match String.index 0 needle text with
  | Some _ => true
  | None => false
  end.

End RetrySpec.

(** ** Paginated accumulation *)

Module PaginationSpec.

Import CosmosV0 RetrySpec.

(** Every page is empty, and every page announces one transaction. *)
Definition empty_pages : World TxsPage :=
  fresh (fun _ _ => {| outcome := Ok {| txs := []; total_count := 1 |}; cached := 0 |}).

(** Pages [page], [page + 1], ... ([k] of them), one after the other. *)
Definition first_pages (pages : nat -> list Tx) (page k : nat) : list Tx :=
  concat (map pages (seq page k)).

Definition serves (url : string) (pages : nat -> list Tx) (N : nat)
    (w : World TxsPage) : Prop :=
  forall n p,
    outcome (upstream w n (url +:+ pagination p)) =
    Ok {| txs := pages p; total_count := N |}.

Definition tx (hash : string) : Tx := {| txhash := hash; height := "1" |}.

(** Two pages of two transactions, with a reported total of three. *)
Definition three_in_two_pages : World TxsPage :=
  fresh (fun _ url =>
           {| outcome :=
                if String.eqb url "/txs?sender=cosmos1abc&limit=1000000000&page=1"
                then Ok {| txs := [tx "A"; tx "B"]; total_count := 3 |}
                else Ok {| txs := [tx "C"; tx "D"]; total_count := 3 |};
              cached := 0 |}).

(** The same page of two transactions under every page number, with a
    reported total of three. *)
Definition same_page_again : World TxsPage :=
  fresh (fun _ _ =>
           {| outcome := Ok {| txs := [tx "A"; tx "B"]; total_count := 3 |};
              cached := 0 |}).

End PaginationSpec.

(** ** Self stake *)

Module SelfStakeSpec.

Import CosmosV0 RetrySpec.

(** An upstream that answers every attempt with status 500 and the body
    [{ error: 'internal error' }]. *)
Definition internal_error_response : ErrorResponse :=
  {| response_url := "https://lcd.cosmos.example/staking/delegators/cosmos1abc/delegations/cosmosvaloper1abc";
     status := 500;
     statusText := "Internal Server Error";
     body_error := "internal error" |}.

Definition internal_error : RequestError :=
  {| error_message := "500: Internal Server Error";
     extensions_response := Some internal_error_response |}.

Definition always_internal_error : World RawDelegation :=
  fresh (fun _ _ => {| outcome := Fail internal_error; cached := 0 |}).

(** [JSON.parse] on the texts of this example: ['internal error'] is not
    JSON. *)
Definition parse_example (text : string) : Parsed :=
  if String.eqb text "internal error" then ParseSyntaxError
  else ParsedValue (Some text).

Definition validator_1 : Validator :=
  {| operatorAddress := "cosmosvaloper1abc"; name := "one" |}.

End SelfStakeSpec.

(** ** Signing info *)

Module SigningInfoSpec.

Import CosmosV0 RetrySpec.

(** [pubkeyToAddress] of the examples: any function will do. *)
Definition address_of (pubkey prefix : string) : string :=
  prefix +:+ "1" +:+ pubkey.

(** An upstream whose signing info has an [address] property. *)
Definition with_address : World (gmap string string) :=
  fresh (fun _ _ =>
           {| outcome := Ok (<[ "address" := "cosmosvalcons1qqqq" ]>
                             (<[ "start_height" := "7" ]> ∅));
              cached := 0 |}).

Definition always_unavailable : World (gmap string string) :=
  fresh (fun _ _ => {| outcome := Fail gateway_timeout; cached := 0 |}).

End SigningInfoSpec.

(** ** Delegations of a delegator *)

Module DelegationsSpec.

Import CosmosV0 RetrySpec.

(** The balance is at least 1. *)
Definition at_least_one (delegation : RawDelegation) : bool :=
  Qle_bool 1 (this (balance delegation)).

Definition raw (validator : string) (numerator : Z) (denominator : positive) : RawDelegation :=
  {| delegator_address := "cosmos1abc";
     validator_address := validator;
     shares := "1";
     balance := Q2Qc (Qmake numerator denominator) |}.

(** Balances 5, 1/2 and 1. *)
Definition three_delegations : World (option (list RawDelegation)) :=
  fresh (fun _ _ =>
           {| outcome := Ok (Some [raw "val1" 5 1; raw "val2" 1 2; raw "val3" 1 1]);
              cached := 0 |}).

End DelegationsSpec.

(** ** Transactions of an extrinsic *)

Module TransactionsSpec.

Import JS PolkadotV0 PolkadotV0Transactions.

(** The event that marks success: [utility.BatchCompleted] for a batch,
    [system.ExtrinsicSuccess] otherwise. *)
Definition success_section (isBatch : bool) : string :=
  if isBatch then "utility" else "system".

Definition success_method (isBatch : bool) : string :=
  if isBatch then "BatchCompleted" else "ExtrinsicSuccess".

(** The type [parsePolkadotTransaction] gives a message. *)
Definition message_type (message : Message) : lunieMessageType :=
  getMessageType (message_section message) (message_method message).

Definition call_type (c : Call) : lunieMessageType :=
  getMessageType (section c) (method c).

End TransactionsSpec.

(** ** Council tally *)

Module CouncilSpec.

Import JS PolkadotV0 PolkadotV0Council.

(** The backing of the whole roster. *)
Definition backing_total (members : Members) : Z :=
  fold_right Z.add 0 (map snd members).

(** The backing of an account: that of its first entry on the roster, 0
    when it has none. *)
Definition backing_of (members : Members) (account : string) : Z :=
  match List.find (fun memberElectionInfo => String.eqb (fst memberElectionInfo) account)
                  members with
  | Some memberElectionInfo => snd memberElectionInfo
  | None => 0
  end.

Definition voted_total (members : Members) (councilMembers : list string) : Z :=
  fold_right Z.add 0 (map (backing_of members) councilMembers).

End CouncilSpec.

(** ** Rewards of an era *)

Module EraRewardsSpec.

Import JS PolkadotV0 PolkadotV0Rewards.

(** The dictionary has a validator under the address. *)
Definition known (validators : gmap string Validator) (address : string) : bool :=
  match validators !! address with
  | Some _ => true
  | None => false
  end.

(** What a record of a reward says: the dictionary's validator under its
    address, the address twice, the era as height, the rewarded address and
    the reduced coin of its entry. *)
Definition faithful {Network Amount Coin : Type}
    (coinReducer : Network -> Amount -> Coin) (network : Network)
    (validators : gmap string Validator) (reward : EraReward)
    (r : LunieReward) : Prop :=
  validators !! id r = Some (rewarding_validator r) /\
  validatorAddress r = id r /\
  height r = era reward /\
  address r = reward_address reward /\
  exists amount,
    In (id r, amount) (era_validators reward) /\ coin r = coinReducer network amount.

End EraRewardsSpec.

(** ** Order of the aggregated rewards *)

Module RewardsOrderSpec.

Import JS PolkadotV0 PolkadotV0Transactions RewardsSpec.

Definition is_index (k : string) : bool :=
  match array_index k with
  | Some _ => true
  | None => false
  end.

Definition index_of (k : string) : N := default 0%N (array_index k).

(** A name put into a list in ascending order of the indices: before the
    first name of a greater index. *)
Fixpoint insert_ascending (x : string) (sorted : list string) : list string :=
  match sorted with
  | [] => [x]
  | y :: sorted' =>
    if (index_of x <? index_of y)%N then x :: sorted
    else y :: insert_ascending x sorted'
  end.

Definition ascending (names : list string) : list string :=
  fold_left (fun sorted x => insert_ascending x sorted) names [].

(** The order in which an object lists its properties, when they were
    created in the order of [names]: the array indices in ascending
    order, then the other names, each at its first occurrence. *)
Definition own_keys (names : list string) : list string :=
  ascending (uniq (List.filter is_index names)) ++
  uniq (List.filter (fun k => negb (is_index k)) names).

(** The validators of the entries, as the aggregate lists them. *)
Definition validators_in_order (dbRewards : list DbReward) : list string :=
  own_keys (map reward_validator dbRewards).

(** The denoms of the entries of a validator, as its part of the
    aggregate lists them. *)
Definition denoms_in_order (dbRewards : list DbReward) (validator : string)
  : list string :=
  own_keys (map reward_denom
              (List.filter (fun r => String.eqb (reward_validator r) validator) dbRewards)).

Definition pairs_in_order (dbRewards : list DbReward) : list (string * string) :=
  flat_map (fun validator => map (pair validator) (denoms_in_order dbRewards validator))
           (validators_in_order dbRewards).

(** What [obj_insert_index] does to the names. *)
Fixpoint insert_key (names : list string) (i : N) (x : string) : list string :=
  match names with
  | [] => [x]
  | y :: names' =>
    match array_index y with
    | Some j => if (i <? j)%N then x :: names else y :: insert_key names' i x
    | None => x :: names
    end
  end.

(** What an assignment to the property [x] does to the names. *)
Definition see (seen : list string) (x : string) : list string :=
  if existsb (String.eqb x) seen then seen
  else
    match array_index x with
    | Some i => insert_key seen i x
    | None => seen ++ [x]
    end.

(** The names of the properties of [sum[validator]], none when it is not
    there. *)
Definition keys2 (sum : Obj (Obj Number)) (validator : string) : list string :=
  keys (default [] (obj_get sum validator)).

End RewardsOrderSpec.

(** ** Retrieval: requests and cache *)

Module RetrievalSpec.

Import CosmosV0 RetrySpec.

(** The size at which [getRetry] flushes the cache. *)
Definition flush_threshold : Z := 100000.

(** Every exchange adds at most [growth] to the cache. *)
Definition grows_by_at_most {B} (growth : Z) (w : World B) : Prop :=
  forall n url, cached (upstream w n url) <= growth.

(** Each exchange caches 70000 units, and every request fails. *)
Definition heavy_failures : World string :=
  fresh (fun _ _ => {| outcome := Fail gateway_timeout; cached := 70000 |}).

End RetrievalSpec.

(** ** Further queries *)

Module QueriesSpec.

Import CosmosV0 CosmosV0Queries RetrySpec PaginationSpec.

(** The message of [checkAddress]. *)
Definition foreign_address (this : DataSource) : string :=
  "The address you entered doesn't belong to the " +:+ network_title this +:+ " network".

(** The votes of a proposal: one by another account, then two by
    [cosmos1abc]. *)
Definition three_votes : World (option (list Vote)) :=
  fresh (fun _ _ =>
           {| outcome := Ok (Some [ {| voter := "cosmos1xyz"; vote_option := "No" |};
                                    {| voter := "cosmos1abc"; vote_option := "Yes" |};
                                    {| voter := "cosmos1abc"; vote_option := "Abstain" |} ]);
              cached := 0 |}).

Definition entry (balance : string) : UnbondingEntry :=
  {| entry_balance := balance;
     entry_completion_time := "2020-07-01T00:00:00Z";
     entry_creation_height := "100";
     entry_initial_balance := balance |}.

(** Two undelegations, of two entries and of one. *)
Definition two_undelegations : World (option (list RawUndelegation)) :=
  fresh (fun _ _ =>
           {| outcome :=
                Ok (Some [ {| undelegation_validator_address := "val1";
                              undelegation_delegator_address := "cosmos1abc";
                              entries := [entry "5"; entry "7"] |};
                           {| undelegation_validator_address := "val2";
                              undelegation_delegator_address := "cosmos1abc";
                              entries := [entry "9"] |} ]);
              cached := 0 |}).

(** The number of entries of the undelegations. *)
Definition entries_count (undelegations : list RawUndelegation) : nat :=
  fold_right Nat.add 0%nat (map (fun u => length (entries u)) undelegations).

(** The first page is served, every other request fails. *)
Definition second_page_fails : World TxsPage :=
  fresh (fun _ url =>
           {| outcome :=
                if String.eqb url "/txs?sender=cosmos1abc&limit=1000000000&page=1"
                then Ok {| txs := [tx "A"; tx "B"]; total_count := 3 |}
                else Fail gateway_timeout;
              cached := 0 |}).

End QueriesSpec.

(** * Properties *)

(** ** Rounding to binary64 *)
Module FloatProofs.

Import JS.

Local Open Scope Q_scope.

Lemma pow2_pos e : 0 < pow2 e.
Proof. apply Qpower_0_lt. reflexivity. Qed.

Lemma pow2_add a b : pow2 (a + b) == pow2 a * pow2 b.
Proof. apply Qpower_plus. discriminate. Qed.

Lemma pow2_Z k : (0 <= k)%Z -> pow2 k == inject_Z (2 ^ k).
Proof. intros Hk. unfold pow2. rewrite Zpower_Qpower by exact Hk. reflexivity. Qed.

Lemma pow2_opp k : pow2 k * pow2 (- k) == 1.
Proof.
  rewrite <- pow2_add. replace (k + - k)%Z with 0%Z by lia. reflexivity.
Qed.

Lemma round_half_even_near s :
  Qabs (inject_Z (round_half_even s) - s) <= 1 # 2.
Proof.
  unfold round_half_even.
  pose proof (Qfloor_le s) as Hlo. pose proof (Qlt_floor s) as Hhi.
  rewrite inject_Z_plus in Hhi. change (inject_Z 1) with 1 in Hhi.
  set (f := Qfloor s) in *.
  apply Qabs_Qle_condition.
  destruct (Qcompare (s - inject_Z f) (1 # 2)) eqn:Hc.
  - apply Qeq_alt in Hc. destruct (Z.even f).
    + split; lra.
    + rewrite inject_Z_plus. change (inject_Z 1) with 1. split; lra.
  - apply Qlt_alt in Hc. split; lra.
  - apply Qgt_alt in Hc. rewrite inject_Z_plus. change (inject_Z 1) with 1.
    split; lra.
Qed.

Lemma round_half_even_Z s k : s == inject_Z k -> round_half_even s = k.
Proof.
  intros Hs. unfold round_half_even.
  rewrite (Qfloor_comp _ _ Hs), Qfloor_Z.
  destruct (Qcompare (s - inject_Z k) (1 # 2)) eqn:Hc; [| reflexivity |].
  - apply Qeq_alt in Hc. lra.
  - apply Qgt_alt in Hc. lra.
Qed.

Lemma pow2_log2_le (x : Q) :
  0 < x ->
  pow2 (Z.log2 (Qnum x) - Z.log2 (Z.pos (Qden x)) - 1) <= x.
Proof.
  intros Hx. destruct x as [n d]. cbn [Qnum Qden].
  assert (0 < n)%Z as Hn by (unfold Qlt in Hx; cbn in Hx; lia).
  pose proof (Z.log2_spec n Hn) as [Ha _].
  pose proof (Z.log2_spec (Z.pos d) (Pos2Z.is_pos d)) as [_ Hb].
  pose proof (Z.log2_nonneg n) as Ha0.
  pose proof (Z.log2_nonneg (Z.pos d)) as Hb0.
  set (a := Z.log2 n) in *. set (b := Z.log2 (Z.pos d)) in *.
  apply (Qmult_le_r _ _ (pow2 (Z.succ b))); [apply pow2_pos|].
  rewrite <- pow2_add. replace (a - b - 1 + Z.succ b)%Z with a by lia.
  rewrite !pow2_Z by lia.
  unfold Qle, Qmult, inject_Z. cbn [Qnum Qden].
  rewrite Pos2Z.inj_mul. nia.
Qed.

(** The exponent is that of the format. *)
Lemma exponent_spec x :
  0 < x ->
  (-1074 <= exponent x)%Z /\
  (exponent x = (-1074)%Z \/ pow2 (exponent x + 52) <= x).
Proof.
  intros Hx. unfold exponent.
  set (e0 := (Z.log2 (Qnum x) - Z.log2 (Z.pos (Qden x)) - 52)%Z).
  set (e := if Qle_bool (pow2 (e0 + 52)) x then e0 else (e0 - 1)%Z).
  assert (pow2 (e + 52) <= x) as He.
  { unfold e. destruct (Qle_bool (pow2 (e0 + 52)) x) eqn:Hb.
    - apply Qle_bool_iff, Hb.
    - replace (e0 - 1 + 52)%Z
        with (Z.log2 (Qnum x) - Z.log2 (Z.pos (Qden x)) - 1)%Z by (unfold e0; lia).
      apply pow2_log2_le, Hx. }
  split; [lia|].
  destruct (Z.max_spec e (-1074)) as [[_ ->]|[_ ->]]; [left; reflexivity | right; exact He].
Qed.

Lemma nearest_nonneg x : 0 < x -> 0 <= nearest x.
Proof.
  intros Hx. unfold nearest. set (e := exponent x).
  pose proof (pow2_pos e) as He.
  apply Qmult_le_0_compat; [|lra].
  assert (0 <= x / pow2 e) as Hs.
  { apply Qle_shift_div_l; [exact He | lra]. }
  unfold round_half_even.
  assert (0 <= Qfloor (x / pow2 e))%Z as Hf.
  { change 0%Z with (Qfloor 0). apply Qfloor_resp_le, Hs. }
  change 0 with (inject_Z 0). rewrite <- Zle_Qle.
  destruct (Qcompare _ _); [destruct (Z.even _)| |]; lia.
Qed.

(** Rounding moves a positive number by at most half a unit in the last
    place: [2^-53] of it, or [2^-1075] among the subnormal numbers. *)
Lemma nearest_error x :
  0 < x -> Qabs (nearest x - x) <= x * pow2 (-53) + pow2 (-1075).
Proof.
  intros Hx. unfold nearest.
  destruct (exponent_spec x Hx) as [_ He]. set (e := exponent x) in *.
  pose proof (pow2_pos e) as Hpe.
  pose proof (round_half_even_near (x / pow2 e)) as Hr.
  set (m := inject_Z (round_half_even (x / pow2 e))) in *.
  assert (Qabs (m * pow2 e - x) <= pow2 (e - 1)) as Herr.
  { assert (m * pow2 e - x == (m - x / pow2 e) * pow2 e) as ->.
    { field. intros H0. rewrite H0 in Hpe. apply (Qlt_irrefl 0), Hpe. }
    rewrite Qabs_Qmult, (Qabs_pos (pow2 e)) by lra.
    assert (pow2 (e - 1) == (1 # 2) * pow2 e) as ->.
    { replace (e - 1)%Z with (-1 + e)%Z by lia. rewrite pow2_add. reflexivity. }
    apply Qmult_le_compat_r; [exact Hr | lra]. }
  pose proof (pow2_pos (-53)) as H53. pose proof (pow2_pos (-1075)) as H1075.
  assert (0 <= x * pow2 (-53)) as Hx53 by (apply Qmult_le_0_compat; lra).
  destruct He as [He|He].
  - assert (pow2 (e - 1) == pow2 (-1075)) as Heq by (rewrite He; reflexivity).
    lra.
  - assert (pow2 (e - 1) == pow2 (e + 52) * pow2 (-53)) as Heq.
    { rewrite <- pow2_add. replace (e + 52 + -53)%Z with (e - 1)%Z by lia. reflexivity. }
    assert (pow2 (e + 52) * pow2 (-53) <= x * pow2 (-53))
      by (apply Qmult_le_compat_r; lra).
    lra.
Qed.

Lemma Qred_eq_inject_Z q z : q == inject_Z z -> Qred q = inject_Z z.
Proof.
  intros Hq. rewrite (Qred_complete _ _ Hq). apply Qred_identity.
  cbn. apply Z.gcd_1_r.
Qed.

Lemma nearest_integer z :
  (0 < z <= 2 ^ 53)%Z -> nearest (inject_Z z) == inject_Z z.
Proof.
  intros [Hz Hle]. destruct (Z.eq_dec z (2 ^ 53)%Z) as [->|Hne].
  { vm_compute. reflexivity. }
  assert (z < 2 ^ 53)%Z as Hlt by lia.
  pose proof (Z.log2_spec z Hz) as [Ha _].
  pose proof (Z.log2_nonneg z) as Ha0.
  assert (Z.log2 z < 53)%Z as Ha53 by (apply Z.log2_lt_pow2; lia).
  set (a := Z.log2 z) in *.
  assert (exponent (inject_Z z) = (a - 52)%Z) as He.
  { unfold exponent. cbn [Qnum Qden inject_Z]. change (Z.log2 1) with 0%Z. fold a.
    replace (a - 0 - 52 + 52)%Z with a by lia.
    assert (Qle_bool (pow2 a) (inject_Z z) = true) as ->.
    { apply Qle_bool_iff. rewrite pow2_Z by lia.
      rewrite <- Zle_Qle. exact Ha. }
    lia. }
  unfold nearest. rewrite He.
  assert (inject_Z z / pow2 (a - 52) == inject_Z (z * 2 ^ (52 - a))) as Hs.
  { rewrite inject_Z_mult, <- pow2_Z by lia.
    unfold Qdiv, pow2. rewrite <- Qpower_opp.
    replace (- (a - 52))%Z with (52 - a)%Z by lia. reflexivity. }
  rewrite (round_half_even_Z _ _ Hs), inject_Z_mult, <- pow2_Z by lia.
  rewrite <- Qmult_assoc, <- pow2_add.
  replace (52 - a + (a - 52))%Z with 0%Z by lia.
  change (pow2 0) with 1. apply Qmult_1_r.
Qed.

Lemma pow2_1024_above z : (Z.abs z <= 2 ^ 53)%Z -> Qle_bool (pow2 1024) (inject_Z z) = false.
Proof.
  intros Hz. destruct (Qle_bool _ _) eqn:Hb; [|reflexivity].
  apply Qle_bool_iff in Hb. rewrite pow2_Z in Hb by lia.
  rewrite <- Zle_Qle in Hb.
  assert (2 ^ 53 < 2 ^ 1024)%Z by (vm_compute; reflexivity). lia.
Qed.

(** An integer of at most 53 bits is a binary64 value. *)
Lemma b64_integer q z :
  q == inject_Z z -> (Z.abs z <= 2 ^ 53)%Z -> b64 q = Finite (inject_Z z).
Proof.
  intros Hq Hz. unfold b64. rewrite (Qred_eq_inject_Z _ _ Hq).
  destruct (Qcompare (inject_Z z) 0) eqn:Hc.
  - apply Qeq_alt in Hc.
    assert (z = 0%Z) as -> by (unfold Qeq in Hc; cbn in Hc; lia).
    reflexivity.
  - apply Qlt_alt in Hc. change 0 with (inject_Z 0) in Hc. rewrite <- Zlt_Qlt in Hc.
    change (- inject_Z z) with (inject_Z (- z)).
    assert (nearest (inject_Z (- z)) == inject_Z (- z)) as Hn
      by (apply nearest_integer; lia).
    rewrite (Qleb_comp _ _ (Qeq_refl _) _ _ Hn), pow2_1024_above by lia.
    f_equal. apply Qred_eq_inject_Z. rewrite Hn.
    change (- inject_Z (- z)) with (inject_Z (- - z)). rewrite Z.opp_involutive.
    reflexivity.
  - apply Qgt_alt in Hc. change 0 with (inject_Z 0) in Hc. rewrite <- Zlt_Qlt in Hc.
    assert (nearest (inject_Z z) == inject_Z z) as Hn
      by (apply nearest_integer; lia).
    rewrite (Qleb_comp _ _ (Qeq_refl _) _ _ Hn), pow2_1024_above by lia.
    f_equal. apply Qred_eq_inject_Z, Hn.
Qed.

(** A number that is not negative and far from overflow becomes a finite
    binary64 value, at most half a unit in the last place away. *)
Lemma b64_error x :
  0 <= x -> x <= pow2 1023 ->
  exists y, b64 x = Finite y /\ 0 <= y /\
            Qabs (y - x) <= x * pow2 (-53) + pow2 (-1075).
Proof.
  intros H0 Hmax. unfold b64.
  pose proof (Qred_correct x) as Hred. set (q := Qred x) in *.
  pose proof (pow2_pos (-53)) as H53. pose proof (pow2_pos (-1075)) as H1075.
  destruct (Qcompare q 0) eqn:Hc.
  - apply Qeq_alt in Hc. exists 0. split; [reflexivity|]. split; [lra|].
    assert (0 - x == 0) as -> by lra. change (Qabs 0) with 0.
    assert (0 <= x * pow2 (-53)) by (apply Qmult_le_0_compat; lra).
    lra.
  - apply Qlt_alt in Hc. lra.
  - apply Qgt_alt in Hc.
    pose proof (nearest_error q Hc) as Herr.
    pose proof (nearest_nonneg q Hc) as Hnn.
    set (y := nearest q) in *.
    assert (pow2 (-53) <= 1 # 2) as Hh by (apply Qle_bool_iff; vm_compute; reflexivity).
    assert (pow2 (-1075) <= 1) as Hh' by (apply Qle_bool_iff; vm_compute; reflexivity).
    assert (pow2 1024 == 2 * pow2 1023) as H1024
      by (change 1024%Z with (1 + 1023)%Z; rewrite pow2_add; reflexivity).
    assert (4 <= pow2 1023) as Hbig by (apply Qle_bool_iff; vm_compute; reflexivity).
    assert (q * pow2 (-53) <= q * (1 # 2)) as Hq53
      by (rewrite !(Qmult_comm q); apply Qmult_le_compat_r; lra).
    apply Qabs_Qle_condition in Herr as [Hlo Hhi].
    assert (Qle_bool (pow2 1024) y = false) as ->.
    { destruct (Qle_bool _ _) eqn:Hb; [|reflexivity].
      apply Qle_bool_iff in Hb. lra. }
    exists (Qred y). split; [reflexivity|].
    rewrite (Qred_correct y). split; [exact Hnn|].
    assert (q * pow2 (-53) == x * pow2 (-53)) as Hxq by (rewrite Hred; reflexivity).
    apply Qabs_Qle_condition. split; lra.
Qed.

End FloatProofs.

(** ** Fixed notation and sums *)
Module NumberProofs.

Import JS NumberSpec FloatProofs.

Lemma length_append s1 s2 :
  String.length (s1 +:+ s2) = (String.length s1 + String.length s2)%nat.
Proof. induction s1 as [|c s1 IH]; simpl; [reflexivity | f_equal; exact IH]. Qed.

Lemma length_zeros n : String.length (zeros n) = n.
Proof. induction n as [|n IH]; simpl; [reflexivity | f_equal; exact IH]. Qed.

Lemma length_substring s : forall n m,
  (n + m <= String.length s)%nat -> String.length (substring n m s) = m.
Proof.
  induction s as [|c s IH]; intros n m Hle; cbn in Hle.
  - destruct n, m; simpl in *; lia.
  - destruct n as [|n]; simpl.
    + destruct m as [|m]; simpl; [reflexivity|]. f_equal. apply IH. lia.
    + apply IH. lia.
Qed.

Lemma substring_whole s : substring 0 (String.length s) s = s.
Proof. induction s as [|c s IH]; simpl; [reflexivity | f_equal; exact IH]. Qed.

(** A text is its first [n] characters followed by the others. *)
Lemma substring_split s : forall n,
  (n <= String.length s)%nat ->
  substring 0 n s +:+ substring n (String.length s - n) s = s.
Proof.
  induction s as [|c s IH]; intros n Hle; cbn in Hle.
  - destruct n; [reflexivity | lia].
  - destruct n as [|n].
    + rewrite Nat.sub_0_r. change (substring 0 0 (String c s)) with "".
      apply (substring_whole (String c s)).
    + simpl. change (String c (substring 0 n s) +:+ ?t)
        with (String c (substring 0 n s +:+ t)).
      f_equal. apply IH. lia.
Qed.

Lemma digit_pretty_N_char d : (d < 10)%N -> digit (pretty_N_char d) = Some d.
Proof.
  intros Hd.
  assert (d = 0 \/ d = 1 \/ d = 2 \/ d = 3 \/ d = 4 \/ d = 5 \/ d = 6 \/
          d = 7 \/ d = 8 \/ d = 9)%N as H by lia.
  repeat destruct H as [->|H]; try subst d; reflexivity.
Qed.

Lemma read_digits_pretty_N_go x : forall acc s,
  exists k, read_digits acc (pretty_N_go x s) = read_digits (acc * 10 ^ k + x) s.
Proof.
  induction x as [x IH] using (well_founded_induction N.lt_wf_0). intros acc s.
  destruct (N.eq_dec x 0%N) as [->|Hx].
  - exists 0%N. rewrite pretty_N_go_0. f_equal. lia.
  - rewrite pretty_N_go_step by lia.
    destruct (IH (x / 10)%N ltac:(apply N.div_lt; lia) acc
                 (String (pretty_N_char (x mod 10)) s)) as [k ->].
    exists (k + 1)%N. cbn [read_digits].
    rewrite digit_pretty_N_char by (apply N.mod_lt; lia).
    f_equal. rewrite N.pow_add_r.
    pose proof (N.div_mod x 10 ltac:(lia)). lia.
Qed.

Lemma read_digits_pretty n : read_digits 0 (pretty n) = Some n.
Proof.
  unfold pretty, pretty_N. destruct (decide (n = 0%N)) as [->|Hn]; [reflexivity|].
  destruct (read_digits_pretty_N_go n 0%N "") as [k ->]. reflexivity.
Qed.

Lemma read_digits_zeros j s : read_digits 0 (zeros j +:+ s) = read_digits 0 s.
Proof. induction j as [|j IH]; [reflexivity | exact IH]. Qed.

(** Digits before a point: the point splits the text there. *)
Lemma split_point_digits int : forall acc frac n,
  read_digits acc (int +:+ frac) = Some n ->
  split_point (int +:+ "." +:+ frac) = Some (int, frac).
Proof.
  induction int as [|c int IH]; intros acc frac n Hn; [reflexivity|].
  change (String c int +:+ frac) with (String c (int +:+ frac)) in Hn.
  change (String c int +:+ "." +:+ frac) with (String c (int +:+ "." +:+ frac)).
  cbn [read_digits split_point] in *.
  destruct (digit c) as [d|] eqn:Hd; [|discriminate].
  destruct (Ascii.eqb_spec c ".") as [->|_]; [vm_compute in Hd; discriminate|].
  rewrite (IH _ _ _ Hn). reflexivity.
Qed.

(** The fixed notation of [n] with [digits] decimals writes
    [n / 10^digits], with [digits] decimals. *)
Lemma read_fixed_notation digits n :
  digits <> O -> 0 <= n ->
  read_unsigned (fixed_notation digits n) = Some (n, digits) /\
  exists c rest, fixed_notation digits n = String c rest /\ digit c <> None.
Proof.
  intros Hd Hn. unfold fixed_notation.
  destruct digits as [|d]; [contradiction|].
  set (m := pretty (Z.to_N n)).
  set (m' := if (String.length m <=? S d)%nat
             then zeros (S d + 1 - String.length m) +:+ m else m).
  assert (S d < String.length m')%nat as Hlen.
  { unfold m'. destruct (Nat.leb_spec (String.length m) (S d)).
    - rewrite length_append, length_zeros. lia.
    - lia. }
  assert (read_digits 0 m' = Some (Z.to_N n)) as Hm'.
  { unfold m'. destruct (_ <=? _)%nat.
    - rewrite read_digits_zeros. apply read_digits_pretty.
    - apply read_digits_pretty. }
  set (int := substring 0 (String.length m' - S d) m').
  set (frac := substring (String.length m' - S d) (S d) m').
  assert (int +:+ frac = m') as Hsplit.
  { unfold int, frac.
    replace (S d) with (String.length m' - (String.length m' - S d))%nat at 3 by lia.
    apply substring_split. lia. }
  assert (String.length int = (String.length m' - S d)%nat) as Hint
    by (apply length_substring; lia).
  assert (String.length frac = S d) as Hfrac
    by (apply length_substring; lia).
  rewrite <- Hsplit in Hm'.
  destruct int as [|c int']; [cbn in Hint; lia|].
  split.
  - unfold read_unsigned.
    rewrite (split_point_digits _ _ _ _ Hm'), Hm', Hfrac, Z2N.id by exact Hn.
    reflexivity.
  - exists c, (int' +:+ "." +:+ frac). split; [reflexivity|].
    change (String c int' +:+ frac) with (String c (int' +:+ frac)) in Hm'.
    cbn [read_digits] in Hm'. destruct (digit c); [discriminate|].
    discriminate.
Qed.

Lemma nearest_scaled_nonneg digits q : 0 <= nearest_scaled digits q.
Proof.
  unfold nearest_scaled. apply Z.div_pos; [|lia].
  assert (0 <= 10 ^ Z.of_nat digits) by (apply Z.pow_nonneg; lia). nia.
Qed.

(** [toFixed] of a finite number below [10^21] writes, with [digits]
    decimals, the multiple of [10^-digits] nearest to the number. *)
Lemma toFixed_reads digits q :
  digits <> O ->
  Z.abs (Qnum q) < 10 ^ 21 * Z.pos (Qden q) ->
  exists s, toFixed digits (Finite q) = Some s /\
            read_fixed s =
              Some ((if Qnum q <? 0 then -1 else 1) * nearest_scaled digits q, digits).
Proof.
  intros Hd Hlt. unfold toFixed.
  destruct (Z.leb_spec (10 ^ 21 * Z.pos (Qden q)) (Z.abs (Qnum q))); [lia|].
  eexists. split; [reflexivity|].
  destruct (read_fixed_notation digits (nearest_scaled digits q) Hd
              (nearest_scaled_nonneg digits q)) as (Hread & c & rest & Hs & Hc).
  destruct (Qnum q <? 0).
  - change ("-" +:+ ?t) with (String "-" t). cbn [read_fixed].
    change (Ascii.eqb "-" "-") with true. cbn iota.
    rewrite Hread, (Z.mul_comm (-1)), <- Z.opp_eq_mul_m1. reflexivity.
  - change ("" +:+ ?t) with t. unfold read_fixed. rewrite Hs.
    destruct (Ascii.eqb_spec c "-") as [->|_]; [exfalso; apply Hc; reflexivity|].
    rewrite <- Hs, Hread, Z.mul_1_l. reflexivity.
Qed.

Lemma whole_spec a :
  whole a = true -> exists z, (0 <= z)%Z /\ (a == inject_Z z)%Q.
Proof.
  unfold whole. intros H. apply andb_true_iff in H as [Hw H0].
  apply Qeq_bool_eq in Hw. apply Qle_bool_iff in H0.
  exists (Qfloor a). split; [|exact Hw].
  change 0%Z with (Qfloor 0). apply Qfloor_resp_le, H0.
Qed.

Lemma exact_sum_whole amounts :
  forallb whole amounts = true ->
  exists t, (0 <= t)%Z /\ (exact_sum amounts == inject_Z t)%Q.
Proof.
  induction amounts as [|a amounts IH]; cbn [forallb exact_sum fold_right].
  - intros _. exists 0%Z. split; [lia | reflexivity].
  - intros H. apply andb_true_iff in H as [Ha H].
    destruct (whole_spec a Ha) as (z & Hz & Hza).
    destruct (IH H) as (t & Ht & Hta). exists (z + t)%Z. split; [lia|].
    fold (exact_sum amounts). rewrite Hza, Hta, inject_Z_plus. reflexivity.
Qed.

(** Adding whole amounts stays exact as long as the sum is at most
    [2^53]: with or without [|| 0] on the sum so far. *)
Lemma add_whole (guard : bool) q a s z :
  (q == inject_Z s)%Q -> (a == inject_Z z)%Q ->
  (0 <= s)%Z -> (0 <= z)%Z -> (s + z <= 2 ^ 53)%Z ->
  add (if guard then or_zero (Some (Finite q)) else Finite q) (b64 a) =
  Finite (inject_Z (s + z)).
Proof.
  intros Hq Ha Hs Hz Hle.
  rewrite (b64_integer a z Ha) by lia.
  assert (exists q', (if guard then or_zero (Some (Finite q)) else Finite q) = Finite q' /\
                     (q' == inject_Z s)%Q) as (q' & -> & Hq').
  { destruct guard; [|exists q; split; [reflexivity | exact Hq]].
    cbn [or_zero]. destruct (Qeq_bool q 0) eqn:H0.
    - exists 0%Q. split; [reflexivity|].
      apply Qeq_bool_eq in H0. rewrite <- Hq, H0. reflexivity.
    - exists q. split; [reflexivity | exact Hq]. }
  cbn [add]. apply b64_integer; [|lia].
  rewrite Hq', inject_Z_plus. reflexivity.
Qed.

Lemma sum_whole (guard : bool) amounts : forall q s,
  (q == inject_Z s)%Q -> (0 <= s)%Z ->
  forallb whole amounts = true ->
  (inject_Z s + exact_sum amounts <= MAX_EXACT)%Q ->
  has_value
    (fold_left (fun sum a =>
                  add (if guard then or_zero (Some sum) else sum) (b64 a))
               amounts (Finite q))
    (inject_Z s + exact_sum amounts) = true.
Proof.
  induction amounts as [|a amounts IH]; intros q s Hq Hs Hw Hle;
    cbn [fold_left forallb exact_sum fold_right] in *.
  - cbn [has_value]. apply Qeq_bool_iff. rewrite Hq. ring.
  - fold (exact_sum amounts) in *.
    apply andb_true_iff in Hw as [Ha Hw].
    destruct (whole_spec a Ha) as (z & Hz & Hza).
    destruct (exact_sum_whole amounts Hw) as (t & Ht & Hta).
    assert (s + z + t <= 2 ^ 53)%Z as Hb.
    { unfold MAX_EXACT in Hle. rewrite Hza, Hta, <- !inject_Z_plus in Hle.
      rewrite <- Zle_Qle in Hle. lia. }
    rewrite (add_whole guard q a s z Hq Hza Hs Hz) by lia.
    assert (inject_Z s + (a + exact_sum amounts) ==
            inject_Z (s + z) + exact_sum amounts)%Q as Heq
      by (rewrite Hza, inject_Z_plus; ring).
    assert (has_value
              (fold_left (fun sum a0 =>
                            add (if guard then or_zero (Some sum) else sum) (b64 a0))
                         amounts (Finite (inject_Z (s + z))))
              (inject_Z (s + z) + exact_sum amounts) = true) as IH'.
    { apply IH; [reflexivity | lia | exact Hw |].
      rewrite <- Heq. exact Hle. }
    destruct (fold_left _ amounts _); cbn [has_value] in *; try discriminate.
    apply Qeq_bool_iff. apply Qeq_bool_iff in IH'. rewrite IH', Heq. reflexivity.
Qed.

End NumberProofs.

(** ** Identity resolution *)

Module IdentityProofs.

Import JS PolkadotV0 IdentitySpec.

Lemma set_to_truthy field s :
  set_to field s -> truthy field = true /\ not_empty field = true /\ interpolate field = s.
Proof.
  intros [-> Hs]. cbn.
  destruct (String.eqb_spec s ""); [contradiction | auto].
Qed.

Lemma unset_falsy field : unset field -> truthy field = false.
Proof.
  intros Hu. destruct field as [s|]; [|reflexivity]. cbn.
  destruct (String.eqb_spec s ""); [reflexivity|].
  exfalso. apply (Hu s). split; [reflexivity | assumption].
Qed.

(** C7: [identityReducer] answers [displayParent/display] when both are set
    and non-empty; otherwise [display] when that is set and non-empty;
    otherwise the address.  So [{displayParent: "Foo", display: "Bar"}]
    gives ["Foo/Bar"], and [{display: ""}] with address ["addr1"] gives
    ["addr1"]. *)
Theorem identityReducer_fallback_chain (address : string) (identity : Identity) :
  (forall parent d,
      set_to (displayParent identity) parent -> set_to (display identity) d ->
      identityReducer address identity = parent +:+ "/" +:+ d) /\
  (forall d,
      unset (displayParent identity) -> set_to (display identity) d ->
      identityReducer address identity = d) /\
  (unset (display identity) -> identityReducer address identity = address) /\
  identityReducer address {| displayParent := Some "Foo"; display := Some "Bar" |}
    = "Foo/Bar" /\
  identityReducer "addr1" {| displayParent := None; display := Some "" |} = "addr1".
Proof.
  unfold identityReducer. repeat split.
  - intros parent d Hp Hd.
    destruct (set_to_truthy _ _ Hp) as (-> & -> & ->).
    destruct (set_to_truthy _ _ Hd) as (-> & -> & ->). reflexivity.
  - intros d Hp Hd.
    rewrite (unset_falsy _ Hp).
    destruct (set_to_truthy _ _ Hd) as (-> & -> & ->). reflexivity.
  - intros Hd. rewrite (unset_falsy _ Hd).
    rewrite !andb_false_r. reflexivity.
Qed.

Lemma identityReducer_fallback_chain_witness :
  identityReducer "addr1" {| displayParent := Some "Foo"; display := Some "Bar" |}
    = "Foo/Bar" /\
  identityReducer "addr1" {| displayParent := Some ""; display := Some "Bar" |}
    = "Bar" /\
  identityReducer "addr1" {| displayParent := Some "Foo"; display := None |}
    = "addr1".
Proof.
  split; [|split].
  - apply (proj1 (identityReducer_fallback_chain "addr1"
                    {| displayParent := Some "Foo"; display := Some "Bar" |})
             "Foo" "Bar");
      split; cbn; [reflexivity | discriminate | reflexivity | discriminate].
  - apply (proj1 (proj2 (identityReducer_fallback_chain "addr1"
                    {| displayParent := Some ""; display := Some "Bar" |}))
             "Bar").
    + intros s [H1 H2]. cbn in H1. injection H1 as <-. apply H2. reflexivity.
    + split; cbn; [reflexivity | discriminate].
  - apply (proj1 (proj2 (proj2 (identityReducer_fallback_chain "addr1"
                    {| displayParent := Some "Foo"; display := None |})))).
    intros s [H1 H2]. cbn in H1. discriminate H1.
Defined.


End IdentityProofs.

(** ** Staking aggregation *)

Module StakingProofs.

Import JS PolkadotV0 NumberSpec StakingSpec NumberProofs.

Lemma bond_not_bondExtra m :
  is_call "staking" "bond" m = true -> is_call "staking" "bondExtra" m = false.
Proof.
  unfold is_call. intros H. apply andb_true_iff in H as [_ H].
  apply String.eqb_eq in H. rewrite H. apply andb_false_r.
Qed.

(** One round of the [forEach], field by field. *)
Lemma forEach_body_fields s m :
  let s' := forEach_body s m in
  reducedMessages s' = reducedMessages s ++ [preserved m] /\
  hasBond s' = hasBond s || is_bond m /\
  hasNominate s' = hasNominate s || is_nominate m /\
  amount (aggregatedLunieStaking s') =
    (if is_bond m then add (amount (aggregatedLunieStaking s)) (b64 (bond_amount m))
     else amount (aggregatedLunieStaking s)) /\
  validators (aggregatedLunieStaking s') =
    validators (aggregatedLunieStaking s) ++
    (if is_nominate m then targets (args m) else []) /\
  staking_method (aggregatedLunieStaking s') = staking_method (aggregatedLunieStaking s) /\
  staking_section (aggregatedLunieStaking s') = staking_section (aggregatedLunieStaking s).
Proof.
  unfold forEach_body, is_bond, bond_amount, is_nominate.
  destruct (is_call "staking" "bond" m) eqn:Hb.
  - rewrite (bond_not_bondExtra m Hb).
    destruct (is_call "staking" "nominate" m); cbn;
      rewrite ?orb_true_r, ?orb_false_r, ?app_nil_r; repeat split; reflexivity.
  - destruct (is_call "staking" "bondExtra" m), (is_call "staking" "nominate" m); cbn;
      rewrite ?orb_true_r, ?orb_false_r, ?app_nil_r;
      repeat split; reflexivity.
Qed.

(** The whole [forEach], from any state of its variables. *)
Lemma forEach_fields messages : forall s,
  let s' := fold_left forEach_body messages s in
  reducedMessages s' = reducedMessages s ++ map preserved messages /\
  hasBond s' = hasBond s || existsb is_bond messages /\
  hasNominate s' = hasNominate s || existsb is_nominate messages /\
  amount (aggregatedLunieStaking s') =
    fold_left (fun sum a => add sum (b64 a)) (bond_amounts messages)
              (amount (aggregatedLunieStaking s)) /\
  validators (aggregatedLunieStaking s') =
    validators (aggregatedLunieStaking s) ++ nominated messages /\
  staking_method (aggregatedLunieStaking s') = staking_method (aggregatedLunieStaking s) /\
  staking_section (aggregatedLunieStaking s') = staking_section (aggregatedLunieStaking s).
Proof.
  induction messages as [|m messages IH]; intros s; cbn -[forEach_body].
  - unfold nominated. cbn.
    rewrite !app_nil_r, !orb_false_r. repeat split; reflexivity.
  - destruct (IH (forEach_body s m)) as (R & B & N & A & V & M & S).
    destruct (forEach_body_fields s m) as (R1 & B1 & N1 & A1 & V1 & M1 & S1).
    cbn zeta in *.
    rewrite R, B, N, A, V, M, S, R1, B1, N1, A1, V1, M1, S1.
    unfold bond_amounts, nominated. cbn [List.filter map].
    rewrite <- !app_assoc, !orb_assoc.
    repeat split; try reflexivity.
    + destruct (is_bond m); reflexivity.
    + destruct (is_nominate m); cbn [map concat]; rewrite <- ?app_assoc; reflexivity.
Qed.

Lemma existsb_elem {A} (f : A -> bool) (l : list A) :
  existsb f l = true <-> exists x, x ∈ l /\ f x = true.
Proof.
  rewrite existsb_exists. split; intros (x & Hx & Hf); exists x;
    (split; [apply list_elem_of_In; exact Hx | exact Hf]).
Qed.

Lemma elem_of_nominated v messages :
  v ∈ nominated messages <->
  exists m, m ∈ messages /\ is_nominate m = true /\ v ∈ targets (args m).
Proof.
  unfold nominated. rewrite list_elem_of_In, in_concat. split.
  - intros (l & Hl & Hv). apply in_map_iff in Hl as (m & <- & Hm).
    apply filter_In in Hm as [Hm Hn]. exists m.
    rewrite !list_elem_of_In. auto.
  - intros (m & Hm & Hn & Hv). apply list_elem_of_In in Hm, Hv.
    exists (targets (args m)). split; [|exact Hv].
    apply in_map_iff. exists m. split; [reflexivity|].
    apply filter_In. auto.
Qed.

(** C1, as the claim states the amount: a bond of [2^53] and a bond-extra
    of [1], with a nominate, give an aggregated record whose amount is
    [2^53], while the sum of the two amounts is [2^53 + 1]. *)
Lemma aggregateLunieStaking_amount_is_rounded :
  let messages := [bond_of (inject_Z (2 ^ 53)); bondExtra_of 1; nominate_V1_V2] in
  staked_amounts (aggregateLunieStaking messages) = [num (2 ^ 53)] /\
  exact_sum (bond_amounts messages) = inject_Z (2 ^ 53 + 1) /\
  has_value (num (2 ^ 53)) (exact_sum (bond_amounts messages)) = false.
Proof. vm_compute. repeat split; reflexivity. Qed.

(** C1: the list returned is the input primitives, each preserved and in
    order, followed by one aggregated staking record exactly when the input
    has a bond or bond-extra primitive and a nominate primitive.  The
    record's amount is the amounts of the bond and bond-extra primitives
    added from 0 in the order of the input, each sum rounded to binary64:
    the sum of the amounts when they are whole and it is at most [2^53].
    Its validators are the target lists of the nominate primitives, one
    after the other, so a validator is listed if and only if some nominate
    primitive targets it.  One bond of 100 and one nominate of [V1, V2]
    give the two primitives and the record
    [{amount: 100, validators: [V1, V2]}]; a bond alone gives no record. *)
Theorem aggregateLunieStaking_appends_one_stake_record (messages : list Call) :
  aggregateLunieStaking messages =
    map preserved messages ++
    (if existsb is_bond messages && existsb is_nominate messages
     then [Staking (stake_record messages)] else []) /\
  (existsb is_bond messages && existsb is_nominate messages = true <->
   (exists m, m ∈ messages /\ is_bond m = true) /\
   (exists m, m ∈ messages /\ is_nominate m = true)) /\
  (forallb whole (bond_amounts messages) = true ->
   (exact_sum (bond_amounts messages) <= MAX_EXACT)%Q ->
   has_value (amount (stake_record messages))
             (exact_sum (bond_amounts messages)) = true) /\
  (forall v, v ∈ validators (stake_record messages) <->
             exists m, m ∈ messages /\ is_nominate m = true /\ v ∈ targets (args m)) /\
  aggregateLunieStaking [bond_100; nominate_V1_V2] =
    [preserved bond_100; preserved nominate_V1_V2;
     Staking {| staking_method := "staking"; staking_section := "lunie";
                validators := ["V1"; "V2"]; amount := num 100 |}] /\
  aggregateLunieStaking [bond_100] = [preserved bond_100].
Proof.
  split; [|split; [|split; [|split; [|split]]]].
  - unfold aggregateLunieStaking.
    match goal with |- context [fold_left forEach_body messages ?i] =>
      destruct (forEach_fields messages i) as (R & B & N & A & V & M & S);
      remember (fold_left forEach_body messages i) as s' eqn:Hs' end.
    clear Hs'. cbn in R, B, N, A, V, M, S.
    rewrite R, B, N.
    destruct (existsb is_bond messages && existsb is_nominate messages);
      [|symmetry; apply app_nil_r].
    assert (aggregatedLunieStaking s' = stake_record messages) as ->; [|reflexivity].
    unfold stake_record, bonded.
    destruct (aggregatedLunieStaking s') as [m s v a]. cbn in *.
    subst. reflexivity.
  - rewrite andb_true_iff, !existsb_elem. reflexivity.
  - intros Hw Hle. cbn [stake_record amount]. unfold bonded, num.
    assert (inject_Z 0 + exact_sum (bond_amounts messages) ==
            exact_sum (bond_amounts messages))%Q as Heq by ring.
    assert (inject_Z 0 + exact_sum (bond_amounts messages) <= MAX_EXACT)%Q as Hle'
      by (rewrite Heq; exact Hle).
    pose proof (sum_whole false (bond_amounts messages) (inject_Z 0) 0
                  ltac:(reflexivity) ltac:(lia) Hw Hle') as H.
    cbn iota in H.
    destruct (fold_left _ _ _); cbn [has_value] in *; try discriminate.
    apply Qeq_bool_iff. apply Qeq_bool_iff in H. rewrite H. exact Heq.
  - intros v. apply elem_of_nominated.
  - vm_compute. reflexivity.
  - vm_compute. reflexivity.
Qed.

Lemma aggregateLunieStaking_appends_one_stake_record_witness :
  has_value (amount (stake_record [bond_100; bondExtra_of 5; nominate_V1_V2]))
            (exact_sum (bond_amounts [bond_100; bondExtra_of 5; nominate_V1_V2])) = true /\
  amount (stake_record [bond_100; bondExtra_of 5; nominate_V1_V2]) = num 105.
Proof.
  split; [|reflexivity].
  destruct (aggregateLunieStaking_appends_one_stake_record
              [bond_100; bondExtra_of 5; nominate_V1_V2]) as (_ & _ & Hexact & _).
  apply Hexact.
  - reflexivity.
  - apply Qle_bool_iff. reflexivity.
Defined.

End StakingProofs.

(** ** Reward aggregation *)

Module RewardsProofs.

Import JS PolkadotV0 NumberSpec RewardsSpec NumberProofs.

(** *** Objects as dictionaries *)

Section ObjFacts.

Context {V : Type}.
Implicit Types (o : Obj V) (k : string) (v : V).

Lemma obj_get_None o k : obj_get o k = None <-> ~ In k (keys o).
Proof.
  induction o as [|[k' v'] o IH]; cbn.
  - tauto.
  - destruct (String.eqb_spec k' k); [|rewrite IH]; intuition congruence.
Qed.

Lemma obj_get_In o k v : obj_get o k = Some v -> In (k, v) o.
Proof.
  induction o as [|[k' v'] o IH]; cbn; [discriminate|].
  destruct (String.eqb_spec k' k).
  - intros [= ->]. left. congruence.
  - intros H. right. auto.
Qed.

Lemma In_obj_get o k v : List.NoDup (keys o) -> In (k, v) o -> obj_get o k = Some v.
Proof.
  induction o as [|[k' v'] o IH]; cbn; [contradiction|].
  intros Hnd. apply NoDup_cons_iff in Hnd as [Hk Hnd].
  intros [[= -> ->]|Hin].
  - rewrite String.eqb_refl. reflexivity.
  - destruct (String.eqb_spec k' k) as [->|]; [|auto].
    exfalso. apply Hk. change k with (fst (k, v)). apply in_map. exact Hin.
Qed.

(** What assignment does to the list of properties: a property that
    exists keeps its place and takes the value; a new one is put in. *)
Lemma obj_replace_spec o k v v0 :
  obj_get o k = Some v0 ->
  exists o1 o2, o = o1 ++ (k, v0) :: o2 /\ ~ In k (keys o1) /\
                obj_replace o k v = o1 ++ (k, v) :: o2.
Proof.
  induction o as [|[k' v'] o IH]; cbn; [discriminate|].
  destruct (String.eqb_spec k' k) as [->|Hne].
  - intros [= ->]. exists [], o. repeat split. intros [].
  - intros Hget. destruct (IH Hget) as (o1 & o2 & -> & Hk & ->).
    exists ((k', v') :: o1), o2. repeat split. cbn. intros [?|?]; [congruence | auto].
Qed.

Lemma obj_insert_index_spec o i k v :
  exists o1 o2, o = o1 ++ o2 /\ obj_insert_index o i k v = o1 ++ (k, v) :: o2.
Proof.
  induction o as [|[k' v'] o IH]; cbn.
  - exists [], []. split; reflexivity.
  - destruct (array_index k') as [j|].
    + destruct (i <? j)%N.
      * exists [], ((k', v') :: o). split; reflexivity.
      * destruct IH as (o1 & o2 & -> & ->).
        exists ((k', v') :: o1), o2. split; reflexivity.
    + exists [], ((k', v') :: o). split; reflexivity.
Qed.

Lemma obj_set_spec o k v :
  exists o1 o2,
    obj_set o k v = o1 ++ (k, v) :: o2 /\ ~ In k (keys o1) /\
    match obj_get o k with
    | Some v0 => o = o1 ++ (k, v0) :: o2
    | None => o = o1 ++ o2
    end.
Proof.
  unfold obj_set. destruct (obj_get o k) as [v0|] eqn:Hget.
  - destruct (obj_replace_spec o k v v0 Hget) as (o1 & o2 & -> & Hk & ->).
    exists o1, o2. auto.
  - apply obj_get_None in Hget.
    assert (exists o1 o2,
               o = o1 ++ o2 /\
               match array_index k with
               | Some i => obj_insert_index o i k v
               | None => o ++ [(k, v)]
               end = o1 ++ (k, v) :: o2) as (o1 & o2 & -> & ->).
    { destruct (array_index k) as [i|]; [apply obj_insert_index_spec|].
      exists o, []. split; [symmetry; apply app_nil_r | reflexivity]. }
    exists o1, o2. repeat split.
    intros Hin. apply Hget. unfold keys. rewrite map_app. apply in_or_app. auto.
Qed.

Lemma obj_get_middle o1 o2 k v k' :
  ~ In k (keys o1) ->
  obj_get (o1 ++ (k, v) :: o2) k' =
  if String.eqb k k' then Some v else obj_get (o1 ++ o2) k'.
Proof.
  intros Hk. induction o1 as [|[k1 v1] o1 IH]; cbn.
  - reflexivity.
  - cbn in Hk. destruct (String.eqb_spec k1 k') as [->|Hne].
    + destruct (String.eqb_spec k k') as [->|]; [tauto | reflexivity].
    + apply IH. tauto.
Qed.

Lemma obj_get_set o k v k' :
  obj_get (obj_set o k v) k' = if String.eqb k k' then Some v else obj_get o k'.
Proof.
  destruct (obj_set_spec o k v) as (o1 & o2 & -> & Hk & Ho).
  rewrite (obj_get_middle _ _ _ _ _ Hk).
  destruct (String.eqb_spec k k') as [->|Hne]; [reflexivity|].
  destruct (obj_get o k) as [v0|]; subst o; [|reflexivity].
  rewrite (obj_get_middle _ _ _ _ _ Hk).
  destruct (String.eqb_spec k k'); [contradiction | reflexivity].
Qed.

Lemma obj_get_set_eq o k v : obj_get (obj_set o k v) k = Some v.
Proof. rewrite obj_get_set, String.eqb_refl. reflexivity. Qed.

Lemma obj_get_set_ne o k k' v : k <> k' -> obj_get (obj_set o k v) k' = obj_get o k'.
Proof.
  intros Hne. rewrite obj_get_set.
  destruct (String.eqb_spec k k'); [contradiction | reflexivity].
Qed.

Lemma NoDup_keys_obj_set o k v :
  List.NoDup (keys o) -> List.NoDup (keys (obj_set o k v)).
Proof.
  intros Hnd. destruct (obj_set_spec o k v) as (o1 & o2 & -> & Hk & Ho).
  unfold keys in *. rewrite map_app in *. cbn [map fst] in *.
  destruct (obj_get o k) as [v0|] eqn:Hget; subst o.
  - rewrite map_app in Hnd. exact Hnd.
  - rewrite map_app in Hnd. apply obj_get_None in Hget.
    unfold keys in Hget. rewrite map_app in Hget.
    apply NoDup_Add with (a := k) (l := map fst o1 ++ map fst o2).
    + apply Add_app.
    + split; [exact Hnd | exact Hget].
Qed.

Lemma Forall_obj_set (P : string * V -> Prop) o k v :
  Forall P o -> P (k, v) -> Forall P (obj_set o k v).
Proof.
  intros Ho Hk. destruct (obj_set_spec o k v) as (o1 & o2 & -> & _ & Heq).
  assert (Forall P o1 /\ Forall P o2) as [H1 H2].
  { destruct (obj_get o k); subst o; apply Forall_app in Ho as [H1 H2];
      [inversion H2|]; auto. }
  apply Forall_app. split; [exact H1 | constructor; assumption].
Qed.

End ObjFacts.

(** *** The aggregate, by validator and denomination *)

Lemma lookup2_sum_reward sum reward validator denom :
  lookup2 (sum_reward sum reward) validator denom =
  if concerns validator denom reward
  then Some (add (or_zero (lookup2 sum validator denom)) (b64 (reward_amount reward)))
  else lookup2 sum validator denom.
Proof.
  unfold sum_reward, lookup2, concerns.
  rewrite obj_get_set_eq. cbn [default].
  destruct (String.eqb_spec (reward_validator reward) validator) as [<-|Hv]; cbn [andb].
  - rewrite obj_get_set_eq.
    destruct (String.eqb_spec (reward_denom reward) denom) as [<-|Hd].
    + rewrite obj_get_set_eq.
      destruct (obj_get sum (reward_validator reward)); reflexivity.
    + rewrite obj_get_set_ne by exact Hd.
      destruct (obj_get sum (reward_validator reward)); reflexivity.
  - rewrite !obj_get_set_ne by exact Hv. reflexivity.
Qed.

Lemma well_formed_sum_reward sum reward :
  well_formed sum -> well_formed (sum_reward sum reward).
Proof.
  intros [Hk Hin]. unfold sum_reward. rewrite obj_get_set_eq. cbn [default].
  assert (List.NoDup (keys (default [] (obj_get sum (reward_validator reward))))) as Hd.
  { destruct (obj_get sum (reward_validator reward)) as [o|] eqn:Hget; cbn.
    - apply obj_get_In in Hget. rewrite List.Forall_forall in Hin.
      apply (Hin _ Hget).
    - constructor. }
  split.
  - do 2 apply NoDup_keys_obj_set. exact Hk.
  - apply Forall_obj_set; [apply Forall_obj_set; assumption|].
    cbn. apply NoDup_keys_obj_set. exact Hd.
Qed.

Lemma well_formed_aggregate dbRewards : forall sum,
  well_formed sum -> well_formed (fold_left sum_reward dbRewards sum).
Proof.
  induction dbRewards as [|reward dbRewards IH]; intros sum Hwf; cbn; [exact Hwf|].
  apply IH, well_formed_sum_reward, Hwf.
Qed.

Lemma filter_none {A} (f : A -> bool) (l : list A) :
  existsb f l = false -> List.filter f l = [].
Proof.
  induction l as [|x l IH]; cbn; [reflexivity|].
  destruct (f x); cbn; [discriminate | exact IH].
Qed.

(** The aggregate after the whole [reduce], from any aggregate. *)
Lemma lookup2_fold dbRewards validator denom : forall sum,
  lookup2 (fold_left sum_reward dbRewards sum) validator denom =
  fold_left (fun acc a => Some (add (or_zero acc) (b64 a)))
            (amounts_of validator denom dbRewards) (lookup2 sum validator denom).
Proof.
  unfold amounts_of.
  induction dbRewards as [|reward dbRewards IH]; intros sum;
    cbn [fold_left List.filter]; [reflexivity|].
  rewrite IH, lookup2_sum_reward.
  destruct (concerns validator denom reward); reflexivity.
Qed.

Lemma fold_left_Some amounts : forall x,
  fold_left (fun acc a => Some (add (or_zero acc) (b64 a))) amounts (Some x) =
  Some (fold_left (fun sum a => add (or_zero (Some sum)) (b64 a)) amounts x).
Proof.
  induction amounts as [|a amounts IH]; intros x; cbn [fold_left]; [reflexivity|].
  apply IH.
Qed.

(** The aggregate of the whole list, from the empty object. *)
Lemma lookup2_aggregate dbRewards validator denom :
  lookup2 (fold_left sum_reward dbRewards []) validator denom =
  if existsb (concerns validator denom) dbRewards
  then Some (summed validator denom dbRewards) else None.
Proof.
  rewrite lookup2_fold. unfold summed, amounts_of.
  destruct (existsb (concerns validator denom) dbRewards) eqn:Hex.
  - destruct (List.filter (concerns validator denom) dbRewards) as [|r l] eqn:Hf.
    + apply existsb_exists in Hex as (r & Hin & Hc).
      assert (In r (List.filter (concerns validator denom) dbRewards)) as H
        by (apply filter_In; auto).
      rewrite Hf in H. destruct H.
    + cbn [map fold_left lookup2 obj_get]. apply fold_left_Some.
  - rewrite (filter_none _ _ Hex). reflexivity.
Qed.

(** *** The flattened aggregate *)

Lemma fold_flatten_reward sum : forall acc,
  fold_left flatten_reward sum acc = acc ++ map render (entries2 sum).
Proof.
  induction sum as [|[validator reward] sum IH]; intros acc; cbn.
  - symmetry. apply app_nil_r.
  - rewrite IH, map_app, map_map, <- app_assoc. do 2 f_equal.
    apply map_ext. intros [d a]. reflexivity.
Qed.

Lemma In_entries2 sum validator denom a :
  well_formed sum ->
  In (validator, denom, a) (entries2 sum) <-> lookup2 sum validator denom = Some a.
Proof.
  intros [Hk Hin]. unfold entries2, lookup2. rewrite in_flat_map. split.
  - intros ([v o] & Hvo & Hda). cbn in Hda.
    apply in_map_iff in Hda as ([d a'] & [= <- <- <-] & Hda).
    rewrite (In_obj_get _ _ _ Hk Hvo).
    rewrite List.Forall_forall in Hin.
    apply In_obj_get; [apply (Hin _ Hvo) | exact Hda].
  - destruct (obj_get sum validator) as [o|] eqn:Hget; [|discriminate].
    intros Hda. exists (validator, o). split; [apply obj_get_In, Hget|].
    cbn. apply in_map_iff. exists (denom, a). split; [reflexivity|].
    apply obj_get_In, Hda.
Qed.

Lemma NoDup_entries2 sum :
  well_formed sum -> List.NoDup (map fst (entries2 sum)).
Proof.
  intros [Hk Hin]. induction sum as [|[v o] sum IH]; cbn; [constructor|].
  cbn in Hk. apply NoDup_cons_iff in Hk as [Hv Hk].
  apply List.Forall_cons_iff in Hin as [Ho Hin]. cbn in Ho.
  rewrite map_app, map_map. cbn.
  apply List.NoDup_app.
  - clear -Ho. induction o as [|[d a] o IHo]; cbn; [constructor|].
    cbn in Ho. apply NoDup_cons_iff in Ho as [Hd Ho].
    constructor; [|auto].
    intros Hin. apply in_map_iff in Hin as ([d' a'] & [= ->] & Hin).
    apply Hd. change d with (fst (d, a')). apply in_map, Hin.
  - apply IH; assumption.
  - intros [v' d'] H1 H2.
    apply in_map_iff in H1 as ([d a] & [= <- <-] & _).
    apply in_map_iff in H2 as ([[v'' d''] a'] & [= -> ->] & H2).
    apply in_flat_map in H2 as ([v2 o2] & Hvo & H2). cbn in H2.
    apply in_map_iff in H2 as (? & [= <- _ _] & _).
    apply Hv. change v2 with (fst (v2, o2)). apply in_map, Hvo.
Qed.

(** The list returned is the aggregate, property by property. *)
Lemma dbRewardsReducer_entries validatorsDictionary dbRewards :
  dbRewardsReducer validatorsDictionary dbRewards =
  map (record_of validatorsDictionary dbRewards)
      (map fst (entries2 (fold_left sum_reward dbRewards []))).
Proof.
  set (aggregatedRewards := fold_left sum_reward dbRewards []).
  assert (well_formed aggregatedRewards) as Hwf.
  { apply well_formed_aggregate. split; constructor. }
  unfold dbRewardsReducer. fold aggregatedRewards.
  rewrite fold_flatten_reward, app_nil_l, !map_map.
  apply map_ext_in. intros [[v d] a] Hin.
  apply In_entries2 in Hin; [|exact Hwf].
  unfold aggregatedRewards in Hin. rewrite lookup2_aggregate in Hin.
  destruct (existsb _ _); [|discriminate].
  injection Hin as <-. reflexivity.
Qed.

(** C5, as the claim states the amount: the entries (V1, uatom, [2^53])
    and (V1, uatom, 1) give one record, of amount
    ['9007199254740992.000000'], while the sum of the two amounts is
    [2^53 + 1]; and one entry of amount [10^21] gives a record whose
    amount is not written with 6 decimals (ECMAScript writes ['1e+21']). *)
Lemma dbRewardsReducer_amount_is_rounded :
  rendered (dbRewardsReducer ∅ [reward_row "V1" "uatom" (inject_Z (2 ^ 53));
                                reward_row "V1" "uatom" 1]) =
    [Some "9007199254740992.000000"] /\
  exact_sum (amounts_of "V1" "uatom" [reward_row "V1" "uatom" (inject_Z (2 ^ 53));
                                      reward_row "V1" "uatom" 1]) =
    inject_Z (2 ^ 53 + 1) /\
  rendered (dbRewardsReducer ∅ [reward_row "V1" "uatom" (inject_Z (10 ^ 21))]) = [None].
Proof. vm_compute. repeat split; reflexivity. Qed.

(** C5: the list returned has exactly one record for each distinct
    (validator, denom) pair of the input; its validator is the
    dictionary's entry for the pair's validator and its amount is
    [toFixed(6)] of the amounts of all the entries of that pair, added
    from 0 in the order of the input, each sum rounded to binary64.  A
    sum of magnitude below [10^21] is written with exactly 6 decimals,
    those of the multiple of [10^-6] nearest to it; and the sum is that
    of the amounts when they are whole and it is at most [2^53].  The
    entries (V1, uatom, 10), (V1, uatom, 5), (V2, uatom, 3) give
    (V1, uatom, 15.000000), (V2, uatom, 3.000000). *)
Theorem dbRewardsReducer_one_record_per_pair
    (validatorsDictionary : gmap string Validator) (dbRewards : list DbReward) :
  (exists pairs : list (string * string),
      List.NoDup pairs /\
      (forall validator denom,
          In (validator, denom) pairs <->
          exists reward, In reward dbRewards /\
                         reward_validator reward = validator /\
                         reward_denom reward = denom) /\
      dbRewardsReducer validatorsDictionary dbRewards =
        map (record_of validatorsDictionary dbRewards) pairs) /\
  (forall validator denom q,
      summed validator denom dbRewards = Finite q ->
      Z.abs (Qnum q) < 10 ^ 21 * Z.pos (Qden q) ->
      exists s,
        rendered_amount (record_of validatorsDictionary dbRewards (validator, denom)) =
          Some s /\
        read_fixed s =
          Some ((if Qnum q <? 0 then -1 else 1) * nearest_scaled 6 q, 6%nat)) /\
  (forall validator denom,
      forallb whole (amounts_of validator denom dbRewards) = true ->
      (exact_sum (amounts_of validator denom dbRewards) <= MAX_EXACT)%Q ->
      has_value (summed validator denom dbRewards)
                (exact_sum (amounts_of validator denom dbRewards)) = true) /\
  dbRewardsReducer validatorsDictionary
    [reward_row "V1" "uatom" 10; reward_row "V1" "uatom" 5; reward_row "V2" "uatom" 3] =
    [ {| validator := validatorsDictionary !! "V1"; denom := "uatom";
         rendered_amount := Some "15.000000" |};
      {| validator := validatorsDictionary !! "V2"; denom := "uatom";
         rendered_amount := Some "3.000000" |} ].
Proof.
  split; [|split; [|split]].
  - set (aggregatedRewards := fold_left sum_reward dbRewards []).
    assert (well_formed aggregatedRewards) as Hwf.
    { apply well_formed_aggregate. split; constructor. }
    exists (map fst (entries2 aggregatedRewards)). split; [|split].
    + apply NoDup_entries2, Hwf.
    + intros validator denom. rewrite in_map_iff. split.
      * intros ([[v d] a] & [= -> ->] & Hin).
        apply In_entries2 in Hin; [|exact Hwf].
        unfold aggregatedRewards in Hin. rewrite lookup2_aggregate in Hin.
        destruct (existsb _ _) eqn:Hex; [|discriminate].
        apply existsb_exists in Hex as (reward & Hin' & Hc).
        unfold concerns in Hc. apply andb_true_iff in Hc as [Hv Hd].
        apply String.eqb_eq in Hv, Hd. eauto.
      * intros (reward & Hin & <- & <-).
        exists (reward_validator reward, reward_denom reward,
                summed (reward_validator reward) (reward_denom reward) dbRewards).
        split; [reflexivity|].
        apply In_entries2; [exact Hwf|].
        unfold aggregatedRewards. rewrite lookup2_aggregate.
        replace (existsb _ dbRewards) with true; [reflexivity|].
        symmetry. apply existsb_exists. exists reward. split; [exact Hin|].
        unfold concerns. rewrite !String.eqb_refl. reflexivity.
    + apply dbRewardsReducer_entries.
  - intros validator denom q Hq Hlt. cbn [record_of rendered_amount fst snd].
    rewrite Hq. apply toFixed_reads; [discriminate | exact Hlt].
  - intros validator denom Hw Hle. unfold summed, num.
    assert (inject_Z 0 + exact_sum (amounts_of validator denom dbRewards) ==
            exact_sum (amounts_of validator denom dbRewards))%Q as Heq by ring.
    assert (inject_Z 0 + exact_sum (amounts_of validator denom dbRewards)
            <= MAX_EXACT)%Q as Hle' by (rewrite Heq; exact Hle).
    pose proof (sum_whole true (amounts_of validator denom dbRewards) (inject_Z 0) 0
                  ltac:(reflexivity) ltac:(lia) Hw Hle') as H.
    cbn iota in H.
    destruct (fold_left _ _ _); cbn [has_value] in *; try discriminate.
    apply Qeq_bool_iff. apply Qeq_bool_iff in H. rewrite H. exact Heq.
  - unfold dbRewardsReducer.
    match goal with |- map _ ?l = _ =>
      replace l with
        [ {| flat_validator := "V1"; flat_denom := "uatom";
             flat_amount := Some "15.000000" |};
          {| flat_validator := "V2"; flat_denom := "uatom";
             flat_amount := Some "3.000000" |} ]
        by (vm_compute; reflexivity)
    end.
    reflexivity.
Qed.

Lemma dbRewardsReducer_one_record_per_pair_witness :
  let dbRewards :=
    [reward_row "V1" "uatom" 10; reward_row "V1" "uatom" 5; reward_row "V2" "uatom" 3] in
  has_value (summed "V1" "uatom" dbRewards)
            (exact_sum (amounts_of "V1" "uatom" dbRewards)) = true /\
  summed "V1" "uatom" dbRewards = num 15.
Proof.
  split; [|reflexivity].
  destruct (dbRewardsReducer_one_record_per_pair ∅
              [reward_row "V1" "uatom" 10; reward_row "V1" "uatom" 5;
               reward_row "V2" "uatom" 3]) as (_ & _ & Hexact & _).
  apply Hexact.
  - reflexivity.
  - apply Qle_bool_iff. reflexivity.
Defined.

End RewardsProofs.

(** ** Token-weighted tally *)

Module TallyProofs.

Import JS PolkadotV0 NumberSpec TallySpec FloatProofs NumberProofs.

(** *** Rounding does not depend on how a rational is written *)

Lemma Qeq_abs q q' :
  q == q' ->
  Z.abs (Qnum q) * Z.pos (Qden q') = Z.abs (Qnum q') * Z.pos (Qden q).
Proof.
  unfold Qeq. intros H.
  rewrite <- (Z.abs_eq (Z.pos (Qden q'))), <- (Z.abs_eq (Z.pos (Qden q))) by lia.
  rewrite <- !Z.abs_mul, H. reflexivity.
Qed.

Lemma nearest_scaled_Qeq digits q q' :
  q == q' -> nearest_scaled digits q = nearest_scaled digits q'.
Proof.
  intros H. apply Qeq_abs in H. unfold nearest_scaled.
  set (c := 10 ^ Z.of_nat digits).
  set (a := Z.abs (Qnum q)) in *. set (a' := Z.abs (Qnum q')) in *.
  set (d := Z.pos (Qden q)) in *. set (d' := Z.pos (Qden q')) in *.
  assert (0 < d) by (subst d; lia). assert (0 < d') by (subst d'; lia).
  rewrite <- (Z.div_mul_cancel_r (2 * a * c + d) (2 * d) d') by lia.
  rewrite <- (Z.div_mul_cancel_r (2 * a' * c + d') (2 * d') d) by lia.
  f_equal.
  - replace ((2 * a * c + d) * d') with (2 * c * (a * d') + d * d') by ring.
    rewrite H. ring.
  - ring.
Qed.

(** *** Division to the nearest integer *)

Lemma half_up_near a b :
  0 < b ->
  (Qabs (inject_Z ((2 * a + b) / (2 * b)) - inject_Z a / inject_Z b) <= 1 # 2)%Q.
Proof.
  intros Hb. set (k := (2 * a + b) / (2 * b)).
  assert (2 * b * k <= 2 * a + b < 2 * b * k + 2 * b) as Hk.
  { unfold k.
    pose proof (Z.mul_div_le (2 * a + b) (2 * b) ltac:(lia)).
    pose proof (Z.mul_succ_div_gt (2 * a + b) (2 * b) ltac:(lia)).
    lia. }
  clearbody k.
  assert (inject_Z a / inject_Z b == a # Z.to_pos b)%Q as ->.
  { rewrite <- (Z2Pos.id b) at 1 by exact Hb. symmetry. apply Qmake_Qdiv. }
  apply Qabs_Qle_condition. unfold Qle, Qminus, Qplus, Qopp, inject_Z.
  cbn [Qnum Qden]. rewrite !Pos2Z.inj_mul, Z2Pos.id by exact Hb.
  split; nia.
Qed.

(** The multiple of [10^-digits] that [toFixed] writes is within half a
    unit of the last decimal. *)
Lemma nearest_scaled_near digits q :
  (0 <= q)%Q ->
  (Qabs (inject_Z (nearest_scaled digits q) / inject_Z (10 ^ Z.of_nat digits) - q)
   <= 1 / (2 * inject_Z (10 ^ Z.of_nat digits)))%Q.
Proof.
  intros Hq. unfold nearest_scaled.
  assert (0 <= Qnum q) as Hn by (unfold Qle in Hq; cbn in Hq; lia).
  rewrite Z.abs_eq by exact Hn.
  set (c := 10 ^ Z.of_nat digits).
  assert (0 < c) as Hc by (apply Z.pow_pos_nonneg; lia).
  replace (2 * Qnum q * c) with (2 * (Qnum q * c)) by ring.
  pose proof (half_up_near (Qnum q * c) (Z.pos (Qden q)) ltac:(lia)) as H.
  set (k := (2 * (Qnum q * c) + Z.pos (Qden q)) / (2 * Z.pos (Qden q))) in *.
  clearbody k.
  assert (inject_Z (Qnum q * c) / inject_Z (Z.pos (Qden q)) == q * inject_Z c)%Q as Hqc.
  { rewrite inject_Z_mult. destruct q as [n d]. cbn [Qnum Qden].
    rewrite (Qmake_Qdiv n d). field.
    intros H0. unfold Qeq in H0. cbn in H0. lia. }
  rewrite Hqc in H.
  assert (0 < inject_Z c)%Q as Hc' by (change 0%Q with (inject_Z 0); rewrite <- Zlt_Qlt; exact Hc).
  assert (inject_Z k / inject_Z c - q == (inject_Z k - q * inject_Z c) / inject_Z c)%Q as ->
    by (field; lra).
  unfold Qdiv at 1. rewrite Qabs_Qmult, (Qabs_pos (/ inject_Z c)).
  2:{ apply Qlt_le_weak, Qinv_lt_0_compat, Hc'. }
  assert (1 / (2 * inject_Z c) == (1 # 2) * / inject_Z c)%Q as -> by (field; lra).
  apply Qmult_le_compat_r; [exact H|].
  apply Qlt_le_weak, Qinv_lt_0_compat, Hc'.
Qed.

(** *** The quotient of two integers *)

Lemma this_div (t T : Z) :
  0 < T ->
  this (BigNumber.of_Z t / BigNumber.of_Z T)%Qc == Qmake t (Z.to_pos T).
Proof.
  intros HT. unfold BigNumber.of_Z, Qcdiv, Qcmult, Qcinv. cbn [this Q2Qc].
  rewrite !Qred_correct.
  destruct T as [|p|p]; try lia.
  unfold Qeq. cbn. lia.
Qed.

Lemma div_of_Z t T :
  0 < T -> 0 <= t ->
  BigNumber.div (BigNumber.of_Z t) (BigNumber.of_Z T) =
  Q2Qc (Qmake (quotient_20dp t T) (Z.to_pos (10 ^ 20))).
Proof.
  intros HT Ht. unfold BigNumber.div, BigNumber.round_dp, BigNumber.DECIMAL_PLACES.
  pose proof (this_div t T HT) as Hq.
  set (q := this (BigNumber.of_Z t / BigNumber.of_Z T)%Qc) in *.
  rewrite (nearest_scaled_Qeq 20 _ _ Hq).
  assert (nearest_scaled 20 (Qmake t (Z.to_pos T)) = quotient_20dp t T) as ->.
  { unfold nearest_scaled, quotient_20dp. cbn [Qnum Qden].
    rewrite Z2Pos.id, Z.abs_eq by lia. reflexivity. }
  do 2 f_equal.
  unfold Qeq in Hq. cbn [Qnum Qden] in Hq. rewrite Z2Pos.id in Hq by lia.
  destruct (Z.eq_dec t 0) as [->|Hne].
  - assert (quotient_20dp 0 T = 0) as ->; [|lia].
    unfold quotient_20dp. apply Z.div_small. lia.
  - assert (0 < Qnum q) by nia.
    rewrite Z.sgn_pos by assumption. lia.
Qed.

(** [BigNumber.div] is within half a unit of the twentieth decimal of
    the quotient. *)
Lemma quotient_20dp_near t T :
  0 < T ->
  (Qabs (inject_Z (quotient_20dp t T) / inject_Z (10 ^ 20) - quotient t T)
   <= 1 # 2 * 10 ^ 20)%Q.
Proof.
  intros HT. unfold quotient_20dp, quotient.
  replace (2 * t * 10 ^ 20) with (2 * (t * 10 ^ 20)) by ring.
  pose proof (half_up_near (t * 10 ^ 20) T HT) as H.
  set (k := (2 * (t * 10 ^ 20) + T) / (2 * T)) in *. clearbody k.
  assert (0 < inject_Z T)%Q as HT'
    by (change 0%Q with (inject_Z 0); rewrite <- Zlt_Qlt; exact HT).
  rewrite inject_Z_mult in H.
  set (c := inject_Z (10 ^ 20)) in *.
  assert (0 < c)%Q as Hc by reflexivity.
  assert (inject_Z k / c - inject_Z t / inject_Z T ==
          (inject_Z k - inject_Z t * c / inject_Z T) / c)%Q as ->
    by (field; split; lra).
  unfold Qdiv at 1. rewrite Qabs_Qmult, (Qabs_pos (/ c)).
  2:{ apply Qlt_le_weak, Qinv_lt_0_compat, Hc. }
  assert ((1 # 2 * 10 ^ 20) == (1 # 2) * / c)%Q as -> by reflexivity.
  apply Qmult_le_compat_r; [exact H|].
  apply Qlt_le_weak, Qinv_lt_0_compat, Hc.
Qed.

(** The field, for a quotient of at most [MAX_QUOTIENT]: fixed notation
    with 4 decimals, of a multiple of [10^-4] at most half of [10^-4]
    from the quotient, but for the two roundings before: to 20 decimals
    and to binary64. *)
Lemma totalVotedPercentage_reads t T :
  0 < T -> 0 <= t <= MAX_QUOTIENT * T ->
  exists s n,
    toFixed 4 (BigNumber.toNumber
                 (BigNumber.div (BigNumber.of_Z t) (BigNumber.of_Z T))) = Some s /\
    read_fixed s = Some (n, 4%nat) /\
    (Qabs (inject_Z n / inject_Z (10 ^ 4) - quotient t T)
     <= (1 # 2 * 10 ^ 4) + quotient t T * pow2 (-53) + (1 # 10 ^ 19))%Q.
Proof.
  intros HT Ht. rewrite div_of_Z by lia. unfold BigNumber.toNumber.
  pose proof (quotient_20dp_near t T HT) as Hnear.
  set (k := quotient_20dp t T) in *.
  set (x := this (Q2Qc (k # Z.to_pos (10 ^ 20)))).
  assert (x == inject_Z k / inject_Z (10 ^ 20))%Q as Hx.
  { unfold x. cbn [this Q2Qc]. rewrite Qred_correct. apply Qmake_Qdiv. }
  rewrite <- Hx in Hnear.
  assert (0 < inject_Z T)%Q as HT'
    by (change 0%Q with (inject_Z 0); rewrite <- Zlt_Qlt; exact HT).
  assert (0 <= quotient t T <= inject_Z MAX_QUOTIENT)%Q as [Hq0 Hqmax].
  { unfold quotient. split.
    - apply Qle_shift_div_l; [exact HT'|]. rewrite Qmult_0_l.
      change 0%Q with (inject_Z 0). rewrite <- Zle_Qle. lia.
    - apply Qle_shift_div_r; [exact HT'|].
      rewrite <- inject_Z_mult, <- Zle_Qle. lia. }
  set (q := quotient t T) in *.
  assert (0 <= x)%Q as Hx0.
  { rewrite Hx. apply Qle_shift_div_l; [reflexivity|]. rewrite Qmult_0_l.
    change 0%Q with (inject_Z 0). rewrite <- Zle_Qle.
    unfold k, quotient_20dp. apply Z.div_pos; nia. }
  apply Qabs_Qle_condition in Hnear as [Hlo Hhi].
  assert (inject_Z MAX_QUOTIENT == 999999999999999000000 # 1)%Q as HM by reflexivity.
  assert (inject_Z (10 ^ 21) <= pow2 1023)%Q as Hbig
    by (apply Qle_bool_iff; vm_compute; reflexivity).
  assert (inject_Z (10 ^ 21) == 1000000000000000000000 # 1)%Q as H21 by reflexivity.
  assert ((1 # 2 * 10 ^ 20) == 1 # 200000000000000000000)%Q as He20 by reflexivity.
  destruct (b64_error x Hx0 ltac:(lra)) as (y & -> & Hy0 & Herr).
  apply Qabs_Qle_condition in Herr as [Hylo Hyhi].
  pose proof (pow2_pos (-53)) as H53.
  assert (pow2 (-53) <= 1 # 9000000000000000)%Q as H53'
    by (apply Qle_bool_iff; vm_compute; reflexivity).
  assert (pow2 (-1075) <= 1 # 10 ^ 20)%Q as H1075
    by (apply Qle_bool_iff; vm_compute; reflexivity).
  pose proof (pow2_pos (-1075)) as H1075'.
  assert ((1 # 10 ^ 20) == 1 # 100000000000000000000)%Q as He20' by reflexivity.
  assert (x * pow2 (-53) <= q * pow2 (-53) + (1 # 10 ^ 20))%Q as Hx53.
  { assert (x * pow2 (-53) <= (q + (1 # 2 * 10 ^ 20)) * pow2 (-53))%Q as H
      by (apply Qmult_le_compat_r; lra).
    assert ((1 # 2 * 10 ^ 20) * pow2 (-53) <= (1 # 2 * 10 ^ 20) * 1)%Q as H'
      by (rewrite !(Qmult_comm (1 # 2 * 10 ^ 20)); apply Qmult_le_compat_r;
          [lra | discriminate]).
    lra. }
  assert (q * pow2 (-53) <= inject_Z MAX_QUOTIENT * (1 # 9000000000000000))%Q as Hq53.
  { apply Qle_trans with (q * (1 # 9000000000000000))%Q.
    - rewrite !(Qmult_comm q). apply Qmult_le_compat_r; lra.
    - apply Qmult_le_compat_r; [exact Hqmax | discriminate]. }
  rewrite HM in Hq53.
  assert (y < inject_Z (10 ^ 21))%Q as Hy21 by lra.
  destruct (toFixed_reads 4 y ltac:(discriminate)) as (s & Hs & Hread).
  { unfold Qle in Hy0. unfold Qlt in Hy21. cbn in Hy0, Hy21. lia. }
  exists s, (nearest_scaled 4 y). split; [exact Hs|]. split.
  { rewrite Hread. do 2 f_equal.
    destruct (Z.ltb_spec (Qnum y) 0); [|lia].
    unfold Qle in Hy0. cbn in Hy0. lia. }
  pose proof (nearest_scaled_near 4 y Hy0) as Hn.
  change (Z.of_nat 4) with 4 in Hn.
  set (w := (inject_Z (nearest_scaled 4 y) / inject_Z (10 ^ 4))%Q) in *.
  assert (1 / (2 * inject_Z (10 ^ 4)) == 1 # 2 * 10 ^ 4)%Q as Hu by reflexivity.
  rewrite Hu in Hn.
  apply Qabs_Qle_condition in Hn as [Hnlo Hnhi].
  assert ((1 # 10 ^ 19) == 1 # 10000000000000000000)%Q as He19 by reflexivity.
  apply Qabs_Qle_condition. split; lra.
Qed.

(** C6, as the claim states it for every tally: a turnout of [10^21] of
    an issuance of 1 gives no text with 4 decimals (ECMAScript writes
    ['1e+21']), and a turnout of [2^53 + 1] of an issuance of 1 gives
    ['9007199254740992.0000'], which is not the quotient. *)
Lemma tallyReducer_totalVotedPercentage_is_binary64 :
  totalVotedPercentage
    (tallyReducer (fun (_ : unit) (x : BigNumber.t) => x) tt
                  (tally_of (10 ^ 21)) 1) = None /\
  totalVotedPercentage
    (tallyReducer (fun (_ : unit) (x : BigNumber.t) => x) tt
                  (tally_of (2 ^ 53 + 1)) 1) = Some "9007199254740992.0000".
Proof. vm_compute. split; reflexivity. Qed.

(** C6: for a tally whose turnout is at most [10^21 - 10^6] times the
    total issuance, [totalVotedPercentage] is the quotient
    [turnout / totalIssuance] itself, not a hundred times it, written in
    fixed notation with exactly 4 decimals: the text writes [n / 10^4]
    for an integer [n], and [n / 10^4] is at most half of [10^-4] from the
    quotient, but for what the roundings before [toFixed] move it: the
    part [2^-53] of the quotient (binary64) and [10^-19] (the 20 decimals
    [BigNumber] keeps).  Turnout 300 of an issuance of 1000 gives
    ['0.3000']; turnout 3 of an issuance of 20000, whose quotient 0.00015
    is a binary64 value below it, gives ['0.0001']. *)
Theorem tallyReducer_totalVotedPercentage {Network ViewDenom : Type}
    (toViewDenom : Network -> BigNumber.t -> ViewDenom)
    (network : Network) (tally : Tally) (totalIssuance : Z) :
  0 < totalIssuance ->
  Z.of_N (turnout tally) <= MAX_QUOTIENT * totalIssuance ->
  (exists (s : string) (n : Z),
      totalVotedPercentage (tallyReducer toViewDenom network tally totalIssuance) =
        Some s /\
      read_fixed s = Some (n, 4%nat) /\
      (Qabs (inject_Z n / inject_Z (10 ^ 4) -
             quotient (Z.of_N (turnout tally)) totalIssuance)
       <= (1 # 2 * 10 ^ 4) +
          quotient (Z.of_N (turnout tally)) totalIssuance * pow2 (-53) +
          (1 # 10 ^ 19))%Q) /\
  (turnout tally = 300%N -> totalIssuance = 1000 ->
   totalVotedPercentage (tallyReducer toViewDenom network tally totalIssuance) =
     Some "0.3000") /\
  (turnout tally = 3%N -> totalIssuance = 20000 ->
   totalVotedPercentage (tallyReducer toViewDenom network tally totalIssuance) =
     Some "0.0001").
Proof.
  intros HT Ht. split; [|split].
  - unfold tallyReducer. cbn [totalVotedPercentage].
    apply totalVotedPercentage_reads; [exact HT | lia].
  - intros H1 H2. unfold tallyReducer. cbn [totalVotedPercentage].
    rewrite H1, H2. vm_compute. reflexivity.
  - intros H1 H2. unfold tallyReducer. cbn [totalVotedPercentage].
    rewrite H1, H2. vm_compute. reflexivity.
Qed.

Lemma tallyReducer_totalVotedPercentage_witness :
  totalVotedPercentage
    (tallyReducer (fun (_ : unit) (x : BigNumber.t) => x) tt tally_200_100_300 1000) =
  Some "0.3000".
Proof.
  destruct (tallyReducer_totalVotedPercentage
              (fun (_ : unit) (x : BigNumber.t) => x) tt tally_200_100_300 1000)
    as (_ & Hex & _).
  - reflexivity.
  - unfold MAX_QUOTIENT. simpl. lia.
  - apply Hex; reflexivity.
Defined.

End TallyProofs.

(** ** Retrieval with retries *)

Module RetryProofs.

Import CosmosV0 RetrySpec.

Section GetRetry.

Context {B : Type}.
Variable this : DataSource.
Variable url : string.

(** One attempt: what it completes with, and what it leaves behind. *)
Lemma get_prepared (w : World B) :
  exists w1,
    get url (getRetry_prepare w) =
      (match attempt url w 0 with
       | Ok body => Return body
       | Fail error => Throw (RequestFailed error)
       end, w1) /\
    upstream w1 = upstream w /\
    requests w1 = S (requests w) /\
    timers w1 = timers w /\
    console w1 = console w.
Proof.
  unfold get, getRetry_prepare, attempt. rewrite Nat.add_0_r.
  destruct (100000 <? cacheTotalSize w); cbn;
    destruct (outcome (upstream w (requests w) url));
    eexists; repeat split; reflexivity.
Qed.

Lemma getRetry_unfold (intent : nat) (w : World B) :
  getRetry this url intent w =
  match get url (getRetry_prepare w) with
  | (Return body, w1) => (Return body, w1)
  | (Throw error, w1) =>
    if (3 <=? intent)%nat
    then (Throw error, console_error (getRetry_message url (networkId this)) w1)
    else getRetry this url (S intent) (setTimeout 1000 w1)
  end.
Proof.
  simp getRetry. destruct (get url (getRetry_prepare w)) as [[body|error] w1].
  - simp getRetry. reflexivity.
  - simp getRetry. destruct (le_lt_dec 3 intent) as [Hle|Hlt]; simp getRetry.
    + apply Nat.leb_le in Hle. rewrite Hle. reflexivity.
    + apply Nat.leb_gt in Hlt. rewrite Hlt. reflexivity.
Qed.

(** Every attempt left fails: the last error is thrown as it came. *)
Lemma getRetry_exhausted (n : nat) : forall (intent : nat) (w : World B),
  (intent + n = 3)%nat ->
  (forall k, (k <= n)%nat -> fails url w k) ->
  exists error w',
    getRetry this url intent w = (Throw (RequestFailed error), w') /\
    attempt url w n = Fail error /\
    requests w' = (requests w + n + 1)%nat /\
    timers w' = repeat 1000 n ++ timers w /\
    console w' = getRetry_message url (networkId this) :: console w.
Proof.
  induction n as [|n IH]; intros intent w Hi Hfail.
  - destruct (Hfail O (Nat.le_refl _)) as [error He].
    destruct (get_prepared w) as (w1 & Hget & Hu & Hr & Ht & Hc).
    rewrite He in Hget. rewrite getRetry_unfold, Hget.
    replace (3 <=? intent)%nat with true by (symmetry; apply Nat.leb_le; lia).
    exists error, (console_error (getRetry_message url (networkId this)) w1).
    cbn. rewrite Hr, Ht, Hc. repeat split; [exact He | lia].
  - destruct (Hfail O (Nat.le_0_l _)) as [error He].
    destruct (get_prepared w) as (w1 & Hget & Hu & Hr & Ht & Hc).
    rewrite He in Hget. rewrite getRetry_unfold, Hget.
    replace (3 <=? intent)%nat with false by (symmetry; apply Nat.leb_gt; lia).
    destruct (IH (S intent) (setTimeout 1000 w1)) as (error' & w' & Hrun & Ha & Hr' & Ht' & Hc').
    + lia.
    + intros k Hk. destruct (Hfail (S k)) as [e' He']; [lia|].
      exists e'. unfold attempt in *. cbn. rewrite Hu, Hr.
      replace (S (requests w) + k)%nat with (requests w + S k)%nat by lia.
      exact He'.
    + exists error', w'. split; [exact Hrun|].
      unfold attempt in *. cbn in Ha, Hr', Ht', Hc'.
      rewrite Hu, Hr in Ha. rewrite Hr in Hr'. rewrite Ht in Ht'. rewrite Hc in Hc'.
      replace (S (requests w) + n)%nat with (requests w + S n)%nat in Ha by lia.
      repeat split; [exact Ha | lia | | exact Hc'].
      rewrite Ht'. change (1000 :: timers w) with ([1000] ++ timers w).
      rewrite app_assoc. f_equal. symmetry. apply repeat_cons.
Qed.

(** The first [k] attempts fail and the next one succeeds. *)
Lemma getRetry_recovers (k : nat) : forall (intent : nat) (w : World B) (body : B),
  (intent + k <= 3)%nat ->
  (forall j, (j < k)%nat -> fails url w j) ->
  attempt url w k = Ok body ->
  exists w',
    getRetry this url intent w = (Return body, w') /\
    upstream w' = upstream w /\
    requests w' = (requests w + k + 1)%nat /\
    timers w' = repeat 1000 k ++ timers w /\
    console w' = console w.
Proof.
  induction k as [|k IH]; intros intent w body Hi Hfail Hok.
  - destruct (get_prepared w) as (w1 & Hget & Hu & Hr & Ht & Hc).
    rewrite Hok in Hget. rewrite getRetry_unfold, Hget.
    exists w1. repeat split; [exact Hu | lia | exact Ht | exact Hc].
  - destruct (Hfail O (Nat.lt_0_succ _)) as [error He].
    destruct (get_prepared w) as (w1 & Hget & Hu & Hr & Ht & Hc).
    rewrite He in Hget. rewrite getRetry_unfold, Hget.
    replace (3 <=? intent)%nat with false by (symmetry; apply Nat.leb_gt; lia).
    destruct (IH (S intent) (setTimeout 1000 w1) body) as (w' & Hrun & Hu' & Hr' & Ht' & Hc').
    + lia.
    + intros j Hj. destruct (Hfail (S j)) as [e' He']; [lia|].
      exists e'. unfold attempt in *. cbn. rewrite Hu, Hr.
      replace (S (requests w) + j)%nat with (requests w + S j)%nat by lia.
      exact He'.
    + unfold attempt in *. cbn. rewrite Hu, Hr.
      replace (S (requests w) + k)%nat with (requests w + S k)%nat by lia.
      exact Hok.
    + exists w'. split; [exact Hrun|].
      cbn in Hu', Hr', Ht', Hc'.
      rewrite Hu in Hu'. rewrite Hr in Hr'. rewrite Ht in Ht'. rewrite Hc in Hc'.
      repeat split; [exact Hu' | lia | | exact Hc'].
      rewrite Ht'. change (1000 :: timers w) with ([1000] ++ timers w).
      rewrite app_assoc. f_equal. symmetry. apply repeat_cons.
Qed.

End GetRetry.

(** *** The retry policy *)

(** C2, as the code has it: when the first attempt and the 3 retries all
    fail, [getRetry] fails after exactly 4 attempts and 3 waits of 1000 ms,
    with the error of the last attempt, unchanged: what that error holds
    of the URL it keeps, and the network identifier is not put into it but
    written, with the URL, to the error console, in one line.  When one of
    the 4 attempts succeeds, [getRetry] returns its
    body after the failed attempts before it, with a wait of 1000 ms after
    each of them, and nothing on the console. *)
Theorem getRetry_three_retries {B : Type} (this : DataSource) (url : string)
    (w : World B) :
  ((forall k, (k <= 3)%nat -> fails url w k) ->
   exists error w',
     getRetry this url 0 w = (Throw (RequestFailed error), w') /\
     attempt url w 3 = Fail error /\
     requests w' = (requests w + 4)%nat /\
     timers w' = [1000; 1000; 1000] ++ timers w /\
     console w' = getRetry_message url (networkId this) :: console w) /\
  (forall k body,
      (k <= 3)%nat ->
      (forall j, (j < k)%nat -> fails url w j) ->
      attempt url w k = Ok body ->
      exists w',
        getRetry this url 0 w = (Return body, w') /\
        requests w' = (requests w + k + 1)%nat /\
        timers w' = repeat 1000 k ++ timers w /\
        console w' = console w).
Proof.
  split.
  - intros Hfail.
    destruct (getRetry_exhausted this url 3 0 w eq_refl Hfail)
      as (error & w' & Hrun & Ha & Hr & Ht & Hc).
    exists error, w'. repeat split; [exact Hrun | exact Ha | lia | exact Ht | exact Hc].
  - intros k body Hk Hfail Hok.
    destruct (getRetry_recovers this url k 0 w body Hk Hfail Hok)
      as (w' & Hrun & _ & Hr & Ht & Hc).
    exists w'. repeat split; assumption.
Qed.

Lemma getRetry_three_retries_witness :
  (exists error w',
      getRetry cosmos "blocks/latest" 0 always_failing = (Throw (RequestFailed error), w') /\
      error = gateway_timeout /\ requests w' = 4%nat) /\
  (exists w',
      getRetry cosmos "blocks/latest" 0 failing_twice = (Return "block 42", w') /\
      requests w' = 3%nat /\ timers w' = [1000; 1000]).
Proof.
  split.
  - destruct (proj1 (getRetry_three_retries cosmos "blocks/latest" always_failing))
      as (error & w' & Hrun & Ha & Hr & _).
    + intros k _. exists gateway_timeout. reflexivity.
    + exists error, w'. split; [exact Hrun|]. split; [|exact Hr].
      cbn in Ha. congruence.
  - destruct (proj2 (getRetry_three_retries cosmos "blocks/latest" failing_twice)
                2%nat "block 42")
      as (w' & Hrun & Hr & Ht & _).
    + lia.
    + intros j Hj. exists gateway_timeout. unfold attempt. cbn.
      destruct j as [|[|j]]; [reflexivity | reflexivity | lia].
    + reflexivity.
    + exists w'. split; [exact Hrun|]. split; [exact Hr | exact Ht].
Defined.

(** C2, as stated, fails: with an upstream that answers every attempt by
    the same gateway timeout, the failure [getRetry] propagates holds the
    URL asked, in the response the transport attached, and nowhere the
    network identifier, which only the console line has. *)
Lemma getRetry_failure_names_no_network :
  (forall k, (k <= 3)%nat -> fails "blocks/latest" always_failing k) /\
  exists e w',
    getRetry cosmos "blocks/latest" 0 always_failing = (Throw e, w') /\
    e = RequestFailed gateway_timeout /\
    mentions (error_text e) "blocks/latest" = true /\
    mentions (error_text e) (networkId cosmos) = false /\
    console w' = ["Error for query blocks/latest in network cosmos-hub-mainnet (tried 3 times)"].
Proof.
  split.
  - intros k _. exists gateway_timeout. reflexivity.
  - eexists _, _. split; [vm_compute; reflexivity|].
    split; [|split; [|split]]; vm_compute; reflexivity.
Qed.


End RetryProofs.

(** ** Paginated accumulation *)

Module PaginationProofs.

Import CosmosV0 RetrySpec RetryProofs PaginationSpec.

(** *** An upstream that never delivers what it announces *)

Lemma loadPaginatedTxs_empty_pages (fuel : nat) : forall (page : nat) (w : World TxsPage),
  upstream w = upstream empty_pages ->
  exists w',
    loadPaginatedTxs fuel cosmos "/txs?sender=cosmos1abc" page 0 w = Pending w' /\
    requests w' = (requests w + fuel)%nat.
Proof.
  induction fuel as [|fuel IH]; intros page w Hu; cbn [loadPaginatedTxs].
  - exists w. split; [reflexivity | lia].
  - destruct (getRetry_recovers cosmos ("/txs?sender=cosmos1abc" +:+ pagination page)
                0 0 w {| txs := []; total_count := 1 |})
      as (w1 & Hrun & Hu1 & Hr1 & _).
    + lia.
    + intros j Hj. lia.
    + unfold attempt. rewrite Hu. reflexivity.
    + rewrite Hrun. cbn [txs total_count app length Nat.add Nat.ltb Nat.leb].
      destruct (IH (page + 1)%nat w1) as (w' & Hrec & Hr'); [congruence|].
      rewrite Hrec. exists w'. split; [reflexivity | lia].
Qed.

(** C3 fails on this upstream: whatever the number of recursive calls
    observed, [loadPaginatedTxs] is still pending after them and has
    fetched that many pages. *)
Theorem loadPaginatedTxs_fetches_without_bound (fuel : nat) :
  exists w',
    loadPaginatedTxs fuel cosmos "/txs?sender=cosmos1abc" 1 0 empty_pages = Pending w' /\
    requests w' = fuel.
Proof.
  destruct (loadPaginatedTxs_empty_pages fuel 1 empty_pages eq_refl) as (w' & Hrun & Hr).
  exists w'. split; [exact Hrun | exact Hr].
Qed.

(** *** An upstream that serves its pages *)

(** The least number with a decidable property, below one that has it. *)
Lemma least_such (P : nat -> Prop) (P_dec : forall n, {P n} + {~ P n}) (k : nat) :
  P k -> exists r, (r <= k)%nat /\ P r /\ forall j, (j < r)%nat -> ~ P j.
Proof.
  induction k as [k IH] using lt_wf_ind. intros Hk.
  destruct (List.Exists_dec P (seq 0 k) P_dec) as [Hex|Hno].
  - apply List.Exists_exists in Hex as (j & Hj & HPj).
    apply in_seq in Hj. destruct (IH j ltac:(lia) HPj) as (r & Hr & HPr & Hmin).
    exists r. split; [lia | auto].
  - exists k. split; [lia|]. split; [exact Hk|].
    intros j Hj HPj. apply Hno, List.Exists_exists. exists j.
    split; [apply in_seq; lia | exact HPj].
Qed.

Section Pages.

Variable this : DataSource.
Variable url : string.
(** The page the upstream serves under each page number, and the total
    it reports with every page. *)
Variable pages : nat -> list Tx.
Variable N : nat.

Lemma first_pages_S page k :
  first_pages pages page (S k) = pages page ++ first_pages pages (page + 1) k.
Proof. unfold first_pages. cbn. rewrite Nat.add_1_r. reflexivity. Qed.

Lemma loadPaginatedTxs_pages (r : nat) :
  forall (page totalAmount fuel : nat) (w : World TxsPage),
    serves url pages N w ->
    (forall j, (j < r)%nat -> (totalAmount + length (first_pages pages page (S j)) < N)%nat) ->
    (N <= totalAmount + length (first_pages pages page (S r)))%nat ->
    (S r <= fuel)%nat ->
    exists w',
      loadPaginatedTxs fuel this url page totalAmount w =
        Settled (Return (first_pages pages page (S r))) w' /\
      requests w' = (requests w + S r)%nat.
Proof.
  induction r as [|r IH]; intros page totalAmount fuel w Hs Hless Hreach Hfuel;
    (destruct fuel as [|fuel]; [lia|]); cbn [loadPaginatedTxs];
    destruct (getRetry_recovers this (url +:+ pagination page) 0 0 w
                {| txs := pages page; total_count := N |})
      as (w1 & Hrun & Hu1 & Hr1 & _);
    try lia; try (intros j Hj; lia); try apply Hs;
    rewrite Hrun; cbn [txs total_count app].
  - rewrite first_pages_S in Hreach.
    change (first_pages pages (page + 1) 0) with (@nil Tx) in Hreach.
    rewrite app_nil_r in Hreach.
    destruct (Nat.ltb_spec (length (pages page) + totalAmount) N); [lia|].
    exists w1. split; [|lia].
    rewrite first_pages_S. change (first_pages pages (page + 1) 0) with (@nil Tx).
    rewrite app_nil_r. reflexivity.
  - pose proof (Hless O ltac:(lia)) as H0.
    rewrite first_pages_S in H0.
    change (first_pages pages (page + 1) 0) with (@nil Tx) in H0.
    rewrite app_nil_r in H0.
    destruct (Nat.ltb_spec (length (pages page) + totalAmount) N); [|lia].
    destruct (IH (page + 1)%nat (totalAmount + length (pages page))%nat fuel w1)
      as (w' & Hrec & Hr').
    + intros n p. rewrite Hu1. apply Hs.
    + intros j Hj. pose proof (Hless (S j) ltac:(lia)) as Hj'.
      rewrite first_pages_S, length_app in Hj'. lia.
    + rewrite first_pages_S, length_app in Hreach. lia.
    + lia.
    + rewrite Hrec. exists w'. split; [|lia].
      rewrite (first_pages_S page (S r)). reflexivity.
Qed.

End Pages.

(** C4, as the code has it: when the upstream reports [total_count = N]
    with every page and the pages it serves under page numbers 1, 2, ...
    reach [N] transactions at some point, [loadPaginatedTxs] returns pages
    [1..k], whole and in that order, where [k >= 1] is the first page
    number at which the accumulated count reaches [N]; it fetches [k]
    pages.  The list has at least [N] elements: exactly [N] only when pages
    [1..k] hold exactly [N], for nothing is cut off the last page. *)
Theorem loadPaginatedTxs_concatenates_pages (this : DataSource) (url : string)
    (pages : nat -> list Tx) (N : nat) (w : World TxsPage) :
  serves url pages N w ->
  (exists k, (N <= length (first_pages pages 1 k))%nat) ->
  exists k,
    (1 <= k)%nat /\
    (N <= length (first_pages pages 1 k))%nat /\
    (forall j, (1 <= j < k)%nat -> (length (first_pages pages 1 j) < N)%nat) /\
    forall fuel, (k <= fuel)%nat ->
      exists w',
        loadPaginatedTxs fuel this url 1 0 w =
          Settled (Return (first_pages pages 1 k)) w' /\
        requests w' = (requests w + k)%nat.
Proof.
  intros Hs [k0 Hk0].
  set (P := fun r => (N <= length (first_pages pages 1 (S r)))%nat).
  assert (P (pred k0)) as HP.
  { unfold P. destruct k0 as [|k0]; [|exact Hk0].
    cbn in Hk0. lia. }
  destruct (least_such P (fun r => le_dec _ _) _ HP) as (r & _ & Hr & Hmin).
  exists (S r). split; [lia|]. split; [exact Hr|]. split.
  - intros j Hj. destruct j as [|j]; [lia|].
    specialize (Hmin j ltac:(lia)). unfold P in Hmin. lia.
  - intros fuel Hfuel.
    apply (loadPaginatedTxs_pages this url pages N r);
      [exact Hs | | exact Hr | exact Hfuel].
    intros j Hj. specialize (Hmin j Hj). unfold P in Hmin. lia.
Qed.

Lemma loadPaginatedTxs_concatenates_pages_witness :
  exists k,
    (1 <= k)%nat /\
    (3 <= length (first_pages (fun _ => [tx "A"; tx "B"]) 1 k))%nat /\
    (forall j, (1 <= j < k)%nat ->
               (length (first_pages (fun _ => [tx "A"; tx "B"]) 1 j) < 3)%nat) /\
    forall fuel, (k <= fuel)%nat ->
      exists w',
        loadPaginatedTxs fuel cosmos "/txs?sender=cosmos1abc" 1 0 same_page_again =
          Settled (Return (first_pages (fun _ => [tx "A"; tx "B"]) 1 k)) w' /\
        requests w' = (requests same_page_again + k)%nat.
Proof.
  apply (loadPaginatedTxs_concatenates_pages cosmos "/txs?sender=cosmos1abc"
           (fun _ => [tx "A"; tx "B"]) 3 same_page_again).
  - intros n p. reflexivity.
  - exists 2%nat. cbn. lia.
Defined.

(** C4, as stated, fails: the upstream reports a total of 3 and serves 4
    transactions in two pages; the list returned has 4 elements. *)
Lemma loadPaginatedTxs_returns_whole_pages :
  exists w',
    loadPaginatedTxs 2 cosmos "/txs?sender=cosmos1abc" 1 0 three_in_two_pages =
      Settled (Return [tx "A"; tx "B"; tx "C"; tx "D"]) w' /\
    length [tx "A"; tx "B"; tx "C"; tx "D"] <> 3%nat.
Proof.
  eexists. split; [vm_compute; reflexivity | cbn; lia].
Qed.


End PaginationProofs.

(** ** Self stake *)

Module SelfStakeProofs.

Import CosmosV0 RetrySpec RetryProofs SelfStakeSpec.

Section GetSelfStake.

Context {Delegation Amount : Type}.
Variable JSON_parse : string -> Parsed.
Variable delegationReducer :
  RawDelegation -> option Validator -> delegationEnum -> Delegation.
Variable amount : Delegation -> Amount.
Variable decodeB32 : string -> string.
Variable encodeB32 : string -> string -> string.
Variable this : DataSource.
Variable validator : Validator.

Local Abbreviation selfStake :=
  (getSelfStake JSON_parse delegationReducer amount decodeB32 encodeB32 this validator).
Local Abbreviation url := (selfStake_url decodeB32 encodeB32 this validator).

(** The query succeeds: the amount of the reduced delegation. *)
Lemma getSelfStake_found w selfDelegation w' :
  query this url w = (Return selfDelegation, w') ->
  selfStake w =
    (Return (AmountOf (amount (delegationReducer selfDelegation (Some validator) ACTIVE))),
     w').
Proof. unfold getSelfStake. intros ->. reflexivity. Qed.

(** Status 500 and a log whose message starts with the marker: [0]. *)
Lemma getSelfStake_absent w error response message w' :
  query this url w = (Throw (RequestFailed error), w') ->
  extensions_response error = Some response ->
  status response = 500 ->
  JSON_parse (body_error response) = ParsedValue (Some message) ->
  String.prefix "no delegation for this" message = true ->
  selfStake w = (Return Zero, w').
Proof.
  unfold getSelfStake, getSelfStake_catch. intros -> -> -> -> ->. reflexivity.
Qed.

(** Any other status: the error, as it came. *)
Lemma getSelfStake_other_status w error response w' :
  query this url w = (Throw (RequestFailed error), w') ->
  extensions_response error = Some response ->
  status response <> 500 ->
  selfStake w = (Throw (RequestFailed error), w').
Proof.
  unfold getSelfStake, getSelfStake_catch. intros -> -> Hs.
  apply Z.eqb_neq in Hs. rewrite Hs. reflexivity.
Qed.

(** C8 fails where the upstream rejects with status 500 and a body whose
    [error] is not JSON text: [JSON.parse] throws inside the [catch]
    block, and the caller gets that [SyntaxError] in place of the
    upstream's error. *)
Theorem getSelfStake_loses_upstream_error w error response w' :
  query this url w = (Throw (RequestFailed error), w') ->
  extensions_response error = Some response ->
  status response = 500 ->
  JSON_parse (body_error response) = ParseSyntaxError ->
  selfStake w = (Throw SyntaxError, w') /\
  SyntaxError <> RequestFailed error.
Proof.
  unfold getSelfStake, getSelfStake_catch. intros -> -> -> ->.
  split; [reflexivity | discriminate].
Qed.

(** The same for a transport failure, which has no [extensions]. *)
Lemma getSelfStake_loses_transport_error w error w' :
  query this url w = (Throw (RequestFailed error), w') ->
  extensions_response error = None ->
  selfStake w = (Throw TypeError, w').
Proof. unfold getSelfStake, getSelfStake_catch. intros -> ->. reflexivity. Qed.

End GetSelfStake.

Lemma getSelfStake_loses_upstream_error_witness :
  exists w',
    getSelfStake parse_example (fun d _ _ => d) shares (fun a => a) (fun h _ => h)
      cosmos validator_1 always_internal_error = (Throw SyntaxError, w') /\
    SyntaxError <> RequestFailed internal_error.
Proof.
  destruct (getRetry_exhausted cosmos
              (selfStake_url (fun a => a) (fun h _ => h) cosmos validator_1)
              3 0 always_internal_error eq_refl)
    as (error & w' & Hrun & Ha & _).
  { intros k _. exists internal_error. reflexivity. }
  cbn in Ha. injection Ha as <-.
  exists w'.
  apply (getSelfStake_loses_upstream_error parse_example (fun d _ _ => d) shares
           (fun a => a) (fun h _ => h) cosmos validator_1 always_internal_error
           internal_error internal_error_response w');
    [exact Hrun | reflexivity | reflexivity | reflexivity].
Defined.


End SelfStakeProofs.

(** ** Signing info *)

Module SigningInfoProofs.

Import CosmosV0 RetrySpec RetryProofs SigningInfoSpec.

Section GetValidatorSigningInfo.

Variable pubkeyToAddress : string -> string -> string.
Variable this : DataSource.
Variable key : string.

Local Abbreviation signingInfo := (getValidatorSigningInfo pubkeyToAddress this key).
Local Abbreviation derived :=
  (pubkeyToAddress key (validatorConsensusBech32Prefix this)).
Local Abbreviation fallback := (default_signing_info pubkeyToAddress this key).

Lemma fallback_address : fallback !! "address" = Some derived.
Proof. unfold default_signing_info. apply lookup_insert_eq. Qed.

Lemma spread_address (response : gmap string string) :
  spread_over {[ "address" := derived ]} response !! "address" =
  Some (default derived (response !! "address")).
Proof.
  unfold spread_over. rewrite lookup_union.
  destruct (response !! "address") as [a|]; cbn.
  - rewrite lookup_singleton_eq. reflexivity.
  - rewrite lookup_singleton_eq. reflexivity.
Qed.

(** C9, as the code has it: the method never throws.  For one of the two
    excepted keys, and whenever the query fails, it returns the default
    record, with the address derived from the key, a missed-blocks
    counter of ['0'] and a start height of ['0'].  When the query
    succeeds it returns the response with an [address] property added in
    front: the record has an address in every case, the derived one
    unless the response brings an [address] of its own, which then
    stays. *)
Theorem getValidatorSigningInfo_never_throws (w : World (gmap string string)) :
  exists info w',
    signingInfo w = (Return info, w') /\
    (exists a, info !! "address" = Some a) /\
    (is_exception key = true -> info = fallback /\ w' = w) /\
    (forall e w1,
        is_exception key = false ->
        query this (signing_info_url key) w = (Throw e, w1) ->
        info = fallback /\ w' = w1) /\
    (forall response w1,
        is_exception key = false ->
        query this (signing_info_url key) w = (Return response, w1) ->
        info = spread_over {[ "address" := derived ]} response /\
        w' = w1 /\
        info !! "address" = Some (default derived (response !! "address")) /\
        (forall name, name <> "address" -> info !! name = response !! name)).
Proof.
  unfold getValidatorSigningInfo, try_catch, bind.
  destruct (is_exception key) eqn:Hex.
  - cbn. exists fallback, w. split; [reflexivity|].
    split; [exists derived; apply fallback_address|].
    split; [auto|]. split; intros; discriminate.
  - cbn. destruct (query this (signing_info_url key) w) as [[response|e] w1] eqn:Hq; cbn.
    + exists (spread_over {[ "address" := derived ]} response), w1.
      split; [reflexivity|].
      split; [eexists; apply spread_address|].
      split; [discriminate|]. split; [intros; discriminate|].
      intros response' w1' _ [= <- <-].
      split; [reflexivity|]. split; [reflexivity|].
      split; [apply spread_address|].
      intros name Hname. unfold spread_over.
      rewrite lookup_union, lookup_singleton_ne by congruence.
      destruct (response !! name); reflexivity.
    + exists fallback, w1. split; [reflexivity|].
      split; [exists derived; apply fallback_address|].
      split; [discriminate|].
      split; [intros e' w1' _ [= <- <-]; auto | intros; discriminate].
Qed.

End GetValidatorSigningInfo.

Lemma getValidatorSigningInfo_never_throws_witness :
  (exists info w',
      getValidatorSigningInfo address_of cosmos "cosmosvalconspub1xyz" always_unavailable =
        (Return info, w') /\
      info = default_signing_info address_of cosmos "cosmosvalconspub1xyz") /\
  (exists info w',
      getValidatorSigningInfo address_of cosmos "cosmosvalconspub1xyz" with_address =
        (Return info, w') /\
      info !! "address" = Some "cosmosvalcons1qqqq" /\
      info !! "start_height" = Some "7").
Proof.
  split.
  - destruct (getValidatorSigningInfo_never_throws address_of cosmos
                "cosmosvalconspub1xyz" always_unavailable)
      as (info & w' & Hrun & _ & _ & Hfail & _).
    exists info, w'. split; [exact Hrun|].
    destruct (getRetry_exhausted cosmos (signing_info_url "cosmosvalconspub1xyz")
                3 0 always_unavailable eq_refl)
      as (error & w1 & Hq & _).
    { intros k _. exists gateway_timeout. reflexivity. }
    apply (Hfail _ w1 eq_refl Hq).
  - destruct (getValidatorSigningInfo_never_throws address_of cosmos
                "cosmosvalconspub1xyz" with_address)
      as (info & w' & Hrun & _ & _ & _ & Hok).
    exists info, w'. split; [exact Hrun|].
    destruct (getRetry_recovers cosmos (signing_info_url "cosmosvalconspub1xyz")
                0 0 with_address
                (<[ "address" := "cosmosvalcons1qqqq" ]>
                   (<[ "start_height" := "7" ]> ∅)))
      as (w1 & Hq & _).
    { lia. } { intros j Hj. lia. } { reflexivity. }
    destruct (Hok _ w1 eq_refl Hq) as (_ & _ & Ha & Hrest).
    split.
    + rewrite Ha, lookup_insert_eq. reflexivity.
    + rewrite Hrest by discriminate.
      rewrite lookup_insert_ne by discriminate. apply lookup_insert_eq.
Defined.

(** C9, as stated, fails in its last part: the signing info of this
    upstream has an address of its own, and the record returned carries
    that one, not the address derived from the key. *)
Lemma getValidatorSigningInfo_keeps_upstream_address :
  exists info w',
    getValidatorSigningInfo address_of cosmos "cosmosvalconspub1xyz" with_address =
      (Return info, w') /\
    info !! "address" = Some "cosmosvalcons1qqqq" /\
    info !! "address" <>
      Some (address_of "cosmosvalconspub1xyz" (validatorConsensusBech32Prefix cosmos)).
Proof.
  eexists _, _. split; [vm_compute; reflexivity|].
  split; [vm_compute; reflexivity | vm_compute; discriminate].
Qed.


End SigningInfoProofs.

(** ** Delegations of a delegator *)

Module DelegationsProofs.

Import CosmosV0 RetrySpec RetryProofs DelegationsSpec.

Lemma at_least_one_iff delegation :
  at_least_one delegation = true <-> (1 <= balance delegation)%Qc.
Proof. unfold at_least_one, Qcle. apply Qle_bool_iff. Qed.

Lemma below_one_iff delegation :
  at_least_one delegation = false <-> (balance delegation < 1)%Qc.
Proof.
  rewrite <- not_true_iff_false, at_least_one_iff. split.
  - apply Qcnot_le_lt.
  - apply Qclt_not_le.
Qed.

(** C10: for an address of the network whose query succeeds, the list
    returned is, in the order of the response, the reduction as [ACTIVE]
    (with the validator the store has under its address) of each raw
    delegation whose balance is at least 1; those whose balance is below 1
    are left out without a trace; a [null] response gives the empty list. *)
Theorem getDelegationsForDelegatorAddress_keeps_balances_of_one
    {Delegation : Type}
    (delegationReducer : RawDelegation -> option Validator -> delegationEnum -> Delegation)
    (this : DataSource) (address : string)
    (w : World (option (list RawDelegation)))
    (response : option (list RawDelegation)) (w' : World (option (list RawDelegation))) :
  String.prefix (delegatorBech32Prefix this) address = true ->
  query this (delegations_url address) w = (Return response, w') ->
  getDelegationsForDelegatorAddress delegationReducer this address w =
    (Return
       (map (fun delegation =>
               delegationReducer delegation
                 (store_validators this !! validator_address delegation) ACTIVE)
            (List.filter at_least_one (default [] response))),
     w') /\
  (forall delegation,
      In delegation (List.filter at_least_one (default [] response)) <->
      In delegation (default [] response) /\ (1 <= balance delegation)%Qc) /\
  (forall delegation,
      (balance delegation < 1)%Qc ->
      ~ In delegation (List.filter at_least_one (default [] response))) /\
  (response = None ->
   getDelegationsForDelegatorAddress delegationReducer this address w = (Return [], w')).
Proof.
  intros Hprefix Hquery.
  assert (getDelegationsForDelegatorAddress delegationReducer this address w =
          (Return
             (map (fun delegation =>
                     delegationReducer delegation
                       (store_validators this !! validator_address delegation) ACTIVE)
                  (List.filter at_least_one (default [] response))),
           w')) as Hrun.
  { unfold getDelegationsForDelegatorAddress, bind, checkAddress.
    rewrite Hprefix. cbn. rewrite Hquery. reflexivity. }
  split; [exact Hrun|]. split; [|split].
  - intros delegation. rewrite filter_In, at_least_one_iff. reflexivity.
  - intros delegation Hlt Hin. apply filter_In in Hin as [_ Hkept].
    apply below_one_iff in Hlt. congruence.
  - intros ->. exact Hrun.
Qed.

Lemma getDelegationsForDelegatorAddress_keeps_balances_of_one_witness :
  exists w',
    getDelegationsForDelegatorAddress (fun d _ _ => validator_address d)
      cosmos "cosmos1abc" three_delegations = (Return ["val1"; "val3"], w').
Proof.
  destruct (getRetry_recovers cosmos (delegations_url "cosmos1abc") 0 0 three_delegations
              (Some [raw "val1" 5 1; raw "val2" 1 2; raw "val3" 1 1]))
    as (w' & Hq & _).
  { lia. } { intros j Hj. lia. } { reflexivity. }
  exists w'.
  apply (getDelegationsForDelegatorAddress_keeps_balances_of_one
           (fun d _ _ => validator_address d) cosmos "cosmos1abc" three_delegations
           (Some [raw "val1" 5 1; raw "val2" 1 2; raw "val3" 1 1]) w');
    [reflexivity | exact Hq].
Defined.


End DelegationsProofs.

(** ** Transactions of an extrinsic *)

Module TransactionsProofs.

Import JS PolkadotV0 PolkadotV0Transactions StakingSpec StakingProofs TransactionsSpec.

(** *** Success of an extrinsic *)

Lemma found_iff {A} (p : A -> bool) (l : list A) :
  found p l = true <-> exists x, In x l /\ p x = true.
Proof.
  unfold found. destruct (List.find p l) as [x|] eqn:Hfind.
  - apply find_some in Hfind. split; [eauto | reflexivity].
  - split; [discriminate|]. intros (x & Hin & Hp).
    rewrite (find_none _ _ Hfind x Hin) in Hp. discriminate.
Qed.

(** X1: an extrinsic counts as successful exactly when the block has an
    event of its own application phase that is [utility.BatchCompleted] for
    a batch and [system.ExtrinsicSuccess] otherwise; events of other
    extrinsics and of other phases never count, and a batch is not
    successful by [system.ExtrinsicSuccess] alone. *)
Theorem getExtrinsicSuccess_own_event (extrinsicIndex : nat)
    (blockEvents : list BlockEvent) (isBatch : bool) :
  getExtrinsicSuccess extrinsicIndex blockEvents isBatch = true <->
  exists e,
    In e blockEvents /\
    applyExtrinsic e = Some extrinsicIndex /\
    event_section e = success_section isBatch /\
    event_method e = success_method isBatch.
Proof.
  unfold getExtrinsicSuccess.
  assert (forall e,
             In e (List.filter
                     (fun e => match applyExtrinsic e with
                               | Some index => Nat.eqb index extrinsicIndex
                               | None => false
                               end) blockEvents) <->
             In e blockEvents /\ applyExtrinsic e = Some extrinsicIndex) as Hown.
  { intros e. rewrite filter_In. destruct (applyExtrinsic e) as [index|].
    - rewrite Nat.eqb_eq. split; intros [Hin Hi]; split; congruence.
    - split; intros [_ Hi]; discriminate. }
  destruct isBatch; rewrite found_iff; cbn [success_section success_method];
    split.
  all: try (intros (e & Hin & Hp); apply Hown in Hin as [Hin Hi];
            apply andb_true_iff in Hp as [Hs Hm];
            apply String.eqb_eq in Hs, Hm; exists e; auto).
  all: intros (e & Hin & Hi & Hs & Hm); exists e;
    (split; [apply Hown; auto|]); rewrite Hs, Hm; reflexivity.
Qed.

(** *** Involved addresses *)

Lemma existsb_eqb_In (x : string) (seen : list string) :
  existsb (String.eqb x) seen = true <-> In x seen.
Proof.
  rewrite existsb_exists. split.
  - intros (y & Hin & Heq). apply String.eqb_eq in Heq. congruence.
  - intros Hin. exists x. split; [exact Hin | apply String.eqb_refl].
Qed.

(** [_.uniq] from any list of values already seen. *)
Lemma uniq_from (array : list string) : forall seen,
  List.NoDup seen ->
  let r := fold_left (fun seen x => if existsb (String.eqb x) seen then seen
                                    else seen ++ [x]) array seen in
  List.NoDup r /\
  (forall x, In x r <-> In x seen \/ In x array) /\
  exists rest, r = seen ++ rest.
Proof.
  induction array as [|a array IH]; intros seen Hnd; cbn.
  - split; [exact Hnd|]. split; [tauto|]. exists []. symmetry. apply app_nil_r.
  - destruct (existsb (String.eqb a) seen) eqn:Hseen.
    + apply existsb_eqb_In in Hseen.
      destruct (IH seen Hnd) as (Hr & Hin & rest & Hrest).
      split; [exact Hr|]. split; [|exists rest; exact Hrest].
      intros x. rewrite Hin. intuition congruence.
    + assert (~ In a seen) as Hnew.
      { rewrite <- existsb_eqb_In, Hseen. discriminate. }
      destruct (IH (seen ++ [a])) as (Hr & Hin & rest & Hrest).
      { apply List.NoDup_app; [exact Hnd | repeat constructor; intros [] |].
        intros x Hx [<-|[]]. contradiction. }
      split; [exact Hr|]. split.
      * intros x. rewrite Hin, in_app_iff. cbn. tauto.
      * exists (a :: rest). rewrite Hrest, <- app_assoc. reflexivity.
Qed.

Lemma uniq_spec (array : list string) :
  List.NoDup (uniq array) /\ forall x, In x (uniq array) <-> In x array.
Proof.
  destruct (uniq_from array [] (List.NoDup_nil _)) as (Hnd & Hin & _).
  split; [exact Hnd|]. intros x. rewrite (Hin x). cbn. tauto.
Qed.

Lemma uniq_head (x : string) (array : list string) :
  exists rest, uniq (x :: array) = x :: rest.
Proof.
  unfold uniq. cbn.
  destruct (uniq_from array [x]) as (_ & _ & rest & Hrest).
  { repeat constructor. intros []. }
  exists rest. exact Hrest.
Qed.

(** X2: the involved addresses of a message never hold an address twice,
    start with the signer, and are exactly the signer together with the
    recipient of a transfer or the validators of a stake; a message of
    unknown type involves the signer alone. *)
Theorem extractInvolvedAddresses_signer_first_no_duplicates
    (lunieTransactionType : lunieMessageType) (signer : string)
    (message : InvolvedMessage) :
  let involved := extractInvolvedAddresses lunieTransactionType signer message in
  List.NoDup involved /\
  (exists rest, involved = signer :: rest) /\
  (forall a,
      In a involved <->
      a = signer \/
      (lunieTransactionType = SEND /\ a = args_0 message) \/
      (lunieTransactionType = STAKE /\ In a (message_validators message))) /\
  (lunieTransactionType = UNKNOWN -> involved = [signer]).
Proof.
  unfold extractInvolvedAddresses.
  destruct lunieTransactionType; cbn [app].
  - destruct (uniq_spec [signer; args_0 message]) as [Hnd Hin].
    split; [exact Hnd|]. split; [apply uniq_head|]. split; [|discriminate].
    intros a. rewrite Hin. cbn. intuition (try congruence; try discriminate).
  - destruct (uniq_spec (signer :: message_validators message)) as [Hnd Hin].
    split; [exact Hnd|]. split; [apply uniq_head|]. split; [|discriminate].
    intros a. rewrite Hin. cbn. intuition (try congruence; try discriminate).
  - split; [repeat constructor; intros []|].
    split; [exists []; reflexivity|]. split; [|reflexivity].
    intros a. cbn. intuition (try congruence; try discriminate).
Qed.

(** *** Types of the aggregated messages *)

Lemma staking_call_unknown (c : Call) :
  is_bond c = true \/ is_nominate c = true -> call_type c = UNKNOWN.
Proof.
  unfold is_bond, is_nominate, is_call, call_type.
  intros [H|H].
  - apply orb_true_iff in H as [H|H]; apply andb_true_iff in H as [Hs Hm];
      apply String.eqb_eq in Hs, Hm; rewrite Hs, Hm; reflexivity.
  - apply andb_true_iff in H as [Hs Hm];
      apply String.eqb_eq in Hs, Hm; rewrite Hs, Hm; reflexivity.
Qed.

(** X3: the messages of an extrinsic get the types of its primitives, in
    order, followed by one [STAKE] when a staking record was aggregated.
    Bond, bond-extra and nominate primitives are themselves of type
    [UNKNOWN]: a batch of a bond and a nominate gives two unknown messages
    and one stake. *)
Theorem aggregated_message_types (messages : list Call) :
  map message_type (aggregateLunieStaking messages) =
    map call_type messages ++
    (if existsb is_bond messages && existsb is_nominate messages
     then [STAKE] else []) /\
  (forall c, is_bond c = true \/ is_nominate c = true -> call_type c = UNKNOWN) /\
  map message_type (aggregateLunieStaking [bond_100; nominate_V1_V2]) =
    [UNKNOWN; UNKNOWN; STAKE].
Proof.
  split; [|split].
  - unfold aggregateLunieStaking.
    match goal with |- context [fold_left forEach_body messages ?i] =>
      destruct (forEach_fields messages i) as (R & B & N & _ & _ & M & S);
      remember (fold_left forEach_body messages i) as s' eqn:Hs' end.
    clear Hs'. cbn in R, B, N, M, S. rewrite R, B, N.
    assert (map message_type (map preserved messages) = map call_type messages) as Hp.
    { rewrite map_map. apply map_ext. intros c. reflexivity. }
    destruct (existsb is_bond messages && existsb is_nominate messages).
    + rewrite map_app, Hp. f_equal. cbn. unfold message_type. cbn.
      rewrite M, S. reflexivity.
    + rewrite Hp. symmetry. apply app_nil_r.
  - apply staking_call_unknown.
  - vm_compute. reflexivity.
Qed.

End TransactionsProofs.

(** ** Council tally *)

Module CouncilProofs.

Import JS PolkadotV0 PolkadotV0Council TallySpec TallyProofs CouncilSpec.

Lemma of_Z_plus (a b : Z) :
  BigNumber.plus (BigNumber.of_Z a) (BigNumber.of_Z b) = BigNumber.of_Z (a + b).
Proof.
  unfold BigNumber.plus, BigNumber.of_Z, Qcplus. apply Q2Qc_eq_iff.
  cbn [this Q2Qc]. rewrite !Qred_correct, inject_Z_plus. reflexivity.
Qed.

Lemma fold_add_backing (members : Members) : forall a,
  fold_left add_backing members (BigNumber.of_Z a) =
  BigNumber.of_Z (a + backing_total members).
Proof.
  unfold backing_total.
  induction members as [|[k v] members IH]; intros a; cbn [fold_left map fold_right].
  - f_equal. lia.
  - unfold add_backing at 2. cbn [snd]. rewrite of_Z_plus, IH. f_equal. lia.
Qed.

Lemma add_voted_backing (members : Members) (a : Z) (m : string) :
  add_voted members (BigNumber.of_Z a) m = BigNumber.of_Z (a + backing_of members m).
Proof.
  unfold add_voted, backing_of.
  destruct (List.find _ members) as [[k v]|]; cbn [snd].
  - apply of_Z_plus.
  - f_equal. lia.
Qed.

Lemma fold_add_voted (members : Members) (councilMembers : list string) : forall a,
  fold_left (add_voted members) councilMembers (BigNumber.of_Z a) =
  BigNumber.of_Z (a + voted_total members councilMembers).
Proof.
  unfold voted_total.
  induction councilMembers as [|m councilMembers IH]; intros a;
    cbn [fold_left map fold_right].
  - f_equal. lia.
  - rewrite add_voted_backing, IH. f_equal. lia.
Qed.

Lemma backing_of_member (members : Members) (k : string) (v : Z) :
  List.NoDup (map fst members) -> In (k, v) members -> backing_of members k = v.
Proof.
  unfold backing_of. induction members as [|[k' v'] members IH]; cbn; [contradiction|].
  intros Hnd. apply NoDup_cons_iff in Hnd as [Hk Hnd].
  intros [[= -> ->]|Hin].
  - rewrite String.eqb_refl. reflexivity.
  - destruct (String.eqb_spec k' k) as [->|]; [|auto].
    exfalso. apply Hk. change k with (fst (k, v)). apply in_map, Hin.
Qed.

Lemma sum_permutation (f : string -> Z) (l l' : list string) :
  Permutation l l' ->
  fold_right Z.add 0 (map f l) = fold_right Z.add 0 (map f l').
Proof. induction 1; cbn; lia. Qed.

(** When the council is the roster, the backing found is the whole backing. *)
Lemma voted_total_full (members : Members) (councilMembers : list string) :
  List.NoDup (map fst members) ->
  Permutation councilMembers (map fst members) ->
  voted_total members councilMembers = backing_total members.
Proof.
  intros Hnd Hperm. unfold voted_total, backing_total.
  rewrite (sum_permutation _ _ _ Hperm), map_map. f_equal.
  apply map_ext_in. intros [k v] Hin. apply backing_of_member; assumption.
Qed.

Lemma quotient_20dp_self (T : Z) : 0 < T -> quotient_20dp T T = 10 ^ 20.
Proof.
  intros HT. unfold quotient_20dp. symmetry.
  apply (Z.div_unique_pos _ _ _ T); lia.
Qed.

(** X4: the percentage of a council tally does not come from the votes: it
    is the backing of the whole roster divided by the backing of those
    council members that are on the roster.  So when the council members
    are the accounts of the roster, each once, the field is ["1.0000"]
    whoever voted, while [yes], [no] and [total] count the votes. *)
Theorem councilTallyReducer_full_council (votes : CouncilVotes)
    (councilMembers : list string) (members : Members) :
  List.NoDup (map fst members) ->
  Permutation councilMembers (map fst members) ->
  0 < backing_total members ->
  let tally := councilTallyReducer votes councilMembers members in
  totalVotedPercentage tally = Some "1.0000" /\
  yes tally = length (council_ayes votes) /\
  no tally = length (council_nays votes) /\
  total tally = (yes tally + no tally)%nat.
Proof.
  intros Hnd Hperm Hpos. cbn zeta. split; [|repeat split].
  unfold councilTallyReducer. cbn [totalVotedPercentage].
  rewrite fold_add_backing, fold_add_voted, (voted_total_full _ _ Hnd Hperm).
  cbn [Z.add].
  rewrite div_of_Z, quotient_20dp_self by lia.
  vm_compute. reflexivity.
Qed.

Lemma councilTallyReducer_full_council_witness :
  totalVotedPercentage
    (councilTallyReducer {| council_ayes := ["alice"]; council_nays := [] |}
       ["bob"; "alice"] [("alice", 30); ("bob", 12)]) = Some "1.0000".
Proof.
  apply (councilTallyReducer_full_council
           {| council_ayes := ["alice"]; council_nays := [] |}
           ["bob"; "alice"] [("alice", 30); ("bob", 12)]).
  - repeat constructor; cbn; intuition discriminate.
  - apply perm_swap.
  - reflexivity.
Defined.

End CouncilProofs.

(** ** Rewards of an era *)

Module EraRewardsProofs.

Import JS PolkadotV0 PolkadotV0Rewards EraRewardsSpec.

(** *** The dictionary of the validators *)

Lemma find_app_first {A} (p : A -> bool) (l l' : list A) :
  List.find p (l ++ l') =
  match List.find p l with Some x => Some x | None => List.find p l' end.
Proof.
  induction l as [|x l IH]; cbn; [reflexivity|].
  destruct (p x); [reflexivity | exact IH].
Qed.

Lemma keyBy_from (validators : list Validator) : forall (dict : gmap string Validator) k,
  fold_left (fun dict v => <[ operatorAddress v := v ]> dict) validators dict !! k =
  match List.find (fun v => String.eqb (operatorAddress v) k) (rev validators) with
  | Some v => Some v
  | None => dict !! k
  end.
Proof.
  induction validators as [|v validators IH]; intros dict k; cbn; [reflexivity|].
  rewrite IH, find_app_first.
  destruct (List.find _ (rev validators)); [reflexivity|]. cbn.
  destruct (String.eqb_spec (operatorAddress v) k) as [->|Hne].
  - apply lookup_insert_eq.
  - apply lookup_insert_ne, Hne.
Qed.

(** Under an address the dictionary has the last validator of the list
    with that address. *)
Lemma keyBy_lookup (validators : list Validator) (k : string) :
  keyBy validators !! k =
  List.find (fun v => String.eqb (operatorAddress v) k) (rev validators).
Proof.
  unfold keyBy. rewrite keyBy_from.
  destruct (List.find _ (rev validators)); [reflexivity | apply lookup_empty].
Qed.

Lemma keyBy_Some (validators : list Validator) (k : string) (v : Validator) :
  keyBy validators !! k = Some v -> In v validators /\ operatorAddress v = k.
Proof.
  rewrite keyBy_lookup. intros H. apply find_some in H as [Hin Heq].
  apply in_rev in Hin. apply String.eqb_eq in Heq. auto.
Qed.

Lemma keyBy_None (validators : list Validator) (k : string) :
  keyBy validators !! k = None <->
  forall v, In v validators -> operatorAddress v <> k.
Proof.
  rewrite keyBy_lookup. split.
  - intros H v Hin Heq. apply in_rev in Hin.
    pose proof (find_none _ _ H v Hin) as Hv. cbn in Hv.
    rewrite Heq, String.eqb_refl in Hv. discriminate.
  - intros H. destruct (List.find _ (rev validators)) as [v|] eqn:Hfind; [|reflexivity].
    apply find_some in Hfind as [Hin Heq]. apply in_rev in Hin.
    apply String.eqb_eq in Heq. destruct (H v Hin Heq).
Qed.

Section Rewards.

Context {Network Amount Coin : Type}.
Variable coinReducer : Network -> Amount -> Coin.
Variable network : Network.

Local Abbreviation faithful := (faithful coinReducer network).

Lemma push_rewards (validators : gmap string Validator) (reward : EraReward)
    (entries : list (string * Amount)) : forall parsedRewards,
  (forall e, In e entries -> In e (era_validators reward)) ->
  Forall (faithful validators reward) parsedRewards ->
  let out := fold_left (push_reward coinReducer network validators reward)
                       entries parsedRewards in
  map id out = map id parsedRewards ++ List.filter (known validators) (map fst entries) /\
  Forall (faithful validators reward) out.
Proof.
  induction entries as [|[a amount] entries IH]; intros parsedRewards Hsub Hall; cbn zeta.
  - cbn. rewrite app_nil_r. auto.
  - cbn [fold_left map List.filter fst].
    unfold push_reward at 2 4, known at 1. cbn [fst snd].
    destruct (validators !! a) as [validator|] eqn:Hlookup.
    + destruct (IH (parsedRewards ++
                      [ {| id := a; coin := coinReducer network amount;
                           height := era reward; address := reward_address reward;
                           rewarding_validator := validator;
                           validatorAddress := a |} ]))
        as [Hids Hfaithful].
      * intros e He. apply Hsub. right. exact He.
      * apply Forall_app. split; [exact Hall|]. constructor; [|constructor].
        unfold EraRewardsSpec.faithful. cbn. repeat split; try assumption.
        exists amount. split; [apply Hsub; left; reflexivity | reflexivity].
      * split; [|exact Hfaithful].
        rewrite Hids, map_app, <- app_assoc. reflexivity.
    + apply IH; [|exact Hall]. intros e He. apply Hsub. right. exact He.
Qed.

(** X5: [rewardReducer] gives one record for each entry of the reward whose
    validator the dictionary knows, in the order of the entries, and none
    for an unknown validator; each record carries that dictionary entry,
    the address twice (as [id] and [validatorAddress]), the era as height,
    the rewarded address and the reduced coin of its entry. *)
Theorem rewardReducer_known_validators_only (validators : gmap string Validator)
    (reward : EraReward) :
  let out := rewardReducer coinReducer network validators reward in
  map id out = List.filter (known validators) (map fst (era_validators reward)) /\
  Forall (faithful validators reward) out /\
  (forall a, validators !! a = None -> ~ In a (map id out)).
Proof.
  cbn zeta. unfold rewardReducer.
  destruct (push_rewards validators reward (era_validators reward) [])
    as [Hids Hfaithful]; [auto | constructor |].
  cbn in Hids. split; [exact Hids|]. split; [exact Hfaithful|].
  intros a Hnone Hin. rewrite Hids in Hin. apply filter_In in Hin as [_ Hknown].
  unfold known in Hknown. rewrite Hnone in Hknown. discriminate.
Qed.

Lemma fold_concat {A R} (f : A -> list R) (l : list A) : forall acc,
  fold_left (fun all x => all ++ f x) l acc = acc ++ flat_map f l.
Proof.
  induction l as [|x l IH]; intros acc; cbn.
  - symmetry. apply app_nil_r.
  - rewrite IH, app_assoc. reflexivity.
Qed.

(** X6: [rewardsReducer], with this module's [rewardReducer], gives the
    records of the rewards one after the other; the validator of a record
    is a validator of the list with the record's address (the last such
    one), and an address that no validator of the list has gets no
    record. *)
Theorem rewardsReducer_validators_of_the_list (validators : list Validator)
    (rewards : list EraReward) :
  let out := rewardsReducer (rewardReducer coinReducer) network validators rewards in
  out = flat_map (rewardReducer coinReducer network (keyBy validators)) rewards /\
  (forall r, In r out ->
             In (rewarding_validator r) validators /\
             operatorAddress (rewarding_validator r) = id r /\
             exists reward, In reward rewards /\ faithful (keyBy validators) reward r) /\
  (forall a, (forall v, In v validators -> operatorAddress v <> a) ->
             ~ In a (map id out)).
Proof.
  cbn zeta. unfold rewardsReducer. rewrite fold_concat, app_nil_l.
  split; [reflexivity|].
  assert (forall r,
             In r (flat_map (rewardReducer coinReducer network (keyBy validators)) rewards) ->
             exists reward, In reward rewards /\ faithful (keyBy validators) reward r) as Hf.
  { intros r Hin. apply in_flat_map in Hin as (reward & Hreward & Hin).
    exists reward. split; [exact Hreward|].
    unfold rewardReducer in Hin.
    destruct (push_rewards (keyBy validators) reward (era_validators reward) [])
      as [_ Hall]; [auto | constructor |].
    rewrite List.Forall_forall in Hall. apply Hall, Hin. }
  split.
  - intros r Hin. destruct (Hf r Hin) as (reward & Hreward & Hfaith).
    destruct (keyBy_Some _ _ _ (proj1 Hfaith)) as [Hv Ha].
    split; [exact Hv|]. split; [exact Ha|]. exists reward. auto.
  - intros a Hnone Hin. apply in_map_iff in Hin as (r & <- & Hin).
    destruct (Hf r Hin) as (reward & _ & Hfaith).
    destruct (keyBy_Some _ _ _ (proj1 Hfaith)) as [Hv Ha].
    apply (Hnone _ Hv Ha).
Qed.

End Rewards.

End EraRewardsProofs.

(** ** Order of the aggregated rewards *)

Module RewardsOrderProofs.

Import JS PolkadotV0 PolkadotV0Transactions RewardsSpec RewardsProofs.
Import TransactionsProofs RewardsOrderSpec.

(** *** Assignment, on the names *)

Lemma keys_obj_replace {V} (o : Obj V) (k : string) (v : V) :
  keys (obj_replace o k v) = keys o.
Proof.
  induction o as [|[k' v'] o IH]; cbn; [reflexivity|].
  destruct (String.eqb k' k); cbn; [reflexivity|]. f_equal. exact IH.
Qed.

Lemma keys_obj_insert_index {V} (o : Obj V) (i : N) (k : string) (v : V) :
  keys (obj_insert_index o i k v) = insert_key (keys o) i k.
Proof.
  induction o as [|[k' v'] o IH]; cbn; [reflexivity|].
  destruct (array_index k') as [j|]; [|reflexivity].
  destruct (i <? j)%N; cbn; [reflexivity|]. f_equal. exact IH.
Qed.

Lemma keys_obj_set_see {V} (o : Obj V) (k : string) (v : V) :
  keys (obj_set o k v) = see (keys o) k.
Proof.
  unfold obj_set, see.
  destruct (obj_get o k) eqn:Hget.
  - replace (existsb (String.eqb k) (keys o)) with true; [apply keys_obj_replace|].
    symmetry. apply existsb_eqb_In.
    destruct (in_dec string_dec k (keys o)) as [Hin|Hout]; [exact Hin|].
    apply obj_get_None in Hout. congruence.
  - replace (existsb (String.eqb k) (keys o)) with false.
    + destruct (array_index k); [apply keys_obj_insert_index|].
      unfold keys. rewrite map_app. reflexivity.
    + symmetry. apply not_true_iff_false. rewrite existsb_eqb_In.
      apply obj_get_None, Hget.
Qed.

Lemma In_insert_key names i x y :
  In y (insert_key names i x) <-> y = x \/ In y names.
Proof.
  induction names as [|z names IH]; cbn; [intuition|].
  destruct (array_index z) as [j|]; [|cbn; intuition].
  destruct (i <? j)%N; cbn; [intuition|]. rewrite IH. intuition.
Qed.

Lemma In_see seen x y : In y (see seen x) <-> y = x \/ In y seen.
Proof.
  unfold see. destruct (existsb (String.eqb x) seen) eqn:H.
  - apply existsb_eqb_In in H. intuition congruence.
  - destruct (array_index x); [apply In_insert_key|].
    rewrite in_app_iff. cbn. intuition.
Qed.

Lemma see_seen (seen : list string) (x : string) : see (see seen x) x = see seen x.
Proof.
  unfold see at 1.
  replace (existsb (String.eqb x) (see seen x)) with true; [reflexivity|].
  symmetry. apply existsb_eqb_In, In_see. left. reflexivity.
Qed.

Lemma keys_sum_reward sum reward :
  keys (sum_reward sum reward) = see (keys sum) (reward_validator reward).
Proof. unfold sum_reward. rewrite !keys_obj_set_see. apply see_seen. Qed.

Lemma keys2_sum_reward sum reward validator :
  keys2 (sum_reward sum reward) validator =
  if String.eqb (reward_validator reward) validator
  then see (keys2 sum validator) (reward_denom reward)
  else keys2 sum validator.
Proof.
  unfold keys2, sum_reward. rewrite obj_get_set_eq. cbn [from_option id].
  destruct (String.eqb_spec (reward_validator reward) validator) as [<-|Hne].
  - rewrite obj_get_set_eq. cbn [from_option id]. apply keys_obj_set_see.
  - rewrite !obj_get_set_ne by exact Hne. reflexivity.
Qed.

Lemma keys_aggregate dbRewards : forall sum,
  keys (fold_left sum_reward dbRewards sum) =
  fold_left see (map reward_validator dbRewards) (keys sum).
Proof.
  induction dbRewards as [|reward dbRewards IH]; intros sum; cbn [fold_left map];
    [reflexivity|].
  rewrite IH, keys_sum_reward. reflexivity.
Qed.

Lemma keys2_aggregate dbRewards validator : forall sum,
  keys2 (fold_left sum_reward dbRewards sum) validator =
  fold_left see
    (map reward_denom
         (List.filter (fun r => String.eqb (reward_validator r) validator) dbRewards))
    (keys2 sum validator).
Proof.
  induction dbRewards as [|reward dbRewards IH]; intros sum;
    cbn [fold_left List.filter]; [reflexivity|].
  rewrite IH, keys2_sum_reward.
  destruct (String.eqb (reward_validator reward) validator); reflexivity.
Qed.

(** *** The order of the names *)

Lemma In_insert_ascending x sorted y :
  In y (insert_ascending x sorted) <-> y = x \/ In y sorted.
Proof.
  induction sorted as [|z sorted IH]; cbn; [intuition|].
  destruct (index_of x <? index_of z)%N; cbn; [intuition|]. rewrite IH. intuition.
Qed.

Lemma In_ascending names y : In y (ascending names) <-> In y names.
Proof.
  unfold ascending.
  assert (forall acc, In y (fold_left (fun sorted x => insert_ascending x sorted) names acc)
                      <-> In y acc \/ In y names) as H.
  { induction names as [|x names IH]; intros acc; cbn [fold_left]; [cbn; tauto|].
    rewrite IH, In_insert_ascending. cbn. intuition. }
  rewrite H. cbn. tauto.
Qed.

Lemma Forall_insert_ascending (P : string -> Prop) x sorted :
  P x -> Forall P sorted -> Forall P (insert_ascending x sorted).
Proof.
  intros Hx Hs. apply List.Forall_forall. intros y Hy.
  apply In_insert_ascending in Hy as [->|Hy]; [exact Hx|].
  rewrite List.Forall_forall in Hs. auto.
Qed.

Lemma uniq_snoc names x :
  uniq (names ++ [x]) =
  if existsb (String.eqb x) (uniq names) then uniq names else uniq names ++ [x].
Proof. unfold uniq. rewrite fold_left_app. reflexivity. Qed.

Lemma ascending_snoc names x :
  ascending (names ++ [x]) = insert_ascending x (ascending names).
Proof. unfold ascending. rewrite fold_left_app. reflexivity. Qed.

(** Among indices followed by other names, [insert_key] is the insertion
    in ascending order. *)
Lemma insert_key_ascending indices others i x :
  array_index x = Some i ->
  Forall (fun k => is_index k = true) indices ->
  Forall (fun k => is_index k = false) others ->
  insert_key (indices ++ others) i x = insert_ascending x indices ++ others.
Proof.
  intros Hx Hi Ho. induction Hi as [|y indices Hy Hi IH]; cbn.
  - destruct Ho as [|z others Hz Ho]; [reflexivity|]. cbn.
    unfold is_index in Hz. destruct (array_index z); [discriminate | reflexivity].
  - unfold is_index in Hy. unfold index_of at 1 2. rewrite Hx. cbn [default].
    destruct (array_index y) as [j|]; [|discriminate]. cbn [default from_option id].
    destruct (i <? j)%N; [reflexivity|]. cbn. f_equal. exact IH.
Qed.

Lemma Forall_uniq (P : string -> Prop) names :
  Forall P names -> Forall P (uniq names).
Proof.
  intros H. apply List.Forall_forall. intros x Hx.
  apply (proj2 (uniq_spec names)) in Hx.
  rewrite List.Forall_forall in H. auto.
Qed.

Lemma Forall_filter_true {A} (p : A -> bool) (l : list A) :
  Forall (fun x => p x = true) (List.filter p l).
Proof. apply List.Forall_forall. intros x Hx. apply filter_In in Hx. tauto. Qed.

(** One more name created: [see] on the order so far. *)
Lemma own_keys_snoc names x : own_keys (names ++ [x]) = see (own_keys names) x.
Proof.
  unfold own_keys, see. rewrite !List.filter_app. cbn [List.filter].
  set (I := List.filter is_index names).
  set (O := List.filter (fun k => negb (is_index k)) names).
  assert (Forall (fun k => is_index k = true) (ascending (uniq I))) as HI.
  { apply List.Forall_forall. intros y Hy.
    apply In_ascending, (proj2 (uniq_spec I)), filter_In in Hy. tauto. }
  assert (Forall (fun k => is_index k = false) (uniq O)) as HO.
  { apply Forall_uniq, List.Forall_forall. intros y Hy.
    apply filter_In in Hy as [_ Hy]. apply negb_true_iff, Hy. }
  assert (existsb (String.eqb x) (ascending (uniq I) ++ uniq O) =
          if is_index x then existsb (String.eqb x) (uniq I)
          else existsb (String.eqb x) (uniq O)) as Hseen.
  { apply eq_true_iff_eq. rewrite existsb_eqb_In, in_app_iff, In_ascending.
    assert (In x (uniq I) -> is_index x = true) as HxI.
    { intros H. apply (proj2 (uniq_spec I)), filter_In in H. tauto. }
    assert (In x (uniq O) -> is_index x = false) as HxO.
    { intros H. rewrite List.Forall_forall in HO. auto. }
    destruct (is_index x) eqn:Hx; rewrite existsb_eqb_In; split.
    - intros [H|H]; [exact H|]. apply HxO in H. discriminate.
    - tauto.
    - intros [H|H]; [|exact H]. apply HxI in H. discriminate.
    - tauto. }
  rewrite Hseen. unfold is_index at 1 2 3. 
  destruct (array_index x) as [i|] eqn:Hx; cbn [negb].
  - rewrite app_nil_r, uniq_snoc.
    destruct (existsb (String.eqb x) (uniq I)); [reflexivity|].
    rewrite ascending_snoc. symmetry.
    apply insert_key_ascending; assumption.
  - rewrite app_nil_r, uniq_snoc.
    destruct (existsb (String.eqb x) (uniq O)); [reflexivity|].
    apply app_assoc.
Qed.

Lemma fold_see names : fold_left see names [] = own_keys names.
Proof.
  induction names as [|x names IH] using rev_ind; [reflexivity|].
  rewrite fold_left_app, IH, own_keys_snoc. reflexivity.
Qed.

Lemma flat_map_ext_in {A R} (f g : A -> list R) (l : list A) :
  (forall x, In x l -> f x = g x) -> flat_map f l = flat_map g l.
Proof.
  induction l as [|x l IH]; intros H; cbn; [reflexivity|].
  rewrite (H x), IH; [reflexivity | | left; reflexivity].
  intros y Hy. apply H. right. exact Hy.
Qed.

Lemma flat_map_of_map {A C R} (h : A -> C) (g : C -> list R) (l : list A) :
  flat_map g (map h l) = flat_map (fun x => g (h x)) l.
Proof. induction l as [|x l IH]; cbn; [reflexivity | rewrite IH; reflexivity]. Qed.

Lemma map_of_flat_map {A C R} (h : C -> R) (g : A -> list C) (l : list A) :
  map h (flat_map g l) = flat_map (fun x => map h (g x)) l.
Proof.
  induction l as [|x l IH]; cbn; [reflexivity|].
  rewrite map_app, IH. reflexivity.
Qed.

(** The pairs of an aggregate: its validators in order, each with its
    denoms in order. *)
Lemma pairs_of_aggregate sum :
  List.NoDup (keys sum) ->
  map fst (entries2 sum) =
  flat_map (fun validator => map (pair validator) (keys2 sum validator)) (keys sum).
Proof.
  intros Hnd. unfold entries2. rewrite map_of_flat_map.
  change (keys sum) with (map fst sum). rewrite flat_map_of_map.
  apply flat_map_ext_in. intros [v o] Hin. cbn [fst snd].
  unfold keys2. rewrite (In_obj_get _ _ _ Hnd Hin). cbn [from_option id].
  unfold keys. rewrite !map_map. reflexivity.
Qed.

(** Insertion in ascending order keeps a list in ascending order. *)
Lemma insert_ascending_sorted x sorted :
  StronglySorted (fun a b => (index_of a <= index_of b)%N) sorted ->
  StronglySorted (fun a b => (index_of a <= index_of b)%N) (insert_ascending x sorted).
Proof.
  intros Hs. induction Hs as [|y sorted Hs IH Hy]; cbn.
  - repeat constructor.
  - destruct (N.ltb_spec (index_of x) (index_of y)) as [Hlt|Hge].
    + constructor; [constructor; assumption|].
      constructor; [lia|]. rewrite List.Forall_forall in *. intros z Hz.
      specialize (Hy z Hz). lia.
    + constructor; [exact IH|].
      apply Forall_insert_ascending; assumption.
Qed.

Lemma ascending_sorted names :
  StronglySorted (fun a b => (index_of a <= index_of b)%N) (ascending names).
Proof.
  induction names as [|x names IH] using rev_ind; [constructor|].
  rewrite ascending_snoc. apply insert_ascending_sorted, IH.
Qed.

(** X7: the records of [dbRewardsReducer] come in the order in which the
    aggregate lists its properties: validator by validator, and for each
    validator denom by denom, the names that are array indices first, in
    ascending order, then the other names in the order in which they first
    occur in the input.  So the denoms 2, b, 1, a, 2, 01 of one validator
    come as 1, 2, b, a, 01. *)
Theorem dbRewardsReducer_own_key_order
    (validatorsDictionary : gmap string Validator) (dbRewards : list DbReward) :
  dbRewardsReducer validatorsDictionary dbRewards =
    map (record_of validatorsDictionary dbRewards) (pairs_in_order dbRewards) /\
  (forall names,
      StronglySorted (fun a b => (index_of a <= index_of b)%N)
                     (ascending (uniq (List.filter is_index names)))) /\
  map denom
    (dbRewardsReducer validatorsDictionary
       (map (fun d => reward_row "V1" d 1) ["2"; "b"; "1"; "a"; "2"; "01"])) =
    ["1"; "2"; "b"; "a"; "01"].
Proof.
  split; [|split].
  - rewrite dbRewardsReducer_entries. f_equal.
    set (aggregatedRewards := fold_left sum_reward dbRewards []).
    assert (well_formed aggregatedRewards) as Hwf.
    { apply well_formed_aggregate. split; constructor. }
    rewrite (pairs_of_aggregate _ (proj1 Hwf)).
    unfold pairs_in_order, validators_in_order, denoms_in_order, aggregatedRewards.
    rewrite keys_aggregate. cbn [keys map]. rewrite fold_see.
    apply flat_map_ext_in. intros v _. f_equal.
    rewrite keys2_aggregate. apply fold_see.
  - intros names. apply ascending_sorted.
  - vm_compute. reflexivity.
Qed.

End RewardsOrderProofs.

(** ** Retrieval: requests and cache *)

Module RetrievalProofs.

Import CosmosV0 RetrySpec RetryProofs RetrievalSpec.

Section GetRetry.

Context {B : Type}.
Variable this : DataSource.
Variable url : string.

(** One attempt, with what it does to the cache and to the memoized
    results. *)
Lemma get_prepared_cache (w : World B) :
  exists c w1,
    get url (getRetry_prepare w) = (c, w1) /\
    upstream w1 = upstream w /\
    requests w1 = S (requests w) /\
    timers w1 = timers w /\
    memoizedResults w1 = [url] /\
    cacheTotalSize w1 =
      (if flush_threshold <? cacheTotalSize w then 0 else cacheTotalSize w) +
      cached (upstream w (requests w) url).
Proof.
  unfold get, getRetry_prepare, flush_threshold.
  destruct (100000 <? cacheTotalSize w); cbn;
    destruct (outcome (upstream w (requests w) url));
    eexists _, _; repeat split; reflexivity.
Qed.

Lemma getRetry_any (n : nat) : forall (intent : nat) (w : World B),
  (intent + n = 3)%nat ->
  exists c w' k,
    getRetry this url intent w = (c, w') /\
    (1 <= k <= n + 1)%nat /\
    requests w' = (requests w + k)%nat /\
    timers w' = repeat 1000 (k - 1) ++ timers w /\
    memoizedResults w' = [url] /\
    forall growth, grows_by_at_most growth w -> 0 <= growth ->
                   cacheTotalSize w' <= flush_threshold + growth.
Proof.
  induction n as [|n IH]; intros intent w Hi;
    destruct (get_prepared_cache w) as (c & w1 & Hget & Hu & Hr & Ht & Hm & Hc);
    rewrite getRetry_unfold, Hget.
  all: assert (forall growth, grows_by_at_most growth w -> 0 <= growth ->
                              cacheTotalSize w1 <= flush_threshold + growth) as Hbound
      by (intros growth Hg Hpos; rewrite Hc;
          specialize (Hg (requests w) url); unfold flush_threshold in *;
          destruct (Z.ltb_spec 100000 (cacheTotalSize w)); lia).
  - destruct c as [body|error].
    + exists (Return body), w1, 1%nat. repeat split; try assumption; lia.
    + replace (3 <=? intent)%nat with true by (symmetry; apply Nat.leb_le; lia).
      exists (Throw error), (console_error (getRetry_message url (networkId this)) w1), 1%nat.
      cbn. repeat split; try assumption; lia.
  - destruct c as [body|error].
    + exists (Return body), w1, 1%nat. repeat split; try assumption; lia.
    + replace (3 <=? intent)%nat with false by (symmetry; apply Nat.leb_gt; lia).
      destruct (IH (S intent) (setTimeout 1000 w1) ltac:(lia))
        as (c' & w' & k & Hrun & Hk & Hr' & Ht' & Hm' & Hc').
      exists c', w', (S k). cbn in Hr', Ht'.
      split; [exact Hrun|]. split; [lia|]. split; [lia|]. split; [|split; [exact Hm'|]].
      * rewrite Ht', Ht. replace (S k - 1)%nat with (S (k - 1)) by lia.
        change (1000 :: timers w) with ([1000] ++ timers w).
        rewrite app_assoc. f_equal. symmetry. apply repeat_cons.
      * intros growth Hg Hpos. apply Hc'; [|exact Hpos].
        intros j u. cbn. rewrite Hu. apply Hg.
Qed.

End GetRetry.

(** X8: whatever the upstream does, [getRetry] settles after at least one
    and at most four requests, with a wait of 1000 ms between two requests
    and none after the last. *)
Theorem getRetry_at_most_four_requests {B : Type} (this : DataSource) (url : string)
    (w : World B) :
  exists c w' k,
    getRetry this url 0 w = (c, w') /\
    (1 <= k <= 4)%nat /\
    requests w' = (requests w + k)%nat /\
    timers w' = repeat 1000 (k - 1) ++ timers w.
Proof.
  destruct (getRetry_any this url 3 0 w eq_refl) as (c & w' & k & Hrun & Hk & Hr & Ht & _).
  exists c, w', k. repeat split; try assumption; lia.
Qed.

(** X9: [getRetry] keeps the cache bounded and the memoized results short:
    when no exchange adds more than [growth] to the cache, the cache holds
    at most [100000 + growth] after [getRetry], however large it was and
    however many attempts were made; and the memoized results hold the URL
    of the last request alone. *)
Theorem getRetry_bounds_the_cache {B : Type} (this : DataSource) (url : string)
    (w : World B) (growth : Z) :
  0 <= growth ->
  grows_by_at_most growth w ->
  cacheTotalSize (snd (getRetry this url 0 w)) <= flush_threshold + growth /\
  memoizedResults (snd (getRetry this url 0 w)) = [url].
Proof.
  intros Hpos Hg.
  destruct (getRetry_any this url 3 0 w eq_refl) as (c & w' & k & Hrun & _ & _ & _ & Hm & Hc).
  rewrite Hrun. cbn [snd]. split; [apply Hc; assumption | exact Hm].
Qed.

Lemma getRetry_bounds_the_cache_witness :
  cacheTotalSize (snd (getRetry cosmos "blocks/latest" 0 heavy_failures)) <= 170000 /\
  memoizedResults (snd (getRetry cosmos "blocks/latest" 0 heavy_failures)) =
    ["blocks/latest"].
Proof.
  apply (getRetry_bounds_the_cache cosmos "blocks/latest" heavy_failures 70000).
  - lia.
  - intros n u. cbn. lia.
Defined.

End RetrievalProofs.

(** ** Further queries *)

Module QueriesProofs.

Import CosmosV0 CosmosV0Queries RetrySpec RetryProofs PaginationSpec PaginationProofs.
Import EraRewardsProofs QueriesSpec.

(** *** The address check *)

Lemma checkAddress_foreign {B} (this : DataSource) (address : string) (w : World B) :
  String.prefix (delegatorBech32Prefix this) address = false ->
  checkAddress this address w = (Throw (UserInputError (foreign_address this)), w).
Proof. unfold checkAddress. intros ->. reflexivity. Qed.

(** X10: for an address that does not start with the prefix of the
    network, the queries by address fail with the [UserInputError] of
    [checkAddress] before anything is asked of the upstream: no request, no
    wait, no change of the data source. *)
Theorem foreign_address_asks_nothing {Delegation Undelegation : Type}
    (delegationReducer : RawDelegation -> option Validator -> delegationEnum -> Delegation)
    (undelegationReducer : FlatUndelegation -> option Validator -> Undelegation)
    (this : DataSource) (proposalId address : string) :
  String.prefix (delegatorBech32Prefix this) address = false ->
  (forall w,
      getDelegationsForDelegatorAddress delegationReducer this address w =
      (Throw (UserInputError (foreign_address this)), w)) /\
  (forall w,
      getUndelegationsForDelegatorAddress undelegationReducer this address w =
      (Throw (UserInputError (foreign_address this)), w)) /\
  (forall w,
      getDelegatorVote this proposalId address w =
      (Throw (UserInputError (foreign_address this)), w)).
Proof.
  intros Hforeign. repeat split; intros w.
  - unfold getDelegationsForDelegatorAddress, bind.
    rewrite (checkAddress_foreign this address w Hforeign). reflexivity.
  - unfold getUndelegationsForDelegatorAddress, bind.
    rewrite (checkAddress_foreign this address w Hforeign). reflexivity.
  - unfold getDelegatorVote, bind.
    rewrite (checkAddress_foreign this address w Hforeign). reflexivity.
Qed.

Lemma foreign_address_asks_nothing_witness :
  getDelegatorVote cosmos "12" "terra1abc" three_votes =
  (Throw (UserInputError "The address you entered doesn't belong to the Cosmos Hub network"),
   three_votes).
Proof.
  apply (foreign_address_asks_nothing (fun d _ _ => d) (fun u _ => u)
           cosmos "12" "terra1abc").
  reflexivity.
Defined.

(** *** The vote of a delegator *)

Lemma find_first {A} (p : A -> bool) (l : list A) (x : A) :
  List.find p l = Some x <->
  exists before after,
    l = before ++ x :: after /\ p x = true /\ forall y, In y before -> p y = false.
Proof.
  induction l as [|a l IH]; cbn.
  - split; [discriminate|]. intros (before & after & H & _).
    destruct before; discriminate.
  - destruct (p a) eqn:Hpa.
    + split.
      * intros [= ->]. exists [], l. repeat split; [exact Hpa | intros y []].
      * intros (before & after & H & Hx & Hbefore).
        destruct before as [|b before]; cbn in H.
        -- congruence.
        -- injection H as <- _. rewrite (Hbefore a) in Hpa; [discriminate | left; reflexivity].
    + rewrite IH. split.
      * intros (before & after & -> & Hx & Hbefore).
        exists (a :: before), after. repeat split; [exact Hx|].
        intros y [<-|Hy]; auto.
      * intros (before & after & H & Hx & Hbefore).
        destruct before as [|b before]; cbn in H.
        -- injection H as -> _. congruence.
        -- injection H as <- ->. exists before, after. repeat split; [exact Hx|].
           intros y Hy. apply Hbefore. right. exact Hy.
Qed.

(** X11: for an address of the network whose query succeeds,
    [getDelegatorVote] returns the option of the first vote of the response
    that the address cast, and [undefined] when the response has no vote of
    the address or is [null]. *)
Theorem getDelegatorVote_first_vote (this : DataSource) (proposalId address : string)
    (w : World (option (list Vote))) (response : option (list Vote))
    (w' : World (option (list Vote))) :
  String.prefix (delegatorBech32Prefix this) address = true ->
  query this (votes_url proposalId) w = (Return response, w') ->
  exists result,
    getDelegatorVote this proposalId address w = (Return result, w') /\
    (forall o,
        result = Some o <->
        exists before vote after,
          default [] response = before ++ vote :: after /\
          voter vote = address /\ vote_option vote = o /\
          forall earlier, In earlier before -> voter earlier <> address) /\
    (result = None <->
     forall vote, In vote (default [] response) -> voter vote <> address).
Proof.
  intros Hprefix Hquery.
  unfold getDelegatorVote, bind, checkAddress. rewrite Hprefix. cbn. rewrite Hquery.
  set (votes := default [] response).
  destruct (List.find (fun v => String.eqb (voter v) address) votes) as [vote|] eqn:Hfind.
  - exists (Some (vote_option vote)). split; [reflexivity|]. split.
    + intros o. split.
      * intros [= <-]. apply find_first in Hfind as (before & after & Hl & Hv & Hb).
        exists before, vote, after. apply String.eqb_eq in Hv.
        repeat split; try assumption.
        intros earlier Hin Heq. specialize (Hb earlier Hin). cbn in Hb.
        rewrite Heq, String.eqb_refl in Hb. discriminate.
      * intros (before & vote' & after & Hl & Hv & Ho & Hb).
        assert (List.find (fun v => String.eqb (voter v) address) votes = Some vote') as Hfind'.
        { apply find_first. exists before, after. split; [exact Hl|].
          split; [apply String.eqb_eq, Hv|].
          intros y Hy. apply String.eqb_neq, Hb, Hy. }
        congruence.
    + split; [discriminate|]. intros Hnone.
      apply find_some in Hfind as [Hin Hv]. apply String.eqb_eq in Hv.
      destruct (Hnone vote Hin Hv).
  - exists None. split; [reflexivity|]. split.
    + intros o. split; [discriminate|].
      intros (before & vote & after & Hl & Hv & _).
      assert (In vote votes) as Hin by (rewrite Hl; apply in_elt).
      pose proof (find_none _ _ Hfind vote Hin) as Hn. cbn in Hn.
      rewrite Hv, String.eqb_refl in Hn. discriminate.
    + split; [|reflexivity]. intros _ vote Hin Hv.
      pose proof (find_none _ _ Hfind vote Hin) as Hn. cbn in Hn.
      rewrite Hv, String.eqb_refl in Hn. discriminate.
Qed.

Lemma getDelegatorVote_first_vote_witness :
  exists w', getDelegatorVote cosmos "12" "cosmos1abc" three_votes = (Return (Some "Yes"), w').
Proof.
  destruct (getRetry_recovers cosmos (votes_url "12") 0 0 three_votes
              (Some [ {| voter := "cosmos1xyz"; vote_option := "No" |};
                      {| voter := "cosmos1abc"; vote_option := "Yes" |};
                      {| voter := "cosmos1abc"; vote_option := "Abstain" |} ]))
    as (w' & Hq & _).
  { lia. } { intros j Hj. lia. } { reflexivity. }
  destruct (getDelegatorVote_first_vote cosmos "12" "cosmos1abc" three_votes _ w'
              eq_refl Hq) as (result & Hrun & Hsome & _).
  exists w'. rewrite Hrun. do 2 f_equal. apply Hsome.
  exists [ {| voter := "cosmos1xyz"; vote_option := "No" |} ],
         {| voter := "cosmos1abc"; vote_option := "Yes" |},
         [ {| voter := "cosmos1abc"; vote_option := "Abstain" |} ].
  repeat split. intros earlier [<-|[]]. discriminate.
Defined.

(** *** Undelegations *)

Lemma length_flat_map_entries {R} (f : RawUndelegation -> UnbondingEntry -> R)
    (undelegations : list RawUndelegation) :
  length (flat_map (fun u => map (f u) (entries u)) undelegations) =
  entries_count undelegations.
Proof.
  unfold entries_count.
  induction undelegations as [|u undelegations IH]; cbn; [reflexivity|].
  rewrite length_app, length_map, IH. reflexivity.
Qed.

(** X12: for an address of the network whose query succeeds,
    [getUndelegationsForDelegatorAddress] returns one reduced row for every
    entry of every undelegation of the response, in the order of the
    response: the row of an entry carries the validator and delegator of
    its undelegation, and is reduced with the validator the store has under
    that address.  An undelegation without entries gives no row; a [null]
    response gives none. *)
Theorem getUndelegationsForDelegatorAddress_one_row_per_entry {Undelegation : Type}
    (undelegationReducer : FlatUndelegation -> option Validator -> Undelegation)
    (this : DataSource) (address : string)
    (w : World (option (list RawUndelegation)))
    (response : option (list RawUndelegation))
    (w' : World (option (list RawUndelegation))) :
  String.prefix (delegatorBech32Prefix this) address = true ->
  query this (unbonding_url address) w = (Return response, w') ->
  exists rows,
    getUndelegationsForDelegatorAddress undelegationReducer this address w =
      (Return rows, w') /\
    rows =
      flat_map (fun undelegation =>
                  map (fun entry =>
                         undelegationReducer (flat_entry undelegation entry)
                           (store_validators this !!
                              undelegation_validator_address undelegation))
                      (entries undelegation))
               (default [] response) /\
    length rows = entries_count (default [] response).
Proof.
  intros Hprefix Hquery.
  unfold getUndelegationsForDelegatorAddress, bind, checkAddress.
  rewrite Hprefix. cbn. rewrite Hquery.
  eexists. split; [reflexivity|].
  rewrite fold_concat, app_nil_l.
  assert (forall l : list RawUndelegation,
             map (fun undelegation =>
                    undelegationReducer undelegation
                      (store_validators this !! flat_validator_address undelegation))
                 (flat_map (fun x => map (flat_entry x) (entries x)) l) =
             flat_map (fun undelegation =>
                         map (fun entry =>
                                undelegationReducer (flat_entry undelegation entry)
                                  (store_validators this !!
                                     undelegation_validator_address undelegation))
                             (entries undelegation)) l) as Hflat.
  { induction l as [|u l IH]; cbn; [reflexivity|].
    rewrite map_app, map_map, IH. reflexivity. }
  rewrite Hflat. split; [reflexivity|].
  apply (length_flat_map_entries
           (fun u e => undelegationReducer (flat_entry u e)
                         (store_validators this !! undelegation_validator_address u))).
Qed.

Lemma getUndelegationsForDelegatorAddress_one_row_per_entry_witness :
  exists w',
    getUndelegationsForDelegatorAddress
      (fun u _ => (flat_validator_address u, flat_balance u))
      cosmos "cosmos1abc" two_undelegations =
    (Return [("val1", "5"); ("val1", "7"); ("val2", "9")], w').
Proof.
  destruct (getRetry_recovers cosmos (unbonding_url "cosmos1abc") 0 0 two_undelegations
              (Some [ {| undelegation_validator_address := "val1";
                         undelegation_delegator_address := "cosmos1abc";
                         entries := [entry "5"; entry "7"] |};
                      {| undelegation_validator_address := "val2";
                         undelegation_delegator_address := "cosmos1abc";
                         entries := [entry "9"] |} ]))
    as (w' & Hq & _).
  { lia. } { intros j Hj. lia. } { reflexivity. }
  destruct (getUndelegationsForDelegatorAddress_one_row_per_entry
              (fun u _ => (flat_validator_address u, flat_balance u))
              cosmos "cosmos1abc" two_undelegations _ w' eq_refl Hq)
    as (rows & Hrun & -> & _).
  exists w'. exact Hrun.
Defined.

(** *** A proposal by its id *)

(** X13: when the query of the proposal fails on the first attempt and on
    the three retries, for whatever reason, [getProposalById] fails with
    the [UserInputError] "There is no proposal in the network with ID
    '...'": the upstream's error is replaced, and none of the further
    queries is made. *)
Theorem getProposalById_reports_no_proposal {B Proposal : Type}
    (and_then : B -> Async B Proposal) (this : DataSource) (proposalId : string)
    (w : World B) :
  (forall k, (k <= 3)%nat -> fails (proposal_url proposalId) w k) ->
  exists w',
    getProposalById and_then this proposalId w =
      (Throw (UserInputError (no_proposal proposalId)), w') /\
    requests w' = (requests w + 4)%nat.
Proof.
  intros Hfail.
  destruct (getRetry_exhausted this (proposal_url proposalId) 3 0 w eq_refl Hfail)
    as (error & w' & Hrun & _ & Hr & _).
  exists w'. split; [|lia].
  unfold getProposalById, bind, try_catch, query. rewrite Hrun. reflexivity.
Qed.

Lemma getProposalById_reports_no_proposal_witness :
  exists w',
    getProposalById (fun proposal => ret proposal) cosmos "12" always_failing =
      (Throw (UserInputError "There is no proposal in the network with ID '12'"), w') /\
    requests w' = 4%nat.
Proof.
  apply (getProposalById_reports_no_proposal (fun proposal => ret proposal)
           cosmos "12" always_failing).
  intros k _. exists gateway_timeout. reflexivity.
Defined.

(** *** A page that cannot be fetched *)

Section FailingPage.

Variable this : DataSource.
Variable url : string.
Variable pages : nat -> list Tx.
Variable N : nat.
Variable error : RequestError.

Lemma loadPaginatedTxs_failing_page (r : nat) :
  forall (page totalAmount fuel : nat) (w : World TxsPage),
    (forall n p, (page <= p < page + r)%nat ->
                 outcome (upstream w n (url +:+ pagination p)) =
                 Ok {| txs := pages p; total_count := N |}) ->
    (forall n, outcome (upstream w n (url +:+ pagination (page + r))) = Fail error) ->
    (forall j, (j < r)%nat ->
               (totalAmount + length (first_pages pages page (S j)) < N)%nat) ->
    (S r <= fuel)%nat ->
    exists w',
      loadPaginatedTxs fuel this url page totalAmount w =
        Settled (Throw (RequestFailed error)) w' /\
      requests w' = (requests w + r + 4)%nat.
Proof.
  induction r as [|r IH]; intros page totalAmount fuel w Hserved Hfails Hless Hfuel;
    (destruct fuel as [|fuel]; [lia|]); cbn [loadPaginatedTxs].
  - destruct (getRetry_exhausted this (url +:+ pagination page) 3 0 w eq_refl)
      as (e & w' & Hrun & Ha & Hr & _).
    { intros k _. exists error. unfold attempt.
      rewrite <- (Nat.add_0_r page). apply Hfails. }
    unfold attempt in Ha. rewrite <- (Nat.add_0_r page) in Ha at 1.
    rewrite Hfails in Ha. injection Ha as <-.
    rewrite Hrun. exists w'. split; [reflexivity | lia].
  - destruct (getRetry_recovers this (url +:+ pagination page) 0 0 w
                {| txs := pages page; total_count := N |})
      as (w1 & Hrun & Hu1 & Hr1 & _).
    { lia. } { intros j Hj. lia. } { apply Hserved. lia. }
    rewrite Hrun. cbn [txs total_count app].
    pose proof (Hless O ltac:(lia)) as H0.
    rewrite first_pages_S in H0.
    change (first_pages pages (page + 1) 0) with (@nil Tx) in H0.
    rewrite app_nil_r in H0.
    destruct (Nat.ltb_spec (length (pages page) + totalAmount) N); [|lia].
    destruct (IH (page + 1)%nat (totalAmount + length (pages page))%nat fuel w1)
      as (w' & Hrec & Hr').
    + intros n p Hp. rewrite Hu1. apply Hserved. lia.
    + intros n. rewrite Hu1. replace (page + 1 + r)%nat with (page + S r)%nat by lia.
      apply Hfails.
    + intros j Hj. pose proof (Hless (S j) ltac:(lia)) as Hj'.
      rewrite first_pages_S, length_app in Hj'. lia.
    + lia.
    + rewrite Hrec. exists w'. split; [reflexivity | lia].
Qed.

End FailingPage.

(** X14: a page that cannot be fetched fails the whole accumulation: when
    pages [1..r] are served without reaching the reported total and the
    request for page [r + 1] fails on every attempt, [loadPaginatedTxs]
    fails with that error after [r + 4] requests, and the pages already
    fetched are not returned. *)
Theorem loadPaginatedTxs_discards_pages_on_failure (this : DataSource) (url : string)
    (pages : nat -> list Tx) (N r fuel : nat) (error : RequestError)
    (w : World TxsPage) :
  (forall n p, (1 <= p <= r)%nat ->
               outcome (upstream w n (url +:+ pagination p)) =
               Ok {| txs := pages p; total_count := N |}) ->
  (forall n, outcome (upstream w n (url +:+ pagination (r + 1))) = Fail error) ->
  (forall j, (1 <= j <= r)%nat -> (length (first_pages pages 1 j) < N)%nat) ->
  (r + 1 <= fuel)%nat ->
  exists w',
    loadPaginatedTxs fuel this url 1 0 w = Settled (Throw (RequestFailed error)) w' /\
    requests w' = (requests w + r + 4)%nat.
Proof.
  intros Hserved Hfails Hless Hfuel.
  apply (loadPaginatedTxs_failing_page this url pages N error r 1 0 fuel w).
  - intros n p Hp. apply Hserved. lia.
  - intros n. replace (1 + r)%nat with (r + 1)%nat by lia. apply Hfails.
  - intros j Hj. cbn [Nat.add]. apply Hless. lia.
  - lia.
Qed.

Lemma loadPaginatedTxs_discards_pages_on_failure_witness :
  exists w',
    loadPaginatedTxs 2 cosmos "/txs?sender=cosmos1abc" 1 0 second_page_fails =
      Settled (Throw (RequestFailed gateway_timeout)) w' /\
    requests w' = 5%nat.
Proof.
  apply (loadPaginatedTxs_discards_pages_on_failure cosmos "/txs?sender=cosmos1abc"
           (fun _ => [tx "A"; tx "B"]) 3 1 2 gateway_timeout second_page_fails).
  - intros n p Hp. assert (p = 1%nat) as -> by lia. reflexivity.
  - intros n. reflexivity.
  - intros j Hj. assert (j = 1%nat) as -> by lia. cbn. lia.
  - lia.
Defined.

End QueriesProofs.

